(** * Void language: lexer, parser and tree-walking interpreter

    A shallow embedding of [src/lexer.ts], [src/parser.ts] and
    [src/interpreter.ts], followed by theorems about the language's
    environment, collection methods, operators, casts and loops.

    Conventions.
    - A JavaScript [number] is an IEEE double.  A double that is a safe
      integer (absolute value at most 2^53 - 1) is written [NInt z] and
      handled with exact integer arithmetic, which is what double
      arithmetic does on that range; every other double is a [NFloat]
      carrying a primitive binary64 float.
    - Strings are sequences of one-byte characters; on ASCII text this is
      the JavaScript string.
    - [throw new Error(...)] is an [Abort]; behaviour that the source
      delegates to the JavaScript host and that is not described here
      (shortest-round-trip float printing, [Math.sqrt], Unicode case
      mapping, ...) is the outcome [HostDefined], never a made-up value. *)

From Stdlib Require Import ZArith String Ascii List Floats Lia Bool.
From Stdlib Require Import DecimalString DecimalN DecimalPos DecimalFacts.
From stdpp Require Import base option gmap strings list.
Import ListNotations.

Local Open Scope string_scope.
Local Open Scope Z_scope.

(** ** Characters and strings *)

Definition charCode (c : ascii) : Z := Z.of_nat (nat_of_ascii c).

(** [ch >= "0" && ch <= "9"] *)
Definition isDigit (ch : ascii) : bool :=
  (charCode "0" <=? charCode ch) && (charCode ch <=? charCode "9").

(** [(ch >= "a" && ch <= "z") || (ch >= "A" && ch <= "Z") || ch === "_"] *)
Definition isAlpha (ch : ascii) : bool :=
  ((charCode "a" <=? charCode ch) && (charCode ch <=? charCode "z"))
  || ((charCode "A" <=? charCode ch) && (charCode ch <=? charCode "Z"))
  || Ascii.eqb ch "_".

Definition isAlphaNumeric (ch : ascii) : bool := isAlpha ch || isDigit ch.

(** The white space that [Number] and [parseInt] skip: the characters of
    the host's white-space and line-terminator classes that a one-byte
    character can be, the no-break space U+00A0 among them. *)
Definition isSpace (ch : ascii) : bool :=
  Ascii.eqb ch " " || Ascii.eqb ch "009" || Ascii.eqb ch "010"
  || Ascii.eqb ch "011" || Ascii.eqb ch "012" || Ascii.eqb ch "013"
  || Ascii.eqb ch "160".

Definition strLength (s : string) : Z := Z.of_nat (String.length s).

Fixpoint join (sep : string) (items : list string) : string :=
  match items with
  | [] => ""
  | [x] => x
  | x :: rest => x +:+ sep +:+ join sep rest
  end.

Fixpoint dropWhile (p : ascii -> bool) (s : string) : string :=
  match s with
  | String c rest => if p c then dropWhile p rest else s
  | EmptyString => s
  end.

Fixpoint existsChar (p : ascii -> bool) (s : string) : bool :=
  match s with
  | String c rest => p c || existsChar p rest
  | EmptyString => false
  end.

(** [s.includes(t)] *)
Fixpoint includes (s t : string) : bool :=
  String.prefix t s ||
  match s with
  | String _ rest => includes rest t
  | EmptyString => false
  end.

(** ** Numbers *)

Inductive number :=
| NInt (z : Z)
| NFloat (f : float).

Definition MAX_SAFE_INTEGER : Z := 2 ^ 53 - 1.

Definition isSafe (z : Z) : bool :=
  (- MAX_SAFE_INTEGER <=? z) && (z <=? MAX_SAFE_INTEGER).

(** The double nearest to an integer (round to nearest, ties to even). *)
Definition floatOfZ (z : Z) : float :=
  SF2Prim (binary_normalize prec emax z 0 false).

(** The integer a double denotes, when it is finite and integral.  The
    negative zero is kept apart: it is not the number [NInt 0]. *)
Definition integralValue (f : float) : option Z :=
  match Prim2SF f with
  | S754_zero false => Some 0
  | S754_finite s m e =>
      let z := if s then Z.neg m else Z.pos m in
      if 0 <=? e then Some (z * 2 ^ e)
      else if (z mod 2 ^ (- e)) =? 0 then Some (z / 2 ^ (- e)) else None
  | _ => None
  end.

Definition normalise (f : float) : number :=
  match integralValue f with
  | Some z => if isSafe z then NInt z else NFloat f
  | None => NFloat f
  end.

Definition toFloat (n : number) : float :=
  match n with
  | NInt z => floatOfZ z
  | NFloat f => f
  end.

(** An integer result of exact arithmetic, rounded once to a double. *)
Definition ofZ (z : Z) : number :=
  if isSafe z then NInt z else normalise (floatOfZ z).

Definition negZero : number := NFloat (-0)%float.
Definition NaN : number := NFloat nan.

Definition numAdd (a b : number) : number :=
  match a, b with
  | NInt x, NInt y => ofZ (x + y)
  | _, _ => normalise (toFloat a + toFloat b)%float
  end.

Definition numSub (a b : number) : number :=
  match a, b with
  | NInt x, NInt y => ofZ (x - y)
  | _, _ => normalise (toFloat a - toFloat b)%float
  end.

Definition numMul (a b : number) : number :=
  match a, b with
  | NInt x, NInt y =>
      if (x * y =? 0) && ((x <? 0) || (y <? 0)) then negZero else ofZ (x * y)
  | _, _ => normalise (toFloat a * toFloat b)%float
  end.

Definition numDiv (a b : number) : number :=
  normalise (toFloat a / toFloat b)%float.

Definition numNeg (a : number) : number :=
  match a with
  | NInt 0 => negZero
  | NInt z => NInt (- z)
  | NFloat f => normalise (- f)%float
  end.

(** [a % b]: the remainder has the sign of the dividend.  On doubles that
    are not safe integers the host computes it ([None]). *)
Definition numRem (a b : number) : option number :=
  match a, b with
  | NInt x, NInt y =>
      if y =? 0 then Some NaN
      else if (Z.rem x y =? 0) && (x <? 0) then Some negZero
      else Some (NInt (Z.rem x y))
  | _, _ => None
  end.

(** [Math.pow(a, b)] on safe integers with a natural exponent and a safe
    result; any other case is the host's [pow] ([None]). *)
Definition numPow (a b : number) : option number :=
  match a, b with
  | NInt x, NInt y =>
      if (0 <=? y) && isSafe (x ^ y) then Some (NInt (x ^ y)) else None
  | _, _ => None
  end.

(** [a === b] on numbers. *)
Definition numEq (a b : number) : bool :=
  match a, b with
  | NInt x, NInt y => x =? y
  | _, _ => (toFloat a =? toFloat b)%float
  end.

Definition numLt (a b : number) : bool :=
  match a, b with
  | NInt x, NInt y => x <? y
  | _, _ => (toFloat a <? toFloat b)%float
  end.

Definition numLe (a b : number) : bool :=
  match a, b with
  | NInt x, NInt y => x <=? y
  | _, _ => (toFloat a <=? toFloat b)%float
  end.

Definition numGt (a b : number) : bool := numLt b a.
Definition numGe (a b : number) : bool := numLe b a.

Definition isNaN (a : number) : bool :=
  match a with
  | NInt _ => false
  | NFloat f => is_nan f
  end.

(** [Math.floor] *)
Definition numFloor (a : number) : number :=
  match a with
  | NInt z => NInt z
  | NFloat f =>
      match Prim2SF f with
      | S754_finite s m e =>
          if 0 <=? e then a
          else ofZ (Z.shiftr (if s then Z.neg m else Z.pos m) (- e))
      | _ => a
      end
  end.

(** The property key an index denotes: [obj[n]] reads the own property
    named [String(n)], which exists only for an integral [n]. *)
Definition asIndex (n : number) : option Z :=
  match n with
  | NInt z => Some z
  | NFloat f =>
      match Prim2SF f with
      | S754_zero _ => Some 0
      | _ => integralValue f
      end
  end.

(** [ToIntegerOrInfinity], as [Array.prototype.splice] applies it to its
    start argument ([None] for an infinity). *)
Definition toInteger (n : number) : option Z :=
  match n with
  | NInt z => Some z
  | NFloat f =>
      match Prim2SF f with
      | S754_zero _ | S754_nan => Some 0
      | S754_infinity _ => None
      | S754_finite s m e =>
          let a := if 0 <=? e then Z.pos m * 2 ^ e else Z.shiftr (Z.pos m) (- e) in
          Some (if s then - a else a)
      end
  end.

(** *** Decimal text of integers *)

Definition intToString (z : Z) : string :=
  (if z <? 0 then "-" else "") +:+ NilEmpty.string_of_uint (N.to_uint (Z.abs_N z)).

(** The first of the candidates [(d, n)] for which [d * 10 ^ (n - 1)]
    rounds to [f]. *)
Fixpoint oneDigitMantissa (f : float) (candidates : list (Z * Z)) : option (Z * Z) :=
  match candidates with
  | [] => None
  | (d, n) :: rest =>
      if (floatOfZ (d * 10 ^ (n - 1)) =? f)%float then Some (d, n)
      else oneDigitMantissa f rest
  end.

(** [String(x)] for a positive integral double [x] from [10 ^ 21] on, when
    one digit is enough to name it: the digit, ["e+"], and the exponent.
    [z] is the integer that [x] denotes; with [n] its number of digits,
    the one digit is followed by [n - 1] zeros, or it is a 1 followed by
    [n] zeros. *)
Definition exponentNotation (f : float) (z : Z) : option string :=
  let n := Z.of_nat (String.length (NilEmpty.string_of_uint (N.to_uint (Z.to_N z)))) in
  if 10 ^ 21 <=? z then
    match oneDigitMantissa f
            (map (fun d => (d, n)) [1; 2; 3; 4; 5; 6; 7; 8; 9] ++ [(1, n + 1)]) with
    | Some (d, n') =>
        Some (NilEmpty.string_of_uint (N.to_uint (Z.to_N d)) +:+ "e+"
              +:+ NilEmpty.string_of_uint (N.to_uint (Z.to_N (n' - 1))))
    | None => None
    end
  else None.

(** [String(n)].  A safe integer prints as its decimal digits.  Of the
    other finite doubles only the one-digit powers of ten from [10 ^ 21]
    on are printed here; the rest is the host's shortest-round-trip
    algorithm ([None]). *)
Definition numberToString (n : number) : option string :=
  match n with
  | NInt z => Some (intToString z)
  | NFloat f =>
      match Prim2SF f with
      | S754_zero _ => Some "0"
      | S754_nan => Some "NaN"
      | S754_infinity false => Some "Infinity"
      | S754_infinity true => Some "-Infinity"
      | S754_finite sign _ _ =>
          match normalise f, integralValue f with
          | NInt z, _ => Some (intToString z)
          | NFloat _, Some z =>
              if sign then
                match exponentNotation (- f)%float (- z) with
                | Some text => Some ("-" +:+ text)
                | None => None
                end
              else exponentNotation f z
          | NFloat _, None => None
          end
      end
  end.

Definition digitOf (c : ascii) : option (Decimal.uint -> Decimal.uint) :=
  if Ascii.eqb c "0" then Some Decimal.D0 else
  if Ascii.eqb c "1" then Some Decimal.D1 else
  if Ascii.eqb c "2" then Some Decimal.D2 else
  if Ascii.eqb c "3" then Some Decimal.D3 else
  if Ascii.eqb c "4" then Some Decimal.D4 else
  if Ascii.eqb c "5" then Some Decimal.D5 else
  if Ascii.eqb c "6" then Some Decimal.D6 else
  if Ascii.eqb c "7" then Some Decimal.D7 else
  if Ascii.eqb c "8" then Some Decimal.D8 else
  if Ascii.eqb c "9" then Some Decimal.D9 else None.

(** The longest prefix of decimal digits, and what follows it. *)
Fixpoint readDigits (s : string) : Decimal.uint * string :=
  match s with
  | String c rest =>
      match digitOf c with
      | Some d => let '(u, r) := readDigits rest in (d u, r)
      | None => (Decimal.Nil, s)
      end
  | EmptyString => (Decimal.Nil, s)
  end.

(** An optional sign, then the digits: [(negative, digits, rest)]. *)
Definition readSigned (s : string) : bool * Decimal.uint * string :=
  match s with
  | String "-" rest => let '(u, r) := readDigits rest in (true, u, r)
  | String "+" rest => let '(u, r) := readDigits rest in (false, u, r)
  | _ => let '(u, r) := readDigits s in (false, u, r)
  end.

Definition signedValue (neg : bool) (u : Decimal.uint) : number :=
  let m := Z.of_N (N.of_uint u) in
  if neg then (if m =? 0 then negZero else ofZ (- m)) else ofZ m.

(** [parseInt(s, 10)]: leading white space, an optional sign, the longest
    run of digits; [NaN] when there is no digit. *)
Definition parseInt (s : string) : number :=
  let '(neg, u, _) := readSigned (dropWhile isSpace s) in
  match u with
  | Decimal.Nil => NaN
  | _ => signedValue neg u
  end.

(** A decimal literal [i.f] as the lexer produces it ([parseFloat] of the
    token text).  Both the digits and the power of ten must be exact
    doubles for one correctly rounded division to give the result; longer
    literals are left to the host ([None]). *)
Definition decimalToNumber (i f : Decimal.uint) : option number :=
  let k := Z.of_nat (Decimal.nb_digits f) in
  let m := Z.of_N (N.of_uint (Decimal.app i f)) in
  if isSafe m && (k <=? 22)
  then Some (normalise (floatOfZ m / floatOfZ (10 ^ k))%float)
  else None.

Definition parseFloatLiteral (s : string) : option number :=
  let '(i, r) := readDigits s in
  match r with
  | String "." r' =>
      let '(f, r'') := readDigits r' in
      match r'' with
      | EmptyString => decimalToNumber i f
      | _ => None
      end
  | EmptyString => Some (ofZ (Z.of_N (N.of_uint i)))
  | _ => None
  end.

(** [Number(s)] for a string: trimmed empty text is 0, a signed decimal
    integer is its value, and text that cannot start a numeric literal is
    [NaN]; the remaining numeric syntax (fractions, exponents, radix
    prefixes, infinities) is left to the host ([None]). *)
Definition stringToNumber (s : string) : option number :=
  let t := dropWhile isSpace s in
  let '(neg, u, r) := readSigned t in
  match t with
  | EmptyString => Some (NInt 0)
  | _ =>
      match u, r with
      | Decimal.Nil, _ =>
          if existsChar isDigit t || includes t "Infinity" then None else Some NaN
      | _, EmptyString => Some (signedValue neg u)
      | _, String c _ =>
          if isSpace c then
            match dropWhile isSpace r with
            | EmptyString => Some (signedValue neg u)
            | _ => Some NaN
            end
          else if existsChar (Ascii.eqb c) ".eExXoObB" then None
          else Some NaN
      end
  end.

(** ** Outcomes

    A computation over a state [S] returns a value and the next state
    ([Done]), throws ([Throw], with the state at the throw), reaches
    behaviour that only the JavaScript host defines ([HostDefined]), or
    exhausts the recursion budget of its Rocq definition ([OutOfFuel]). *)

Inductive outcome (S E A : Type) :=
| Done (a : A) (s : S)
| Throw (e : E) (s : S)
| HostDefined (what : string) (s : S)
| OutOfFuel.

Arguments Done {S E A} a s.
Arguments Throw {S E A} e s.
Arguments HostDefined {S E A} what s.
Arguments OutOfFuel {S E A}.

Definition M (S E A : Type) : Type := S -> outcome S E A.

Definition ret {S E A} (a : A) : M S E A := fun s => Done a s.

Definition bind {S E A B} (m : M S E A) (k : A -> M S E B) : M S E B :=
  fun s =>
    match m s with
    | Done a s' => k a s'
    | Throw e s' => Throw e s'
    | HostDefined w s' => HostDefined w s'
    | OutOfFuel => OutOfFuel
    end.

Definition throw {S E A} (e : E) : M S E A := fun s => Throw e s.
Definition hostDefined {S E A} (what : string) : M S E A := fun s => HostDefined what s.
Definition outOfFuel {S E A} : M S E A := fun _ => OutOfFuel.
Definition getState {S E} : M S E S := fun s => Done s s.
Definition putState {S E} (s : S) : M S E unit := fun _ => Done tt s.

Notation "x <- m ;; k" := (bind m (fun x => k))
  (at level 100, m at next level, right associativity).
Notation "m ;;; k" := (bind m (fun _ => k))
  (at level 100, right associativity).

(** ** The call stack

    The parser and [stringify] recurse on the call stack of the host, and
    recursion nested too deep throws the host's [RangeError], at a depth
    that is the host's.  The model takes [stackDepth] nested calls to fit
    the stack of every host, and leaves what happens deeper to the host
    ([HostDefined]). *)
Definition stackDepth : nat := 512.

(** ** Tokens ([src/tokens.ts]) *)

Module Tokens.

Inductive TokenType :=
| VOID_APP | VOID_END | VOID_FUNC | VOID_IMPORT | USING | STYLE | MAIN
| CREATE | ECHO | WRITE | IF | ELSE | WHILE | FOR | RAND | ADD | DELETE | CLEAR
| TYPE_STRING | TYPE_INT | TYPE_FLOAT | TYPE_BOOL | TYPE_VOID | TYPE_LIST
| TYPE_DICT
| STRING_LITERAL | INT_LITERAL | FLOAT_LITERAL | BOOL_LITERAL
| IDENTIFIER
| ASSIGN | PLUS | MINUS | MULTIPLY | DIVIDE | MODULO | POWER
| EQUALS | NOT_EQUALS | LESS | GREATER | LESS_EQ | GREATER_EQ
| AND | OR | NOT
| LPAREN | RPAREN | LBRACE | RBRACE | LBRACKET | RBRACKET
| SEMICOLON | DOT | COMMA | COLON
| EOF | NEWLINE.

#[global] Instance TokenType_eq_dec : EqDecision TokenType.
Proof. solve_decision. Defined.

Record Token := createToken {
  type : TokenType;
  value : string;
  line : nat;
  column : nat
}.

End Tokens.

(** ** Lexer ([src/lexer.ts]) *)

Module Lexer.
Import Tokens.

(** [this.keywords] *)
Definition keywords : list (string * TokenType) :=
  [ ("using", USING); ("style", STYLE); ("main", MAIN); ("echo", ECHO);
    ("write", WRITE); ("if", IF); ("else", ELSE); ("while", WHILE);
    ("for", FOR); ("string", TYPE_STRING); ("int", TYPE_INT);
    ("float", TYPE_FLOAT); ("bool", TYPE_BOOL); ("true", BOOL_LITERAL);
    ("false", BOOL_LITERAL); ("rand", RAND); ("list", TYPE_LIST);
    ("dict", TYPE_DICT); ("add", ADD); ("delete", DELETE); ("clear", CLEAR) ].

Fixpoint keywordGet (kws : list (string * TokenType)) (v : string) : option TokenType :=
  match kws with
  | [] => None
  | (k, t) :: rest => if String.eqb k v then Some t else keywordGet rest v
  end.

Inductive LexerErrorKind :=
| UnterminatedComment
| UnterminatedString
| UnknownDirective (text : string)
| UnexpectedChar (ch : ascii).

(** [throw new Error("[Lexer Error] ... (строка l, столбец c)")] *)
Inductive LexerError := MkLexerError (kind : LexerErrorKind) (line column : nat).

(** The lexer's cursor: the unread part of [source] (from [pos] on), and
    the current [line] and [column]. *)
Record Cursor := MkCursor {
  rest : string;
  cline : nat;
  ccolumn : nat
}.

(** [source[pos] || "\0"] *)
Definition current (c : Cursor) : ascii :=
  match rest c with
  | String ch _ => ch
  | EmptyString => "000"%char
  end.

(** [source[pos + 1] || "\0"] *)
Definition peek (c : Cursor) : ascii :=
  match rest c with
  | String _ (String ch _) => ch
  | _ => "000"%char
  end.

Definition atEnd (c : Cursor) : bool :=
  match rest c with
  | EmptyString => true
  | _ => false
  end.

Definition advance (c : Cursor) : ascii * Cursor :=
  let ch := current c in
  let r := match rest c with String _ r => r | EmptyString => EmptyString end in
  (ch, if Ascii.eqb ch "010"
       then MkCursor r (S (cline c)) 1
       else MkCursor r (cline c) (S (ccolumn c))).

Definition skip (c : Cursor) : Cursor := snd (advance c).

(** The loops of the lexer each consume one character per turn, so they
    are written by recursion on the unread text. *)
Fixpoint skipWhitespaceFrom (s : string) (l col : nat) : Cursor :=
  match s with
  | String ch r =>
      if Ascii.eqb ch " " || Ascii.eqb ch "009" || Ascii.eqb ch "013"
      then skipWhitespaceFrom r l (S col)
      else if Ascii.eqb ch "010" then skipWhitespaceFrom r (S l) 1
      else MkCursor s l col
  | EmptyString => MkCursor s l col
  end.

Definition skipWhitespace (c : Cursor) : Cursor :=
  skipWhitespaceFrom (rest c) (cline c) (ccolumn c).

Fixpoint skipSingleLineCommentFrom (s : string) (l col : nat) : Cursor :=
  match s with
  | String ch r =>
      if Ascii.eqb ch "010" then MkCursor s l col
      else skipSingleLineCommentFrom r l (S col)
  | EmptyString => MkCursor s l col
  end.

Definition skipSingleLineComment (c : Cursor) : Cursor :=
  skipSingleLineCommentFrom (rest c) (cline c) (ccolumn c).

Fixpoint skipMultiLineCommentFrom (s : string) (l col : nat) : LexerError + Cursor :=
  match s with
  | String ch r =>
      match r with
      | String ch' r' =>
          if Ascii.eqb ch "*" && Ascii.eqb ch' "#"
          then inr (MkCursor r' l (S (S col)))
          else if Ascii.eqb ch "010" then skipMultiLineCommentFrom r (S l) 1
          else skipMultiLineCommentFrom r l (S col)
      | EmptyString =>
          if Ascii.eqb ch "010" then skipMultiLineCommentFrom r (S l) 1
          else skipMultiLineCommentFrom r l (S col)
      end
  | EmptyString => inl (MkLexerError UnterminatedComment l col)
  end.

Definition skipMultiLineComment (c : Cursor) : LexerError + Cursor :=
  let c2 := skip (skip c) in
  skipMultiLineCommentFrom (rest c2) (cline c2) (ccolumn c2).

Definition appendChar (s : string) (ch : ascii) : string := s +:+ String ch EmptyString.

Definition unescape (escaped : ascii) : ascii :=
  if Ascii.eqb escaped "n" then "010"%char
  else if Ascii.eqb escaped "t" then "009"%char
  else if Ascii.eqb escaped "r" then "013"%char
  else escaped.

Fixpoint readStringFrom (quote : ascii) (startLine startCol : nat)
    (s : string) (l col : nat) (value : string) : LexerError + (Token * Cursor) :=
  match s with
  | EmptyString => inl (MkLexerError UnterminatedString startLine startCol)
  | String ch r =>
      if Ascii.eqb ch quote then
        inr (createToken STRING_LITERAL value startLine startCol,
             skip (MkCursor s l col))
      else if Ascii.eqb ch "\" then
        match r with
        | String escaped r' =>
            let c2 := skip (skip (MkCursor s l col)) in
            readStringFrom quote startLine startCol r' (cline c2) (ccolumn c2)
              (appendChar value (unescape escaped))
        | EmptyString => inl (MkLexerError UnterminatedString startLine startCol)
        end
      else
        let c1 := skip (MkCursor s l col) in
        readStringFrom quote startLine startCol r (cline c1) (ccolumn c1)
          (appendChar value ch)
  end.

Definition readString (c : Cursor) : LexerError + (Token * Cursor) :=
  let '(quote, c1) := advance c in
  readStringFrom quote (cline c) (ccolumn c) (rest c1) (cline c1) (ccolumn c1) "".

(** [while (pos < length && p(current())) value += advance()], for a
    class [p] of characters that holds no line feed. *)
Fixpoint takeWhile (p : ascii -> bool) (s : string) (col : nat) (value : string)
    : string * string * nat :=
  match s with
  | String ch r =>
      if p ch then takeWhile p r (S col) (appendChar value ch) else (value, s, col)
  | EmptyString => (value, s, col)
  end.

Definition readNumber (c : Cursor) : Token * Cursor :=
  let '(value, r, col) := takeWhile isDigit (rest c) (ccolumn c) "" in
  let c1 := MkCursor r (cline c) col in
  if Ascii.eqb (current c1) "." && isDigit (peek c1) then
    let c2 := skip c1 in
    let '(value', r', col') :=
      takeWhile isDigit (rest c2) (ccolumn c2) (appendChar value ".") in
    (createToken FLOAT_LITERAL value' (cline c) (ccolumn c),
     MkCursor r' (cline c) col')
  else (createToken INT_LITERAL value (cline c) (ccolumn c), c1).

Definition readIdentifier (c : Cursor) : Token * Cursor :=
  let '(value, r, col) := takeWhile isAlphaNumeric (rest c) (ccolumn c) "" in
  let c1 := MkCursor r (cline c) col in
  if String.eqb value "create" && Ascii.eqb (current c1) ":" then
    (createToken CREATE "create:" (cline c) (ccolumn c), skip c1)
  else
    match keywordGet keywords value with
    | Some keywordType => (createToken keywordType value (cline c) (ccolumn c), c1)
    | None => (createToken IDENTIFIER value (cline c) (ccolumn c), c1)
    end.

Definition readDirective (c : Cursor) : LexerError + (Token * Cursor) :=
  let c0 := skip c in
  let '(value, r, col) := takeWhile isAlphaNumeric (rest c0) (ccolumn c0) "@" in
  let c1 := MkCursor r (cline c0) col in
  if String.eqb value "@VoidApp" then
    inr (createToken VOID_APP value (cline c) (ccolumn c), c1)
  else if String.eqb value "@VoidEnd" then
    inr (createToken VOID_END value (cline c) (ccolumn c), c1)
  else inl (MkLexerError (UnknownDirective value) (cline c) (ccolumn c)).

(** [switch (twoChar)] *)
Definition twoCharOperator (ch nxt : ascii) : option (TokenType * string) :=
  let twoChar := String ch (String nxt EmptyString) in
  if String.eqb twoChar "**" then Some (POWER, "**")
  else if String.eqb twoChar "==" then Some (EQUALS, "==")
  else if String.eqb twoChar "!=" then Some (NOT_EQUALS, "!=")
  else if String.eqb twoChar "<=" then Some (LESS_EQ, "<=")
  else if String.eqb twoChar ">=" then Some (GREATER_EQ, ">=")
  else if String.eqb twoChar "&&" then Some (AND, "&&")
  else if String.eqb twoChar "||" then Some (OR, "||")
  else None.

(** [switch (ch)] *)
Definition oneCharOperator (ch : ascii) : option TokenType :=
  if Ascii.eqb ch "+" then Some PLUS
  else if Ascii.eqb ch "-" then Some MINUS
  else if Ascii.eqb ch "*" then Some MULTIPLY
  else if Ascii.eqb ch "/" then Some DIVIDE
  else if Ascii.eqb ch "%" then Some MODULO
  else if Ascii.eqb ch "=" then Some ASSIGN
  else if Ascii.eqb ch "<" then Some LESS
  else if Ascii.eqb ch ">" then Some GREATER
  else if Ascii.eqb ch "!" then Some NOT
  else if Ascii.eqb ch "(" then Some LPAREN
  else if Ascii.eqb ch ")" then Some RPAREN
  else if Ascii.eqb ch "{" then Some LBRACE
  else if Ascii.eqb ch "}" then Some RBRACE
  else if Ascii.eqb ch "[" then Some LBRACKET
  else if Ascii.eqb ch "]" then Some RBRACKET
  else if Ascii.eqb ch "." then Some DOT
  else if Ascii.eqb ch ";" then Some SEMICOLON
  else if Ascii.eqb ch "," then Some COMMA
  else if Ascii.eqb ch ":" then Some COLON
  else None.

(** One turn of the [while] loop of [tokenize], entered with
    [pos < source.length]: the tokens pushed (none or one) and the cursor
    for the next turn, or the error thrown. *)
Definition tokenizeStep (c0 : Cursor) : LexerError + (list Token * Cursor) :=
  let c := skipWhitespace c0 in
  if atEnd c then inr ([], c)
  else
    let ch := current c in
    let startLine := cline c in
    let startCol := ccolumn c in
    if Ascii.eqb ch "/" && Ascii.eqb (peek c) "/" then
      inr ([], skipSingleLineComment c)
    else if Ascii.eqb ch "#" && Ascii.eqb (peek c) "*" then
      match skipMultiLineComment c with
      | inl e => inl e
      | inr c' => inr ([], c')
      end
    else if Ascii.eqb ch "@" then
      match readDirective c with
      | inl e => inl e
      | inr (t, c') => inr ([t], c')
      end
    else if Ascii.eqb ch "034" || Ascii.eqb ch "'" then
      match readString c with
      | inl e => inl e
      | inr (t, c') => inr ([t], c')
      end
    else if isDigit ch then
      let '(t, c') := readNumber c in inr ([t], c')
    else if isAlpha ch then
      let '(t, c') := readIdentifier c in inr ([t], c')
    else
      match twoCharOperator ch (peek c) with
      | Some (ty, text) =>
          inr ([createToken ty text startLine startCol], skip (skip c))
      | None =>
          match oneCharOperator ch with
          | Some ty =>
              inr ([createToken ty (String ch EmptyString) startLine startCol],
                   skip c)
          | None => inl (MkLexerError (UnexpectedChar ch) (cline c) (ccolumn c))
          end
      end.

(** The loop of [tokenize].  Every turn that does not stop consumes at
    least one character, so the length of the source is fuel enough. *)
Fixpoint tokenizeLoop (fuel : nat) (tokens : list Token) : M Cursor LexerError (list Token) :=
  fun c =>
  if atEnd c then Done (tokens ++ [createToken EOF "" (cline c) (ccolumn c)])%list c
  else
    match fuel with
    | O => OutOfFuel
    | S fuel' =>
        match tokenizeStep c with
        | inl e => Throw e c
        | inr (ts, c') => tokenizeLoop fuel' (tokens ++ ts)%list c'
        end
    end.

Definition tokenize (source : string) : outcome Cursor LexerError (list Token) :=
  tokenizeLoop (String.length source) [] (MkCursor source 1 1).

End Lexer.

#[local] Set Warnings "-register-all".

(** ** Syntax trees ([src/parser.ts])

    One type of nodes, as in the source.  A field of TypeScript type
    [BlockNode] holds the statements of that block. *)

Inductive ASTNode :=
| Main (body : list ASTNode)
| Block (statements : list ASTNode)
| Echo (expressions : list ASTNode)
| Write (prompt : ASTNode)
| CreateVar (varType name : string) (value : ASTNode)
| AssignVar (name : string) (value : ASTNode)
| If (condition : ASTNode) (thenBranch : list ASTNode) (elseBranch : option ASTNode)
| While (condition : ASTNode) (body : list ASTNode)
| For (init : option ASTNode) (condition : ASTNode) (update : option ASTNode)
      (body : list ASTNode)
| BinaryExpr (operator : string) (left right : ASTNode)
| UnaryExpr (operator : string) (operand : ASTNode)
| NumberLiteral (value : number)
| FloatLiteral (value : number)
| StringLiteral (value : string)
| BoolLiteral (value : bool)
| Identifier (name : string)
| FunctionCall (name : string) (args : list ASTNode)
| RandCall (min max : ASTNode)
| ListLiteral (elements : list ASTNode)
| DictLiteral (entries : list (ASTNode * ASTNode))
| IndexAccess (object index : ASTNode)
| MethodCall (object method collectionType : string) (args : list ASTNode).

Record ProgramNode := MkProgram {
  appName : string;
  style : option string;
  body : list ASTNode
}.

(** ** Parser ([src/parser.ts]) *)

Module Parser.
Import Tokens.

Inductive ParseErrorKind :=
| Expected (t : TokenType)
| ExpectedVarType
| ExpectedMethod
| ExpectedCollectionType
| ExpectedSemicolonAfterDeclaration
| UnexpectedTopLevel
| UnexpectedStatement
| UnexpectedAfterIdentifier
| UnexpectedInExpression
| RandArity.

(** [throw new Error("[Parser Error] ... (строка l, столбец c)")] *)
Inductive ParseError := MkParseError (kind : ParseErrorKind) (line column : nat).

(** The parser's state is the list of tokens from [pos] on. *)
Definition P (A : Type) : Type := M (list Token) ParseError A.

Definition eofToken : Token := createToken EOF "" 0 0.

(** [tokens[pos] || EOF] *)
Definition current (ts : list Token) : Token := hd eofToken ts.

Definition advance : P Token := fun ts => Done (current ts) (tl ts).

Definition error {A} (kind : ParseErrorKind) : P A :=
  fun ts => Throw (MkParseError kind (line (current ts)) (column (current ts))) ts.

Definition checkType (t : TokenType) (ts : list Token) : bool :=
  bool_decide (type (current ts) = t).

Definition check (t : TokenType) : P bool := fun ts => Done (checkType t ts) ts.

Definition expect (t : TokenType) : P Token :=
  fun ts => if checkType t ts then advance ts else error (Expected t) ts.

(** [match(...types)] *)
Fixpoint matchAny (types : list TokenType) : P bool :=
  match types with
  | [] => ret false
  | t :: rest =>
      fun ts => if checkType t ts then Done true (tl ts) else matchAny rest ts
  end.

(** [while (check(op1) || ... ) { op = advance().value; right = next();
    left = BinaryExpr(op, left, right) }] *)
Fixpoint binaryLoop (fuel : nat) (ops : list TokenType) (next : P ASTNode)
    (left : ASTNode) : P ASTNode :=
  fun ts =>
  if existsb (fun t => checkType t ts) ops then
    match fuel with
    | O => OutOfFuel
    | S fuel' =>
        (op <- advance ;;
         right <- next ;;
         binaryLoop fuel' ops next (BinaryExpr (value op) left right)) ts
    end
  else Done left ts.

(** [while (match(COMMA)) items.push(next())] *)
Fixpoint commaLoop {A} (fuel : nat) (next : P A) (items : list A) : P (list A) :=
  fun ts =>
  if checkType COMMA ts then
    match fuel with
    | O => OutOfFuel
    | S fuel' =>
        (x <- next ;; commaLoop fuel' next (items ++ [x])%list) (tl ts)
    end
  else Done items ts.

(** [if (!check(close)) { items.push(next()); while (match(COMMA)) ... }] *)
Definition commaSeparated {A} (fuel : nat) (close : TokenType) (next : P A)
    : P (list A) :=
  fun ts =>
  if checkType close ts then Done [] ts
  else (x <- next ;; commaLoop fuel next [x]) ts.

(** [while (check(LBRACKET)) { advance(); index = parseExpression();
    expect(RBRACKET); node = IndexAccess(node, index) }] *)
Fixpoint postfixLoop (fuel : nat) (parseExpression : P ASTNode) (node : ASTNode)
    : P ASTNode :=
  fun ts =>
  if checkType LBRACKET ts then
    match fuel with
    | O => OutOfFuel
    | S fuel' =>
        (advance ;;;
         index <- parseExpression ;;
         expect RBRACKET ;;;
         postfixLoop fuel' parseExpression (IndexAccess node index)) ts
    end
  else Done node ts.

Definition dictEntry (parseExpression : P ASTNode) : P (ASTNode * ASTNode) :=
  key <- parseExpression ;;
  expect COLON ;;;
  valueExpr <- parseExpression ;;
  ret (key, valueExpr).

(** The expression parsers call one another; each call spends one unit of
    [fuel]. *)
Fixpoint parseOr (fuel : nat) : P ASTNode :=
  match fuel with
  | O => outOfFuel
  | S f => left <- parseAnd f ;; binaryLoop f [OR] (parseAnd f) left
  end
with parseAnd (fuel : nat) : P ASTNode :=
  match fuel with
  | O => outOfFuel
  | S f => left <- parseEquality f ;; binaryLoop f [AND] (parseEquality f) left
  end
with parseEquality (fuel : nat) : P ASTNode :=
  match fuel with
  | O => outOfFuel
  | S f =>
      left <- parseComparison f ;;
      binaryLoop f [EQUALS; NOT_EQUALS] (parseComparison f) left
  end
with parseComparison (fuel : nat) : P ASTNode :=
  match fuel with
  | O => outOfFuel
  | S f =>
      left <- parseAddition f ;;
      binaryLoop f [LESS; GREATER; LESS_EQ; GREATER_EQ] (parseAddition f) left
  end
with parseAddition (fuel : nat) : P ASTNode :=
  match fuel with
  | O => outOfFuel
  | S f =>
      left <- parseMultiplication f ;;
      binaryLoop f [PLUS; MINUS] (parseMultiplication f) left
  end
with parseMultiplication (fuel : nat) : P ASTNode :=
  match fuel with
  | O => outOfFuel
  | S f =>
      left <- parsePower f ;;
      binaryLoop f [MULTIPLY; DIVIDE; MODULO] (parsePower f) left
  end
with parsePower (fuel : nat) : P ASTNode :=
  match fuel with
  | O => outOfFuel
  | S f =>
      left <- parseUnary f ;;
      isPower <- check POWER ;;
      if isPower then
        op <- advance ;;
        right <- parsePower f ;;
        ret (BinaryExpr (value op) left right)
      else ret left
  end
with parseUnary (fuel : nat) : P ASTNode :=
  match fuel with
  | O => outOfFuel
  | S f =>
      isMinus <- check MINUS ;;
      if isMinus then
        op <- advance ;;
        operand <- parseUnary f ;;
        ret (UnaryExpr (value op) operand)
      else
        isNot <- check NOT ;;
        if isNot then
          op <- advance ;;
          operand <- parseUnary f ;;
          ret (UnaryExpr (value op) operand)
        else parsePostfix f
  end
with parsePostfix (fuel : nat) : P ASTNode :=
  match fuel with
  | O => outOfFuel
  | S f => node <- parsePrimary f ;; postfixLoop f (parseOr f) node
  end
with parsePrimary (fuel : nat) : P ASTNode :=
  match fuel with
  | O => outOfFuel
  | S f =>
      fun ts =>
      let token := current ts in
      match type token with
      | INT_LITERAL =>
          (advance ;;; ret (NumberLiteral (parseInt (value token)))) ts
      | FLOAT_LITERAL =>
          (advance ;;;
           match parseFloatLiteral (value token) with
           | Some x => ret (FloatLiteral x)
           | None => hostDefined "parseFloat"
           end) ts
      | STRING_LITERAL => (advance ;;; ret (StringLiteral (value token))) ts
      | BOOL_LITERAL =>
          (advance ;;; ret (BoolLiteral (String.eqb (value token) "true"))) ts
      | LBRACKET =>
          (expect LBRACKET ;;;
           elements <- commaSeparated f RBRACKET (parseOr f) ;;
           expect RBRACKET ;;;
           ret (ListLiteral elements)) ts
      | LBRACE =>
          (expect LBRACE ;;;
           entries <- commaSeparated f RBRACE (dictEntry (parseOr f)) ;;
           expect RBRACE ;;;
           ret (DictLiteral entries)) ts
      | IDENTIFIER =>
          (name <- advance ;;
           isCall <- check LPAREN ;;
           if isCall then
             advance ;;;
             args <- commaSeparated f RPAREN (parseOr f) ;;
             expect RPAREN ;;;
             ret (FunctionCall (value name) args)
           else ret (Identifier (value name))) ts
      | WRITE =>
          (expect WRITE ;;;
           expect LPAREN ;;;
           prompt <- parseOr f ;;
           expect RPAREN ;;;
           ret (Write prompt)) ts
      | LPAREN =>
          (advance ;;;
           expr <- parseOr f ;;
           expect RPAREN ;;;
           ret expr) ts
      | RAND =>
          (expect RAND ;;;
           expect LPAREN ;;;
           min <- parseOr f ;;
           expect COMMA ;;;
           max <- parseOr f ;;
           expect RPAREN ;;;
           ret (RandCall min max)) ts
      | _ => error UnexpectedInExpression ts
      end
  end.

Definition parseExpression (fuel : nat) : P ASTNode := parseOr fuel.

(** [echo(expr1, expr2, ...);] *)
Definition parseEcho (fuel : nat) : P ASTNode :=
  expect ECHO ;;;
  expect LPAREN ;;;
  expressions <- commaSeparated fuel RPAREN (parseExpression fuel) ;;
  expect RPAREN ;;;
  expect SEMICOLON ;;;
  ret (Echo expressions).

Definition varTypeOf (t : TokenType) : option string :=
  match t with
  | TYPE_STRING => Some "string"
  | TYPE_INT => Some "int"
  | TYPE_FLOAT => Some "float"
  | TYPE_BOOL => Some "bool"
  | TYPE_LIST => Some "list"
  | TYPE_DICT => Some "dict"
  | _ => None
  end.

(** [create:type name = value;] *)
Definition parseCreateVar (fuel : nat) : P ASTNode :=
  expect CREATE ;;;
  fun ts =>
  match varTypeOf (type (current ts)) with
  | None => error ExpectedVarType ts
  | Some varType =>
      (advance ;;;
       nameToken <- expect IDENTIFIER ;;
       expect ASSIGN ;;;
       valueExpr <- parseExpression fuel ;;
       isSemi <- check SEMICOLON ;;
       if isSemi then advance ;;; ret (CreateVar varType (value nameToken) valueExpr)
       else error ExpectedSemicolonAfterDeclaration) ts
  end.

Definition methodOf (t : TokenType) : option string :=
  match t with
  | ADD => Some "add"
  | DELETE => Some "delete"
  | CLEAR => Some "clear"
  | _ => None
  end.

Definition collectionTypeOf (t : TokenType) : option string :=
  match t with
  | TYPE_LIST => Some "list"
  | TYPE_DICT => Some "dict"
  | _ => None
  end.

(** The arguments of a method call, between the parentheses. *)
Definition parseMethodArgs (fuel : nat) (method collectionType : string)
    : P (list ASTNode) :=
  isClose <- check RPAREN ;;
  if isClose then ret []
  else
    first <- parseExpression fuel ;;
    isColon <- check COLON ;;
    if String.eqb method "add" && String.eqb collectionType "dict" && isColon
    then
      advance ;;;
      second <- parseExpression fuel ;;
      commaLoop fuel (parseExpression fuel) [first; second]
    else commaLoop fuel (parseExpression fuel) [first].

(** An identifier at the start of a statement: method call, assignment,
    indexed assignment or function call. *)
Definition parseIdentifierStatement (fuel : nat) : P ASTNode :=
  name <- advance ;;
  isDot <- check DOT ;;
  if isDot then
    advance ;;;
    fun ts =>
    match methodOf (type (current ts)) with
    | None => error ExpectedMethod ts
    | Some method =>
        (advance ;;;
         expect COLON ;;;
         fun ts' =>
         match collectionTypeOf (type (current ts')) with
         | None => error ExpectedCollectionType ts'
         | Some collectionType =>
             (advance ;;;
              expect LPAREN ;;;
              args <- parseMethodArgs fuel method collectionType ;;
              expect RPAREN ;;;
              expect SEMICOLON ;;;
              ret (MethodCall (value name) method collectionType args)) ts'
         end) ts
    end
  else
    isAssign <- check ASSIGN ;;
    if isAssign then
      advance ;;;
      valueExpr <- parseExpression fuel ;;
      expect SEMICOLON ;;;
      ret (AssignVar (value name) valueExpr)
    else
      isBracket <- check LBRACKET ;;
      if isBracket then
        advance ;;;
        index <- parseExpression fuel ;;
        expect RBRACKET ;;;
        expect ASSIGN ;;;
        valueExpr <- parseExpression fuel ;;
        expect SEMICOLON ;;;
        ret (AssignVar (value name +:+ "[]") valueExpr)
      else
        isParen <- check LPAREN ;;
        if isParen then
          advance ;;;
          args <- commaSeparated fuel RPAREN (parseExpression fuel) ;;
          expect RPAREN ;;;
          expect SEMICOLON ;;;
          if String.eqb (value name) "rand" then
            match args with
            | [min; max] => ret (RandCall min max)
            | _ => error RandArity
            end
          else ret (FunctionCall (value name) args)
        else error UnexpectedAfterIdentifier.

(** [while (!check(RBRACE) && !check(EOF)) statements.push(parseStatement())] *)
Fixpoint blockLoop (fuel : nat) (parseStatement : P ASTNode)
    (statements : list ASTNode) : P (list ASTNode) :=
  fun ts =>
  if negb (checkType RBRACE ts) && negb (checkType EOF ts) then
    match fuel with
    | O => OutOfFuel
    | S fuel' =>
        (stmt <- parseStatement ;;
         blockLoop fuel' parseStatement (statements ++ [stmt])%list) ts
    end
  else Done statements ts.

(** [name = expr], as the header of [for] reads it. *)
Definition parseForAssign (fuel : nat) : P ASTNode :=
  name <- expect IDENTIFIER ;;
  expect ASSIGN ;;;
  valueExpr <- parseExpression fuel ;;
  ret (AssignVar (value name) valueExpr).

Fixpoint parseStatement (fuel : nat) : P ASTNode :=
  match fuel with
  | O => outOfFuel
  | S f =>
      fun ts =>
      match type (current ts) with
      | ECHO => parseEcho f ts
      | CREATE => parseCreateVar f ts
      | IDENTIFIER => parseIdentifierStatement f ts
      | IF => parseIf f ts
      | WHILE => parseWhile f ts
      | FOR => parseFor f ts
      | _ => error UnexpectedStatement ts
      end
  end
with parseBlock (fuel : nat) : P (list ASTNode) :=
  match fuel with
  | O => outOfFuel
  | S f =>
      expect LBRACE ;;;
      statements <- blockLoop f (parseStatement f) [] ;;
      expect RBRACE ;;;
      ret statements
  end
with parseIf (fuel : nat) : P ASTNode :=
  match fuel with
  | O => outOfFuel
  | S f =>
      expect IF ;;;
      expect LPAREN ;;;
      condition <- parseExpression f ;;
      expect RPAREN ;;;
      thenBranch <- parseBlock f ;;
      isElse <- matchAny [ELSE] ;;
      if isElse then
        isIf <- check IF ;;
        if isIf then
          elseBranch <- parseIf f ;;
          ret (If condition thenBranch (Some elseBranch))
        else
          elseBranch <- parseBlock f ;;
          ret (If condition thenBranch (Some (Block elseBranch)))
      else ret (If condition thenBranch None)
  end
with parseWhile (fuel : nat) : P ASTNode :=
  match fuel with
  | O => outOfFuel
  | S f =>
      expect WHILE ;;;
      expect LPAREN ;;;
      condition <- parseExpression f ;;
      expect RPAREN ;;;
      body <- parseBlock f ;;
      ret (While condition body)
  end
with parseFor (fuel : nat) : P ASTNode :=
  match fuel with
  | O => outOfFuel
  | S f =>
      expect FOR ;;;
      expect LPAREN ;;;
      isCreate <- check CREATE ;;
      init <- (if isCreate then x <- parseCreateVar f ;; ret (Some x)
               else
                 isSemi <- check SEMICOLON ;;
                 if isSemi then advance ;;; ret None
                 else x <- parseForAssign f ;; expect SEMICOLON ;;; ret (Some x)) ;;
      isSemi <- check SEMICOLON ;;
      condition <- (if isSemi then ret (BoolLiteral true) else parseExpression f) ;;
      expect SEMICOLON ;;;
      isClose <- check RPAREN ;;
      update <- (if isClose then ret None
                 else x <- parseForAssign f ;; ret (Some x)) ;;
      expect RPAREN ;;;
      body <- parseBlock f ;;
      ret (For init condition update body)
  end.

(** [main() { ... }] *)
Definition parseMain (fuel : nat) : P ASTNode :=
  expect MAIN ;;;
  expect LPAREN ;;;
  expect RPAREN ;;;
  body <- parseBlock fuel ;;
  ret (Main body).

Definition parseTopLevel (fuel : nat) : P ASTNode :=
  isMain <- check MAIN ;;
  if isMain then parseMain fuel else error UnexpectedTopLevel.

(** [while (!check(VOID_END) && !check(EOF)) body.push(parseTopLevel())] *)
Fixpoint topLevelLoop (fuel : nat) (body : list ASTNode) : P (list ASTNode) :=
  fun ts =>
  if negb (checkType VOID_END ts) && negb (checkType EOF ts) then
    match fuel with
    | O => OutOfFuel
    | S fuel' =>
        (node <- parseTopLevel fuel' ;;
         topLevelLoop fuel' (body ++ [node])%list) ts
    end
  else Done body ts.

Definition parseProgram (fuel : nat) : P ProgramNode :=
  expect VOID_APP ;;;
  appNameToken <- expect STRING_LITERAL ;;
  expect SEMICOLON ;;;
  isUsing <- check USING ;;
  style <- (if isUsing then
              advance ;;;
              expect STYLE ;;;
              styleToken <- expect STRING_LITERAL ;;
              expect SEMICOLON ;;;
              ret (Some (value styleToken))
            else ret None) ;;
  body <- topLevelLoop fuel [] ;;
  isEnd <- check VOID_END ;;
  (if isEnd then advance ;;; expect SEMICOLON ;;; ret tt else ret tt) ;;;
  ret (MkProgram (value appNameToken) style body).

(** Every call of a parsing function reads at least one token before it
    calls the same function again, and there are fewer than sixteen
    functions between two reads. *)
Definition parseFuel (tokens : list Token) : nat := 16 * S (List.length tokens).

Definition parse (tokens : list Token) : outcome (list Token) ParseError ProgramNode :=
  parseProgram (parseFuel tokens) tokens.

End Parser.
(** ** Values and the heap ([src/interpreter.ts])

    [VoidValue = string | number | boolean | null | VoidValue[] | VoidDict].
    Arrays and dicts are JavaScript objects: a value holds a reference, the
    heap holds the object, and two references are [===] exactly when they
    are the same reference.  [VUndefined] is what [obj[i]] yields for an
    index that names no element. *)

Inductive VoidValue :=
| VNull
| VUndefined
| VBool (b : bool)
| VNum (n : number)
| VStr (s : string)
| VList (ref : nat)
| VDict (ref : nat).

Inductive HeapObject :=
| ListObject (elements : list VoidValue)
| DictObject (keys values : list VoidValue).

Abbreviation Heap := (list HeapObject).

(** The array behind a list reference and the two arrays behind a dict
    reference.  References are only made by allocation, so they always
    name an object of their kind; the empty default is for totality. *)
Definition elementsOf (h : Heap) (ref : nat) : list VoidValue :=
  match h !! ref with
  | Some (ListObject elements) => elements
  | _ => []
  end.

Definition keysOf (h : Heap) (ref : nat) : list VoidValue :=
  match h !! ref with
  | Some (DictObject keys _) => keys
  | _ => []
  end.

Definition valuesOf (h : Heap) (ref : nat) : list VoidValue :=
  match h !! ref with
  | Some (DictObject _ values) => values
  | _ => []
  end.

Definition alloc (h : Heap) (o : HeapObject) : nat * Heap :=
  (List.length h, (h ++ [o])%list).

(** [interface Variable { type; value }] ([Variable] is a reserved word
    here). *)
Record Binding := MkVariable {
  type : string;
  value : VoidValue
}.

Inductive RuntimeErrorKind :=
| AlreadyDefined (name : string)
| NotDefined (name : string)
| ExpectsList (name : string)
| ExpectsDict (name : string)
| MaxIterationsExceeded
| IndexOutOfBounds
| KeyNotFound
| IndexNotApplicable
| UnknownMethod (method : string)
| NotAList (name : string)
| NotADict (name : string)
| WrongArgumentCount (callee : string)
| CannotAdd
| DivisionByZero
| ModuloByZero
| UnknownOperator (operator : string)
| UnknownUnaryOperator (operator : string)
| UnknownFunction (name : string)
| RandNotNumbers
| RandMinGreaterThanMax
| CannotConvertToInt (name : string)
| CannotConvertToFloat (name : string)
| CannotConvertToNumber.

(** What a run can throw: [new Error("[Runtime Error] ...")] of the
    interpreter, or the host's [RangeError] (call stack exhausted) and
    [TypeError]. *)
Inductive Error :=
| RuntimeError (kind : RuntimeErrorKind)
| RangeError
| TypeError.

(** ** Environment (class [Environment]) *)

Module Environment.

Inductive t :=
| Env (variables : gmap string Binding) (parent : option t).

Definition variables (e : t) : gmap string Binding :=
  match e with Env vs _ => vs end.

Definition parent (e : t) : option t :=
  match e with Env _ p => p end.

(** [new Environment(parent)] *)
Definition new (parent : option t) : t := Env ∅ parent.

Definition define (name type : string) (value : VoidValue) (this : t) : Error + t :=
  match variables this !! name with
  | Some _ => inl (RuntimeError (AlreadyDefined name))
  | None =>
      inr (Env (<[name := MkVariable type value]> (variables this)) (parent this))
  end.

Fixpoint get (name : string) (this : t) : Error + Binding :=
  match this with
  | Env vs p =>
      match vs !! name with
      | Some variable => inr variable
      | None =>
          match p with
          | Some parent => get name parent
          | None => inl (RuntimeError (NotDefined name))
          end
      end
  end.

Fixpoint set (name : string) (value : VoidValue) (this : t) : Error + t :=
  match this with
  | Env vs p =>
      match vs !! name with
      | Some variable =>
          inr (Env (<[name := MkVariable (type variable) value]> vs) p)
      | None =>
          match p with
          | Some parent =>
              match set name value parent with
              | inr parent' => inr (Env vs (Some parent'))
              | inl e => inl e
              end
          | None => inl (RuntimeError (NotDefined name))
          end
      end
  end.

Fixpoint has (name : string) (this : t) : bool :=
  match this with
  | Env vs p =>
      match vs !! name with
      | Some _ => true
      | None =>
          match p with
          | Some parent => has name parent
          | None => false
          end
      end
  end.

End Environment.

(** ** Interpreter (class [Interpreter]) *)

Module Interpreter.

(** *** Pure helpers

    The helpers that read values but change nothing return a [result]. *)

Inductive result (A : Type) :=
| Ok (a : A)
| Fail (e : Error)
| Host (what : string).

Arguments Ok {A} a.
Arguments Fail {A} e.
Arguments Host {A} what.

#[global] Instance result_ret : MRet result := fun _ a => Ok a.
#[global] Instance result_bind : MBind result := fun _ _ k m =>
  match m with
  | Ok a => k a
  | Fail e => Fail e
  | Host w => Host w
  end.

Fixpoint mapResult {A B} (f : A -> result B) (l : list A) : result (list B) :=
  match l with
  | [] => Ok []
  | x :: rest => y ← f x; ys ← mapResult f rest; Ok (y :: ys)
  end.

(** [arr.some(f)]: stops at the first element on which [f] holds. *)
Fixpoint someResult {A} (f : A -> result bool) (l : list A) : result bool :=
  match l with
  | [] => Ok false
  | x :: rest => found ← f x; if (found : bool) then Ok true else someResult f rest
  end.

Inductive JsType := TObject | TUndefined | TBoolean | TNumber | TString.

#[global] Instance JsType_eq_dec : EqDecision JsType.
Proof. solve_decision. Defined.

Definition typeof (v : VoidValue) : JsType :=
  match v with
  | VNull | VList _ | VDict _ => TObject
  | VUndefined => TUndefined
  | VBool _ => TBoolean
  | VNum _ => TNumber
  | VStr _ => TString
  end.

Definition isArray (v : VoidValue) : bool :=
  match v with VList _ => true | _ => false end.

Definition isVoidDict (v : VoidValue) : bool :=
  match v with VDict _ => true | _ => false end.

(** [left === right] *)
Definition strictEquals (left right : VoidValue) : bool :=
  match left, right with
  | VNull, VNull => true
  | VUndefined, VUndefined => true
  | VBool a, VBool b => Bool.eqb a b
  | VNum a, VNum b => numEq a b
  | VStr a, VStr b => String.eqb a b
  | VList a, VList b => Nat.eqb a b
  | VDict a, VDict b => Nat.eqb a b
  | _, _ => false
  end.

(** [String(value)] *)
Definition jsString (value : VoidValue) : result string :=
  match value with
  | VNull => Ok "null"
  | VUndefined => Ok "undefined"
  | VBool b => Ok (if b then "true" else "false")
  | VNum n =>
      match numberToString n with
      | Some s => Ok s
      | None => Host "Number.prototype.toString"
      end
  | VStr s => Ok s
  | VList _ => Host "Array.prototype.toString"
  | VDict _ => Ok "[object Object]"
  end.

(** [stringify] on a call stack that holds [depth] more nested calls.
    Running out of depth is the host's [RangeError]. *)
Fixpoint stringifyDepth (depth : nat) (h : Heap) (value : VoidValue) : result string :=
  match value with
  | VNull => Ok "null"
  | VBool b => Ok (if b then "true" else "false")
  | VList ref =>
      match depth with
      | O => Fail RangeError
      | S d =>
          items ← mapResult (stringifyDepth d h) (elementsOf h ref);
          Ok ("[" +:+ join ", " items +:+ "]")
      end
  | VDict ref =>
      match depth with
      | O => Fail RangeError
      | S d =>
          entries ← mapResult
            (fun '(i, k) =>
               sk ← stringifyDepth d h k;
               sv ← stringifyDepth d h (nth i (valuesOf h ref) VUndefined);
               Ok (sk +:+ ":" +:+ sv))
            (imap (fun i k => (i, k)) (keysOf h ref));
          Ok ("{" +:+ join ", " entries +:+ "}")
      end
  | _ => jsString value
  end.

(** How deep [stringify] recurses on a value: one level for each list or
    dict on the longest chain of elements, keys and values into it. *)
Fixpoint nesting (depth : nat) (h : Heap) (value : VoidValue) : nat :=
  match value with
  | VList ref =>
      match depth with
      | O => O
      | S d => S (foldr Nat.max O (map (nesting d h) (elementsOf h ref)))
      end
  | VDict ref =>
      match depth with
      | O => O
      | S d =>
          S (foldr Nat.max O
               (imap (fun i k =>
                        Nat.max (nesting d h k)
                                (nesting d h (nth i (valuesOf h ref) VUndefined)))
                     (keysOf h ref)))
      end
  | _ => O
  end.

(** [stringify].  A value that holds itself exhausts every stack: it
    exhausts one that holds more levels than the heap has objects, while a
    value without cycles nests at most one level per object.  A value
    that is printed on that stack is printed by the source when it nests
    within [stackDepth]; when it nests deeper the host's stack decides
    between the text and the [RangeError]. *)
Definition stringify (h : Heap) (value : VoidValue) : result string :=
  match stringifyDepth (S (List.length h)) h value with
  | Ok text =>
      if (nesting (S (List.length h)) h value <=? stackDepth)%nat then Ok text
      else Host "call stack"
  | r => r
  end.

(** [toNumber] *)
Definition toNumber (value : VoidValue) : result number :=
  match value with
  | VNum n => Ok n
  | VStr s =>
      match stringToNumber s with
      | Some n =>
          if isNaN n then Fail (RuntimeError CannotConvertToNumber) else Ok n
      | None => Host "Number"
      end
  | VBool b => Ok (NInt (if b then 1 else 0))
  | _ => Ok (NInt 0)
  end.

(** [isTruthy] *)
Definition isTruthy (h : Heap) (value : VoidValue) : bool :=
  match value with
  | VNull => false
  | VBool b => b
  | VNum n => negb (numEq n (NInt 0))
  | VStr s => 0 <? strLength s
  | VList ref => 0 <? Z.of_nat (List.length (elementsOf h ref))
  | VDict ref => 0 <? Z.of_nat (List.length (keysOf h ref))
  | VUndefined => true
  end.

(** [areEqual] *)
Definition areEqual (h : Heap) (left right : VoidValue) : result bool :=
  if bool_decide (typeof left = typeof right) then Ok (strictEquals left right)
  else if (bool_decide (typeof left = TBoolean) || bool_decide (typeof left = TNumber))
          && (bool_decide (typeof right = TBoolean) || bool_decide (typeof right = TNumber))
  then
    l ← toNumber left; r ← toNumber right; Ok (numEq l r)
  else
    l ← stringify h left; r ← stringify h right; Ok (String.eqb l r).

(** [findDictKey]: the first index whose key is equal to [key]
    ([None] for the source's [-1]). *)
Fixpoint findDictKeyFrom (h : Heap) (keys : list VoidValue) (key : VoidValue)
    (i : nat) : result (option nat) :=
  match keys with
  | [] => Ok None
  | k :: rest =>
      found ← areEqual h k key;
      if (found : bool) then Ok (Some i) else findDictKeyFrom h rest key (S i)
  end.

Definition findDictKey (h : Heap) (dict : nat) (key : VoidValue) : result (option nat) :=
  findDictKeyFrom h (keysOf h dict) key 0.

(** [Number(value)] *)
Definition jsNumber (value : VoidValue) : result number :=
  match value with
  | VNull => Ok (NInt 0)
  | VUndefined => Ok NaN
  | VBool b => Ok (NInt (if b then 1 else 0))
  | VNum n => Ok n
  | VStr s =>
      match stringToNumber s with
      | Some n => Ok n
      | None => Host "Number"
      end
  | VList _ => Host "Array.prototype.toString"
  | VDict _ => Ok NaN
  end.

(** [castValue] *)
Definition castValue (h : Heap) (value : VoidValue) (type varName : string)
    : result VoidValue :=
  if String.eqb type "string" then s ← stringify h value; Ok (VStr s)
  else if String.eqb type "int" then
    num ← jsNumber value;
    if isNaN num then Fail (RuntimeError (CannotConvertToInt varName))
    else Ok (VNum (numFloor num))
  else if String.eqb type "float" then
    num ← jsNumber value;
    if isNaN num then Fail (RuntimeError (CannotConvertToFloat varName))
    else Ok (VNum num)
  else if String.eqb type "bool" then Ok (VBool (isTruthy h value))
  else Ok value.

(** [expectArgs] *)
Definition expectArgs (name : string) (args : list VoidValue) (expected : nat)
    : result unit :=
  if Nat.eqb (List.length args) expected then Ok tt
  else Fail (RuntimeError (WrongArgumentCount name)).

(** [x || 0] on a number *)
Definition orZero (n : number) : number :=
  if isNaN n || numEq n (NInt 0) then NInt 0 else n.

(** [obj[resolvedIdx]] on an array *)
Definition arrayAt (elements : list VoidValue) (idx : number) : VoidValue :=
  match asIndex idx with
  | Some z => if z <? 0 then VUndefined else nth (Z.to_nat z) elements VUndefined
  | None => VUndefined
  end.

(** [obj[resolvedIdx]] on a string *)
Definition stringAt (s : string) (idx : number) : VoidValue :=
  match asIndex idx with
  | Some z =>
      if z <? 0 then VUndefined
      else match String.get (Z.to_nat z) s with
           | Some ch => VStr (String ch EmptyString)
           | None => VUndefined
           end
  | None => VUndefined
  end.

(** The index checks shared by [obj[idx]] and [delete:list]: negative
    indices count from the end, and the resolved index must lie in
    [0, len). *)
Definition resolveIndex (idx : number) (len : nat) : result number :=
  let resolvedIdx :=
    if numLt idx (NInt 0) then numAdd (NInt (Z.of_nat len)) idx else idx in
  if numLt resolvedIdx (NInt 0) || numGe resolvedIdx (NInt (Z.of_nat len))
  then Fail (RuntimeError IndexOutOfBounds)
  else Ok resolvedIdx.

(** [arr.splice(start, 1)] *)
Definition splice1 {A} (start : number) (arr : list A) : result (list A) :=
  match toInteger start with
  | Some z =>
      let k := if z <? 0 then Z.max (Z.of_nat (List.length arr) + z) 0 else z in
      Ok (take (Z.to_nat k) arr ++ drop (S (Z.to_nat k)) arr)%list
  | None => Host "Array.prototype.splice"
  end.

(** *** The state of a run *)

Inductive OutputEvent :=
| Log (text : string)
| Question (prompt : string)
| Header (appName : string)
| StyleLine (style : string)
| EmptyLine
| Footer (appName : string).

(** [env] is the environment passed down as the argument [env] of every
    [execute*] method; [heap] holds the arrays and dicts; [stdin] is the
    lines still to be read and [stdout] what was written, oldest first. *)
Record State := MkState {
  env : Environment.t;
  heap : Heap;
  stdin : list string;
  stdout : list OutputEvent
}.

Definition I (A : Type) : Type := M State Error A.

Definition liftResult {A} (r : result A) : I A :=
  fun st =>
    match r with
    | Ok a => Done a st
    | Fail e => Throw e st
    | Host w => HostDefined w st
    end.

Definition liftEnv {A} (r : Error + A) : I A :=
  fun st =>
    match r with
    | inr a => Done a st
    | inl e => Throw e st
    end.

Definition getHeap : I Heap := fun st => Done (heap st) st.
Definition putHeap (h : Heap) : I unit :=
  fun st => Done tt (MkState (env st) h (stdin st) (stdout st)).
Definition getEnv : I Environment.t := fun st => Done (env st) st.
Definition putEnv (e : Environment.t) : I unit :=
  fun st => Done tt (MkState e (heap st) (stdin st) (stdout st)).

(** [console.log(...)] *)
Definition consoleLog (ev : OutputEvent) : I unit :=
  fun st => Done tt (MkState (env st) (heap st) (stdin st) (stdout st ++ [ev])%list).

(** [readlineSync.question(prompt)] *)
Definition question (prompt : string) : I string :=
  fun st =>
    match stdin st with
    | input :: rest =>
        Done input (MkState (env st) (heap st) rest (stdout st ++ [Question prompt])%list)
    | [] => HostDefined "readlineSync.question at end of input" st
    end.

Definition envGet (name : string) : I Binding :=
  e <- getEnv ;; liftEnv (Environment.get name e).

Definition envSet (name : string) (value : VoidValue) : I unit :=
  e <- getEnv ;; e' <- liftEnv (Environment.set name value e) ;; putEnv e'.

Definition envDefine (name type : string) (value : VoidValue) : I unit :=
  e <- getEnv ;; e' <- liftEnv (Environment.define name type value e) ;; putEnv e'.

(** Entering [new Environment(env)], and leaving it for its parent once
    the method that made it returns. *)
Definition pushEnvironment : I unit :=
  e <- getEnv ;; putEnv (Environment.new (Some e)).

Definition popEnvironment : I unit :=
  e <- getEnv ;;
  match Environment.parent e with
  | Some parent => putEnv parent
  | None => ret tt
  end.

Definition allocate (o : HeapObject) : I nat :=
  h <- getHeap ;; let '(ref, h') := alloc h o in putHeap h' ;;; ret ref.

Definition store (ref : nat) (o : HeapObject) : I unit :=
  h <- getHeap ;; putHeap (<[ref := o]> h).

Fixpoint sequence {A} (ms : list (I A)) : I (list A) :=
  match ms with
  | [] => ret []
  | m :: rest => x <- m ;; xs <- sequence rest ;; ret (x :: xs)
  end.

(** *** Statements *)

Fixpoint runStatements (statements : list (I VoidValue)) (result : VoidValue)
    : I VoidValue :=
  match statements with
  | [] => ret result
  | stmt :: rest => r <- stmt ;; runStatements rest r
  end.

(** [executeBlock] *)
Definition executeBlock (statements : list (I VoidValue)) : I VoidValue :=
  pushEnvironment ;;;
  result <- runStatements statements VNull ;;
  popEnvironment ;;;
  ret result.

(** [executeEcho] *)
Definition executeEcho (expressions : list (I VoidValue)) : I VoidValue :=
  values <- sequence expressions ;;
  h <- getHeap ;;
  strs <- liftResult (mapResult (stringify h) values) ;;
  consoleLog (Log (join " " strs)) ;;;
  ret VNull.

(** [executeWrite] *)
Definition executeWrite (prompt : I VoidValue) : I VoidValue :=
  p <- prompt ;;
  h <- getHeap ;;
  text <- liftResult (stringify h p) ;;
  input <- question text ;;
  ret (VStr input).

(** [executeCreateVar] *)
Definition executeCreateVar (varType name : string) (valueExpr : I VoidValue)
    : I VoidValue :=
  v <- valueExpr ;;
  h <- getHeap ;;
  v' <- (if negb (String.eqb varType "list") && negb (String.eqb varType "dict")
         then liftResult (castValue h v varType name)
         else if String.eqb varType "list" && negb (isArray v)
         then liftResult (stringify h v) ;;; throw (RuntimeError (ExpectsList name))
         else if String.eqb varType "dict" && negb (isVoidDict v)
         then liftResult (stringify h v) ;;; throw (RuntimeError (ExpectsDict name))
         else ret v) ;;
  envDefine name varType v' ;;;
  ret v'.

(** [executeAssignVar] *)
Definition executeAssignVar (name : string) (valueExpr : I VoidValue) : I VoidValue :=
  variable <- envGet name ;;
  v <- valueExpr ;;
  h <- getHeap ;;
  v' <- (if negb (String.eqb (type variable) "list")
            && negb (String.eqb (type variable) "dict")
         then liftResult (castValue h v (type variable) name)
         else ret v) ;;
  envSet name v' ;;;
  ret v'.

(** [executeIf]; [elseBranch] is the execution of the [else] part. *)
Definition executeIf (condition : I VoidValue) (thenBranch : list (I VoidValue))
    (elseBranch : option (I VoidValue)) : I VoidValue :=
  c <- condition ;;
  h <- getHeap ;;
  if isTruthy h c then executeBlock thenBranch
  else match elseBranch with
       | Some run => run
       | None => ret VNull
       end.

Definition MAX_ITERATIONS : Z := 1000000.

(** The loop of [executeWhile], with the local [iterations].  Each turn
    spends one unit of [fuel]; the result is the number of times the body
    has run when the condition fails. *)
Fixpoint whileLoop (fuel : nat) (condition body : I VoidValue) (iterations : Z) : I Z :=
  match fuel with
  | O => outOfFuel
  | S fuel' =>
      c <- condition ;;
      h <- getHeap ;;
      if isTruthy h c then
        body ;;;
        let iterations := iterations + 1 in
        if iterations >? MAX_ITERATIONS
        then throw (RuntimeError MaxIterationsExceeded)
        else whileLoop fuel' condition body iterations
      else ret iterations
  end.

(** The throw at [iterations > MAX_ITERATIONS] ends the loop after at most
    [MAX_ITERATIONS + 1] turns. *)
Definition loopFuel : nat := Z.to_nat (MAX_ITERATIONS + 1).

(** [executeWhile] *)
Definition executeWhile (condition : I VoidValue) (body : list (I VoidValue))
    : I VoidValue :=
  whileLoop loopFuel condition (executeBlock body) 0 ;;;
  ret VNull.

(** The loop of [executeFor]. *)
Fixpoint forLoop (fuel : nat) (condition : I VoidValue) (update : option (I VoidValue))
    (body : I VoidValue) (iterations : Z) : I Z :=
  match fuel with
  | O => outOfFuel
  | S fuel' =>
      c <- condition ;;
      h <- getHeap ;;
      if isTruthy h c then
        body ;;;
        (match update with
         | Some run => run ;;; ret tt
         | None => ret tt
         end) ;;;
        let iterations := iterations + 1 in
        if iterations >? MAX_ITERATIONS
        then throw (RuntimeError MaxIterationsExceeded)
        else forLoop fuel' condition update body iterations
      else ret iterations
  end.

(** [executeFor] *)
Definition executeFor (init : option (I VoidValue)) (condition : I VoidValue)
    (update : option (I VoidValue)) (body : list (I VoidValue)) : I VoidValue :=
  pushEnvironment ;;;
  (match init with
   | Some run => run ;;; ret tt
   | None => ret tt
   end) ;;;
  forLoop loopFuel condition update (executeBlock body) 0 ;;;
  popEnvironment ;;;
  ret VNull.

(** *** Lists and dicts *)

(** [executeListLiteral] *)
Definition executeListLiteral (elements : list (I VoidValue)) : I VoidValue :=
  ref <- allocate (ListObject []) ;;
  values <- sequence elements ;;
  store ref (ListObject values) ;;;
  ret (VList ref).

Fixpoint evalEntries (entries : list (I VoidValue * I VoidValue))
    : I (list VoidValue * list VoidValue) :=
  match entries with
  | [] => ret ([], [])
  | (k, v) :: rest =>
      key <- k ;;
      val <- v ;;
      kvs <- evalEntries rest ;;
      ret (key :: fst kvs, val :: snd kvs)
  end.

(** [executeDictLiteral] *)
Definition executeDictLiteral (entries : list (I VoidValue * I VoidValue))
    : I VoidValue :=
  ref <- allocate (DictObject [] []) ;;
  kvs <- evalEntries entries ;;
  store ref (DictObject (fst kvs) (snd kvs)) ;;;
  ret (VDict ref).

(** [executeIndexAccess] *)
Definition executeIndexAccess (object index : I VoidValue) : I VoidValue :=
  obj <- object ;;
  index <- index ;;
  h <- getHeap ;;
  match obj with
  | VList ref =>
      idx <- liftResult (toNumber index) ;;
      resolvedIdx <- liftResult (resolveIndex idx (List.length (elementsOf h ref))) ;;
      ret (arrayAt (elementsOf h ref) resolvedIdx)
  | VDict ref =>
      keyIdx <- liftResult (findDictKey h ref index) ;;
      match keyIdx with
      | None => liftResult (stringify h index) ;;; throw (RuntimeError KeyNotFound)
      | Some i => ret (nth i (valuesOf h ref) VUndefined)
      end
  | VStr s =>
      idx <- liftResult (toNumber index) ;;
      resolvedIdx <- liftResult (resolveIndex idx (String.length s)) ;;
      ret (stringAt s resolvedIdx)
  | _ => throw (RuntimeError IndexNotApplicable)
  end.

(** [executeMethodAdd] *)
Definition executeMethodAdd (object collectionType : string)
    (args : list (I VoidValue)) (variable : Binding) : I VoidValue :=
  if String.eqb collectionType "list" then
    match value variable with
    | VList ref =>
        match args with
        | [arg] =>
            v <- arg ;;
            h <- getHeap ;;
            store ref (ListObject (elementsOf h ref ++ [v])%list) ;;;
            ret VNull
        | _ => throw (RuntimeError (WrongArgumentCount "add:list"))
        end
    | _ => throw (RuntimeError (NotAList object))
    end
  else if String.eqb collectionType "dict" then
    match value variable with
    | VDict dict =>
        match args with
        | [keyArg; valueArg] =>
            key <- keyArg ;;
            v <- valueArg ;;
            h <- getHeap ;;
            existingIdx <- liftResult (findDictKey h dict key) ;;
            match existingIdx with
            | Some i =>
                store dict (DictObject (keysOf h dict) (<[i := v]> (valuesOf h dict)))
            | None =>
                store dict (DictObject (keysOf h dict ++ [key])%list
                                       (valuesOf h dict ++ [v])%list)
            end ;;;
            ret VNull
        | _ => throw (RuntimeError (WrongArgumentCount "add:dict"))
        end
    | _ => throw (RuntimeError (NotADict object))
    end
  else ret VNull.

(** [executeMethodDelete] *)
Definition executeMethodDelete (object collectionType : string)
    (args : list (I VoidValue)) (variable : Binding) : I VoidValue :=
  if String.eqb collectionType "list" then
    match value variable with
    | VList ref =>
        match args with
        | [arg] =>
            a <- arg ;;
            idx <- liftResult (toNumber a) ;;
            h <- getHeap ;;
            let arr := elementsOf h ref in
            resolvedIdx <- liftResult (resolveIndex idx (List.length arr)) ;;
            arr' <- liftResult (splice1 resolvedIdx arr) ;;
            store ref (ListObject arr') ;;;
            ret VNull
        | _ => throw (RuntimeError (WrongArgumentCount "delete:list"))
        end
    | _ => throw (RuntimeError (NotAList object))
    end
  else if String.eqb collectionType "dict" then
    match value variable with
    | VDict dict =>
        match args with
        | [arg] =>
            key <- arg ;;
            h <- getHeap ;;
            keyIdx <- liftResult (findDictKey h dict key) ;;
            match keyIdx with
            | None => liftResult (stringify h key) ;;; throw (RuntimeError KeyNotFound)
            | Some i =>
                store dict (DictObject (delete i (keysOf h dict))
                                       (delete i (valuesOf h dict))) ;;;
                ret VNull
            end
        | _ => throw (RuntimeError (WrongArgumentCount "delete:dict"))
        end
    | _ => throw (RuntimeError (NotADict object))
    end
  else ret VNull.

(** [executeMethodClear] *)
Definition executeMethodClear (object collectionType : string)
    (args : list (I VoidValue)) (variable : Binding) : I VoidValue :=
  if String.eqb collectionType "list" then
    match value variable with
    | VList ref =>
        match args with
        | [] => store ref (ListObject []) ;;; ret VNull
        | _ => throw (RuntimeError (WrongArgumentCount "clear:list"))
        end
    | _ => throw (RuntimeError (NotAList object))
    end
  else if String.eqb collectionType "dict" then
    match value variable with
    | VDict dict =>
        match args with
        | [] => store dict (DictObject [] []) ;;; ret VNull
        | _ => throw (RuntimeError (WrongArgumentCount "clear:dict"))
        end
    | _ => throw (RuntimeError (NotADict object))
    end
  else ret VNull.

(** [executeMethodCall] *)
Definition executeMethodCall (object method collectionType : string)
    (args : list (I VoidValue)) : I VoidValue :=
  variable <- envGet object ;;
  if String.eqb method "add" then executeMethodAdd object collectionType args variable
  else if String.eqb method "delete"
  then executeMethodDelete object collectionType args variable
  else if String.eqb method "clear"
  then executeMethodClear object collectionType args variable
  else throw (RuntimeError (UnknownMethod method)).

(** *** Expressions *)

(** The [switch (node.operator)] of [executeBinaryExpr], on the values of
    the two operands. *)
Definition binaryOperation (operator : string) (h : Heap) (left right : VoidValue)
    : I VoidValue :=
  if String.eqb operator "+" then
    if bool_decide (typeof left = TString) || bool_decide (typeof right = TString)
    then
      l <- liftResult (stringify h left) ;;
      r <- liftResult (stringify h right) ;;
      ret (VStr (l +:+ r))
    else
      match left, right with
      | VNum a, VNum b => ret (VNum (numAdd a b))
      | VList a, VList b =>
          ref <- allocate (ListObject (elementsOf h a ++ elementsOf h b)%list) ;;
          ret (VList ref)
      | _, _ => throw (RuntimeError CannotAdd)
      end
  else if String.eqb operator "-" then
    l <- liftResult (toNumber left) ;;
    r <- liftResult (toNumber right) ;;
    ret (VNum (numSub l r))
  else if String.eqb operator "*" then
    l <- liftResult (toNumber left) ;;
    r <- liftResult (toNumber right) ;;
    ret (VNum (numMul l r))
  else if String.eqb operator "/" then
    divisor <- liftResult (toNumber right) ;;
    if numEq divisor (NInt 0) then throw (RuntimeError DivisionByZero)
    else
      l <- liftResult (toNumber left) ;;
      ret (VNum (numDiv l divisor))
  else if String.eqb operator "%" then
    modulus <- liftResult (toNumber right) ;;
    if numEq modulus (NInt 0) then throw (RuntimeError ModuloByZero)
    else
      l <- liftResult (toNumber left) ;;
      match numRem l modulus with
      | Some n => ret (VNum n)
      | None => hostDefined "% on doubles"
      end
  else if String.eqb operator "**" then
    l <- liftResult (toNumber left) ;;
    r <- liftResult (toNumber right) ;;
    match numPow l r with
    | Some n => ret (VNum n)
    | None => hostDefined "Math.pow"
    end
  else if String.eqb operator "==" then
    b <- liftResult (areEqual h left right) ;; ret (VBool b)
  else if String.eqb operator "!=" then
    b <- liftResult (areEqual h left right) ;; ret (VBool (negb b))
  else if String.eqb operator "<" then
    l <- liftResult (toNumber left) ;;
    r <- liftResult (toNumber right) ;;
    ret (VBool (numLt l r))
  else if String.eqb operator ">" then
    l <- liftResult (toNumber left) ;;
    r <- liftResult (toNumber right) ;;
    ret (VBool (numGt l r))
  else if String.eqb operator "<=" then
    l <- liftResult (toNumber left) ;;
    r <- liftResult (toNumber right) ;;
    ret (VBool (numLe l r))
  else if String.eqb operator ">=" then
    l <- liftResult (toNumber left) ;;
    r <- liftResult (toNumber right) ;;
    ret (VBool (numGe l r))
  else if String.eqb operator "&&" then
    ret (VBool (isTruthy h left && isTruthy h right))
  else if String.eqb operator "||" then
    ret (VBool (isTruthy h left || isTruthy h right))
  else throw (RuntimeError (UnknownOperator operator)).

(** [executeBinaryExpr] *)
Definition executeBinaryExpr (operator : string) (left right : I VoidValue)
    : I VoidValue :=
  l <- left ;;
  r <- right ;;
  h <- getHeap ;;
  binaryOperation operator h l r.

(** [executeUnaryExpr] *)
Definition executeUnaryExpr (operator : string) (operand : I VoidValue) : I VoidValue :=
  v <- operand ;;
  h <- getHeap ;;
  if String.eqb operator "-" then
    n <- liftResult (toNumber v) ;; ret (VNum (numNeg n))
  else if String.eqb operator "!" then ret (VBool (negb (isTruthy h v)))
  else throw (RuntimeError (UnknownUnaryOperator operator)).

(** [executeIdentifier] *)
Definition executeIdentifier (name : string) : I VoidValue :=
  variable <- envGet name ;; ret (value variable).

(** A numeric builtin on one argument: the arity check and the coercion
    are the interpreter's, the function is the host's [Math]. *)
Definition mathBuiltin1 (name : string) (args : list VoidValue)
    (f : number -> option number) : result VoidValue :=
  expectArgs name args 1;;
  x ← toNumber (nth 0 args VUndefined);
  match f x with
  | Some y => Ok (VNum y)
  | None => Host ("Math." +:+ name)
  end.

Definition mathBuiltin2 (name : string) (args : list VoidValue)
    (f : number -> number -> option number) : result VoidValue :=
  expectArgs name args 2;;
  x ← toNumber (nth 0 args VUndefined);
  y ← toNumber (nth 1 args VUndefined);
  match f x y with
  | Some z => Ok (VNum z)
  | None => Host ("Math." +:+ name)
  end.

Definition onIntegers1 (f : Z -> Z) (x : number) : option number :=
  match x with
  | NInt z => Some (ofZ (f z))
  | NFloat _ => None
  end.

Definition onIntegers2 (f : Z -> Z -> Z) (x y : number) : option number :=
  match x, y with
  | NInt a, NInt b => Some (ofZ (f a b))
  | _, _ => None
  end.

(** The [switch (node.name)] of [executeFunctionCall], on the values of
    the arguments. *)
Definition callBuiltin (name : string) (h : Heap) (args : list VoidValue)
    : result VoidValue :=
  let arg0 := nth 0 args VUndefined in
  let arg1 := nth 1 args VUndefined in
  if String.eqb name "abs" then mathBuiltin1 name args (onIntegers1 Z.abs)
  else if String.eqb name "sqrt" then mathBuiltin1 name args (fun _ => None)
  else if String.eqb name "floor" then mathBuiltin1 name args (fun x => Some (numFloor x))
  else if String.eqb name "ceil" then mathBuiltin1 name args (onIntegers1 id)
  else if String.eqb name "round" then mathBuiltin1 name args (onIntegers1 id)
  else if String.eqb name "min" then mathBuiltin2 name args (onIntegers2 Z.min)
  else if String.eqb name "max" then mathBuiltin2 name args (onIntegers2 Z.max)
  else if String.eqb name "random" then Host "Math.random"
  else if String.eqb name "toInt" then
    expectArgs name args 1;;
    text ← jsString arg0;
    Ok (VNum (orZero (parseInt text)))
  else if String.eqb name "toFloat" then
    expectArgs name args 1;;
    Host "parseFloat"
  else if String.eqb name "toString" then
    expectArgs name args 1;;
    text ← stringify h arg0;
    Ok (VStr text)
  else if String.eqb name "toBool" then
    expectArgs name args 1;;
    Ok (VBool (isTruthy h arg0))
  else if String.eqb name "length" then
    expectArgs name args 1;;
    match arg0 with
    | VList ref => Ok (VNum (NInt (Z.of_nat (List.length (elementsOf h ref)))))
    | VDict ref => Ok (VNum (NInt (Z.of_nat (List.length (keysOf h ref)))))
    | _ => text ← jsString arg0; Ok (VNum (NInt (strLength text)))
    end
  else if String.eqb name "upper" then
    expectArgs name args 1;; Host "String.prototype.toUpperCase"
  else if String.eqb name "lower" then
    expectArgs name args 1;; Host "String.prototype.toLowerCase"
  else if String.eqb name "trim" then
    expectArgs name args 1;; Host "String.prototype.trim"
  else if String.eqb name "contains" then
    expectArgs name args 2;;
    match arg0 with
    | VList ref =>
        found ← someResult (fun item => areEqual h item arg1) (elementsOf h ref);
        Ok (VBool found)
    | _ =>
        text ← jsString arg0;
        needle ← jsString arg1;
        Ok (VBool (includes text needle))
    end
  else Fail (RuntimeError (UnknownFunction name)).

(** [executeFunctionCall] *)
Definition executeFunctionCall (name : string) (args : list (I VoidValue))
    : I VoidValue :=
  values <- sequence args ;;
  h <- getHeap ;;
  liftResult (callBuiltin name h values).

(** [executeRandCall]: the checks are the interpreter's, the draw is the
    host's [Math.random]. *)
Definition executeRandCall (min max : I VoidValue) : I VoidValue :=
  lo <- min ;;
  lo <- liftResult (toNumber lo) ;;
  hi <- max ;;
  hi <- liftResult (toNumber hi) ;;
  if isNaN lo || isNaN hi then throw (RuntimeError RandNotNumbers)
  else if numGt lo hi then throw (RuntimeError RandMinGreaterThanMax)
  else hostDefined "Math.random".

(** *** The tree walk *)

(** [executeNode].  Every method above takes the executions of the
    sub-nodes it may run, in the place of the sub-nodes themselves. *)
Fixpoint executeNode (node : ASTNode) : I VoidValue :=
  match node with
  | Main body => executeBlock (map executeNode body)
  | Block statements => executeBlock (map executeNode statements)
  | Echo expressions => executeEcho (map executeNode expressions)
  | Write prompt => executeWrite (executeNode prompt)
  | CreateVar varType name valueExpr =>
      executeCreateVar varType name (executeNode valueExpr)
  | AssignVar name valueExpr => executeAssignVar name (executeNode valueExpr)
  | If condition thenBranch elseBranch =>
      executeIf (executeNode condition) (map executeNode thenBranch)
        match elseBranch with
        | None => None
        | Some (If _ _ _ as elseIf) => Some (executeNode elseIf)
        | Some (Block statements) => Some (executeBlock (map executeNode statements))
        | Some _ => Some (throw TypeError)
        end
  | While condition body =>
      executeWhile (executeNode condition) (map executeNode body)
  | For init condition update body =>
      executeFor
        match init with Some n => Some (executeNode n) | None => None end
        (executeNode condition)
        match update with Some n => Some (executeNode n) | None => None end
        (map executeNode body)
  | BinaryExpr operator leftExpr rightExpr =>
      executeBinaryExpr operator (executeNode leftExpr) (executeNode rightExpr)
  | UnaryExpr operator operand => executeUnaryExpr operator (executeNode operand)
  | NumberLiteral n => ret (VNum n)
  | FloatLiteral n => ret (VNum n)
  | StringLiteral s => ret (VStr s)
  | BoolLiteral b => ret (VBool b)
  | Identifier name => executeIdentifier name
  | FunctionCall name args => executeFunctionCall name (map executeNode args)
  | RandCall min max => executeRandCall (executeNode min) (executeNode max)
  | ListLiteral elements => executeListLiteral (map executeNode elements)
  | DictLiteral entries =>
      executeDictLiteral (map (fun kv => (executeNode (fst kv), executeNode (snd kv))) entries)
  | IndexAccess object index =>
      executeIndexAccess (executeNode object) (executeNode index)
  | MethodCall object method collectionType args =>
      executeMethodCall object method collectionType (map executeNode args)
  end.

(** [execute] *)
Definition execute (program : ProgramNode) : I unit :=
  consoleLog (Header (appName program)) ;;;
  (match style program with
   | Some s => if String.eqb s "" then ret tt else consoleLog (StyleLine s)
   | None => ret tt
   end) ;;;
  consoleLog EmptyLine ;;;
  runStatements (map executeNode (body program)) VNull ;;;
  consoleLog EmptyLine ;;;
  consoleLog (Footer (appName program)).

(** [new Interpreter()], started on the given input lines. *)
Definition initialState (input : list string) : State :=
  MkState (Environment.new None) [] input [].

End Interpreter.

(** ** The driver: lexer, parser, interpreter

    The [try] block of [runFile]: tokenize the source, parse the tokens,
    execute the program on a new interpreter.  The source is the text that
    is left once the driver has cut it after the end marker. *)

Inductive RunOutcome :=
| Finished (output : list Interpreter.OutputEvent)
| LexerFailed (e : Lexer.LexerError)
| ParserFailed (e : Parser.ParseError)
| Failed (e : Error) (output : list Interpreter.OutputEvent)
| Unmodelled (what : string).

Definition runSource (source : string) (input : list string) : RunOutcome :=
  match Lexer.tokenize source with
  | Throw e _ => LexerFailed e
  | HostDefined w _ => Unmodelled w
  | OutOfFuel => Unmodelled "fuel"
  | Done tokens _ =>
      match Parser.parse tokens with
      | Throw e _ => ParserFailed e
      | HostDefined w _ => Unmodelled w
      | OutOfFuel => Unmodelled "fuel"
      | Done program _ =>
          match Interpreter.execute program (Interpreter.initialState input) with
          | Done _ st => Finished (Interpreter.stdout st)
          | Throw e st => Failed e (Interpreter.stdout st)
          | HostDefined w _ => Unmodelled w
          | OutOfFuel => Unmodelled "fuel"
          end
      end
  end.

(** * Vocabulary of the theorems *)

Import Interpreter.

Definition indexedAssignmentProgram : string :=
  "@VoidApp 'T'; main(){ create:list L = [1,2,3]; L[0] = 5; echo(L[0] == 5); } @VoidEnd;".

Definition duplicateKeyProgram : string :=
  "@VoidApp 'T'; main(){ create:dict D = {'a':1, 'a':2}; D.add:dict('b':3); echo(length(D)); echo(D); echo(D['a']); } @VoidEnd;".

Definition precedenceProgram : string :=
  "@VoidApp 'T'; main(){ echo(1 + 2 * 3); echo(2 ** 3 ** 2); echo((1+2)*3); } @VoidEnd;".

Definition tokensOf (source : string) : list Tokens.Token :=
  match Lexer.tokenize source with
  | Done tokens _ => tokens
  | _ => []
  end.

Definition parsedExpression (source : string) : option ASTNode :=
  match Parser.parseExpression (Parser.parseFuel (tokensOf source)) (tokensOf source) with
  | Done e _ => Some e
  | _ => None
  end.

Definition lit (z : Z) : ASTNode := NumberLiteral (NInt z).

(** A token of the given kind and text; its position plays no part in
    parsing. *)
Definition tk (ty : Tokens.TokenType) (text : string) : Tokens.Token :=
  Tokens.createToken ty text 1 1.

Definition intToken (text : string) : Tokens.Token := tk Tokens.INT_LITERAL text.

Definition intNode (text : string) : ASTNode := NumberLiteral (parseInt text).

(** What [&&] and [||] do with the executions of their operands: [l] runs,
    then [r] runs from where [l] ended, whatever [l] gave, and the result
    is [combine] of the truthiness of both values. *)
Definition logicalOutcome (combine : bool -> bool -> bool) (l r : I VoidValue)
    (st : State) : outcome State Error VoidValue :=
  match l st with
  | Done vl s1 =>
      match r s1 with
      | Done vr s2 =>
          Done (VBool (combine (isTruthy (heap s2) vl) (isTruthy (heap s2) vr))) s2
      | Throw e s => Throw e s
      | HostDefined w s => HostDefined w s
      | OutOfFuel => OutOfFuel
      end
  | Throw e s => Throw e s
  | HostDefined w s => HostDefined w s
  | OutOfFuel => OutOfFuel
  end.

Definition isNullListOrDict (v : VoidValue) : Prop :=
  match v with
  | VNull | VList _ | VDict _ => True
  | _ => False
  end.

Definition numericOperators : list string :=
  ["-"; "*"; "/"; "%"; "**"; "<"; ">"; "<="; ">="].

(** The scopes of an environment, innermost first. *)
Fixpoint scopes (e : Environment.t) : list (gmap string Binding) :=
  match e with
  | Environment.Env vs p =>
      vs :: match p with
            | Some q => scopes q
            | None => []
            end
  end.

(** The nearest scope that binds [name], with the binding it holds. *)
Fixpoint nearest (name : string) (l : list (gmap string Binding)) : option (nat * Binding) :=
  match l with
  | [] => None
  | vs :: rest =>
      match vs !! name with
      | Some b => Some (O, b)
      | None =>
          match nearest name rest with
          | Some (i, b) => Some (S i, b)
          | None => None
          end
      end
  end.

Definition withHeap (st : State) (h : Heap) : State :=
  MkState (env st) h (stdin st) (stdout st).

Definition dictState : State :=
  MkState (Environment.Env {[ "D" := MkVariable "dict" (VDict 0) ]} None)
          [DictObject [VStr "a"; VStr "b"] [VNum (NInt 1); VNum (NInt 2)]] [] [].

(** A computation that never exhausts the recursion budget of its
    definition: from every state it completes, throws, or reaches
    host-defined behaviour. *)
Definition terminates {A} (m : I A) : Prop := forall s, m s <> OutOfFuel.

(** How a loop over [parts] (its condition, body and update) can end:
    the condition fails after at most [MAX_ITERATIONS] runs of the body,
    the ceiling is exceeded, or one of the parts aborts. *)
Inductive LoopOutcome (parts : list (I VoidValue)) : outcome State Error Z -> Prop :=
| LoopCompleted (n : Z) (s : State) :
    0 <= n <= MAX_ITERATIONS -> LoopOutcome parts (Done n s)
| LoopCeilingExceeded (s : State) :
    LoopOutcome parts (Throw (RuntimeError MaxIterationsExceeded) s)
| LoopPartThrew (part : I VoidValue) (s0 : State) (e : Error) (s : State) :
    part ∈ parts -> part s0 = Throw e s -> LoopOutcome parts (Throw e s)
| LoopPartHostDefined (part : I VoidValue) (s0 : State) (w : string) (s : State) :
    part ∈ parts -> part s0 = HostDefined w s -> LoopOutcome parts (HostDefined w s).

Definition runUpdate (update : option (I VoidValue)) : I VoidValue :=
  match update with
  | Some run => run
  | None => ret VNull
  end.

(** A value that is no reference to a list or a dict. *)
Definition scalar (v : VoidValue) : Prop :=
  match v with
  | VList _ | VDict _ => False
  | _ => True
  end.

(** No key is equal to a later key. *)
Definition keysDistinct (h : Heap) (keys : list VoidValue) : Prop :=
  forall (i j : nat) (ki kj : VoidValue),
    (i < j)%nat -> keys !! i = Some ki -> keys !! j = Some kj ->
    areEqual h ki kj = Ok false.

Definition largeIntProgram : string :=
  "@VoidApp 'T'; main(){ create:int x = 1000000000000000000000; echo(toString(x)); echo(toInt(toString(x))); echo(x == toInt(toString(x))); }".

(** The position an integer index [i] names in a sequence of [len]
    elements: itself, or counted from the end when negative; none when it
    falls outside. *)
Definition position (i : Z) (len : nat) : option nat :=
  if (0 <=? i) && (i <? Z.of_nat len) then Some (Z.to_nat i)
  else if (- Z.of_nat len <=? i) && (i <? 0) then Some (Z.to_nat (Z.of_nat len + i))
  else None.

Definition listState : State :=
  MkState (Environment.Env {[ "L" := MkVariable "list" (VList 0) ]} None)
          [ListObject [VNum (NInt 10); VNum (NInt 20); VNum (NInt 30)]] [] [].

(** A scalar whose text the model computes: null, undefined, a boolean, a
    string, or a number held as an integer. *)
Definition plain (v : VoidValue) : Prop :=
  match v with
  | VList _ | VDict _ | VNum (NFloat _) => False
  | _ => True
  end.

(** A property of the state that a computation keeps whenever it
    completes. *)
Definition preserves {A} (P : State -> Prop) (m : I A) : Prop :=
  forall st a st', P st -> m st = Done a st' -> P st'.

(** [m] run in a new scope [new Environment(env)], which is left for its
    parent once [m] completes: the pattern of [executeBlock] and
    [executeFor]. *)
Definition scopedRun {A} (m : I A) : I A :=
  pushEnvironment ;;; r <- m ;; popEnvironment ;;; ret r.

(** Every dict holds as many values as keys (a reference that is no dict
    reads as no keys and no values). *)
Definition dictsParallel (h : Heap) : Prop :=
  forall ref, List.length (keysOf h ref) = List.length (valuesOf h ref).

Definition parallelObject (o : HeapObject) : Prop :=
  match o with
  | DictObject keys values => List.length keys = List.length values
  | ListObject _ => True
  end.

(** The names each scope declares, with their declared types, innermost
    scope first. *)
Definition declared (e : Environment.t) : list (gmap string string) :=
  map (fmap type) (scopes e).

(** [T'] is [T] with more names declared in the innermost scope, and
    nothing else changed. *)
Definition grows (T T' : list (gmap string string)) : Prop :=
  match T, T' with
  | d :: rest, d' :: rest' => d ⊆ d' /\ rest' = rest
  | _, _ => False
  end.

(** The nodes [parseExpression] builds: operators, literals, names,
    calls, [write], [rand] and indexing, over expressions again. *)
Fixpoint isExpression (node : ASTNode) : bool :=
  match node with
  | BinaryExpr _ leftExpr rightExpr => isExpression leftExpr && isExpression rightExpr
  | UnaryExpr _ operand => isExpression operand
  | NumberLiteral _ | FloatLiteral _ | StringLiteral _ | BoolLiteral _
  | Identifier _ => true
  | FunctionCall _ args => forallb isExpression args
  | RandCall lo hi => isExpression lo && isExpression hi
  | ListLiteral elements => forallb isExpression elements
  | DictLiteral entries =>
      forallb (fun kv => isExpression (fst kv) && isExpression (snd kv)) entries
  | IndexAccess object index => isExpression object && isExpression index
  | Write prompt => isExpression prompt
  | _ => false
  end.

(** The nodes [parseStatement] and [parseMain] build: every operand of a
    statement is an expression, and every nested statement is of this
    shape again. *)
Fixpoint wellFormed (node : ASTNode) : bool :=
  match node with
  | Main statements | Block statements => forallb wellFormed statements
  | Echo expressions => forallb isExpression expressions
  | CreateVar _ _ valueExpr | AssignVar _ valueExpr => isExpression valueExpr
  | If condition thenBranch elseBranch =>
      isExpression condition && forallb wellFormed thenBranch
      && match elseBranch with
         | Some (If _ _ _ as elseIf) => wellFormed elseIf
         | Some (Block statements) => forallb wellFormed statements
         | Some _ => false
         | None => true
         end
  | While condition statements =>
      isExpression condition && forallb wellFormed statements
  | For init condition update statements =>
      match init with Some n => wellFormed n | None => true end
      && isExpression condition
      && match update with Some n => wellFormed n | None => true end
      && forallb wellFormed statements
  | MethodCall _ _ _ args => forallb isExpression args
  | _ => isExpression node
  end.

(** What a declared type promises of the value of a binding: a string, a
    number that is not NaN (floored, for [int]), a boolean; nothing for
    the types [list] and [dict]. *)
Definition wellTyped (ty : string) (v : VoidValue) : Prop :=
  if String.eqb ty "string" then exists s, v = VStr s
  else if String.eqb ty "int" then exists n, isNaN n = false /\ v = VNum (numFloor n)
  else if String.eqb ty "float" then exists n, isNaN n = false /\ v = VNum n
  else if String.eqb ty "bool" then exists b, v = VBool b
  else True.

Definition scopeTyped (vs : gmap string Binding) : Prop :=
  map_Forall (fun _ b => wellTyped (type b) (value b)) vs.

(** Every binding of every scope holds a value of its declared type. *)
Definition envTyped (e : Environment.t) : Prop := Forall scopeTyped (scopes e).

(** What a parsing function gives whenever it succeeds. *)
Definition yields {A} (Q : A -> Prop) (m : Parser.P A) : Prop :=
  forall ts a ts', m ts = Done a ts' -> Q a.

Definition expressionNode (node : ASTNode) : Prop := isExpression node = true.
Definition expressionNodes (nodes : list ASTNode) : Prop :=
  forallb isExpression nodes = true.
Definition statementNode (node : ASTNode) : Prop := wellFormed node = true.
Definition statementNodes (nodes : list ASTNode) : Prop :=
  forallb wellFormed nodes = true.

Definition optionalStatement (o : option ASTNode) : Prop :=
  match o with Some n => wellFormed n = true | None => True end.

Definition entryNode (kv : ASTNode * ASTNode) : Prop :=
  isExpression (fst kv) && isExpression (snd kv) = true.

(** The number of characters the lexer has still to read. *)
Definition unread (c : Lexer.Cursor) : nat := String.length (Lexer.rest c).

Definition notEOF (t : Tokens.Token) : Prop := Tokens.type t <> Tokens.EOF.

Fixpoint everyChar (p : ascii -> bool) (s : string) : bool :=
  match s with
  | EmptyString => true
  | String c r => p c && everyChar p r
  end.

(** [m], run on at most [n] tokens, ends within its budget, and when it
    succeeds it has read at least [d] tokens and put none back. *)
Definition bounded {A} (n d : nat) (m : Parser.P A) : Prop :=
  forall ts,
    (List.length ts <= n)%nat ->
    match m ts with
    | OutOfFuel => False
    | Done _ ts' => (List.length ts' + d <= List.length ts)%nat
    | _ => True
    end.

(** [c] is an element of the list [v], or a key or the value of a key of
    the dict [v]. *)
Definition component (h : Heap) (v c : VoidValue) : Prop :=
  match v with
  | VList ref => c ∈ elementsOf h ref
  | VDict ref =>
      exists i k, keysOf h ref !! i = Some k
                  /\ (c = k \/ c = nth i (valuesOf h ref) VUndefined)
  | _ => False
  end.

(** A value that holds itself, directly or through other lists and dicts. *)
Definition cyclic (h : Heap) (v : VoidValue) : Prop := tc (component h) v v.

Definition selfListState : State :=
  MkState (Environment.Env {[ "L" := MkVariable "list" (VList 0) ]} None)
          [ListObject [VNum (NInt 1); VList 0]] [] [].

(** The list or dict object a value refers to is in the heap. *)
Definition holder (h : Heap) (v : VoidValue) : Prop :=
  match v with
  | VList ref => exists elements, h !! ref = Some (ListObject elements)
  | VDict ref => exists keys values, h !! ref = Some (DictObject keys values)
  | _ => False
  end.

Definition refOf (v : VoidValue) : nat :=
  match v with
  | VList ref | VDict ref => ref
  | _ => O
  end.

(** * Theorems *)

(** ** Printing scalars *)

Lemma jsString_never_fails (v : VoidValue) (e : Error) : jsString v <> Fail e.
Proof. destruct v; simpl; try done. by destruct (numberToString _). Qed.

(** A value that is no list and no dict prints as [String(value)],
    whatever the stack. *)
Lemma stringify_scalar (h : Heap) (v : VoidValue) :
  scalar v -> stringify h v = jsString v.
Proof.
  intros Hv. unfold stringify.
  destruct v; try done; simpl; by destruct (numberToString _).
Qed.

(** ** The lexer on [&] and [|] *)

Section LoneAmpersand.

Import Lexer.

Lemma skipWhitespace_fixed (c : Cursor) :
  isSpace (current c) = false -> atEnd c = false -> skipWhitespace c = c.
Proof.
  destruct c as [[|ch r] l col]; simpl; intros Hsp Hend; [discriminate|].
  unfold skipWhitespace; simpl.
  unfold isSpace in Hsp; cbn in Hsp.
  repeat (apply orb_false_elim in Hsp; destruct Hsp as [Hsp ?]).
  repeat match goal with H : Ascii.eqb _ _ = false |- _ => rewrite H; clear H end.
  reflexivity.
Qed.

Lemma twoCharOperator_lone (ch nxt : ascii) :
  (ch = "&"%char \/ ch = "|"%char) -> nxt <> ch -> twoCharOperator ch nxt = None.
Proof.
  intros Hch Hnxt.
  destruct Hch; subst ch;
    destruct nxt as [[] [] [] [] [] [] [] []];
    try reflexivity; exfalso; apply Hnxt; reflexivity.
Qed.

Lemma tokenizeStep_lone (ch : ascii) (r : string) (l col : nat) :
  (ch = "&"%char \/ ch = "|"%char) ->
  peek (MkCursor (String ch r) l col) <> ch ->
  tokenizeStep (MkCursor (String ch r) l col)
  = inl (MkLexerError (UnexpectedChar ch) l col).
Proof.
  intros Hch Hnxt. unfold tokenizeStep.
  rewrite skipWhitespace_fixed by (destruct Hch; subst; reflexivity).
  pose proof (twoCharOperator_lone ch _ Hch Hnxt) as Htwo.
  set (c := MkCursor (String ch r) l col) in *.
  assert (Hcur : current c = ch) by reflexivity.
  change (atEnd c) with false. cbv iota. rewrite Hcur, Htwo.
  destruct Hch; subst ch; reflexivity.
Qed.




End LoneAmpersand.

(** ** Indexed assignment *)

(** C1 fails on the code: the parser turns [L[0] = 5;] into an assignment
    to a variable named [L[]] and drops the index, so the run aborts at
    that statement with "variable not defined"; [L[0] == 5] is never
    evaluated. *)
Theorem indexed_assignment_aborts :
  (exists rest,
     Parser.parseIdentifierStatement 100
       (match Lexer.tokenize "L[0] = 5;" with Done ts _ => ts | _ => [] end)
     = Done (AssignVar "L[]" (NumberLiteral (NInt 5))) rest)
  /\ runSource indexedAssignmentProgram []
     = Failed (RuntimeError (NotDefined "L[]")) [Header "T"; EmptyLine].
Proof. split; [eexists|]; vm_compute; reflexivity. Qed.

(** ** Dict keys *)

(** C2 fails on the code: a dict literal stores its entries without looking
    for an equal key, so this dict has three entries under two distinct
    keys, and [add:dict] does not repair it. *)
Theorem dict_literal_keeps_duplicate_keys :
  runSource duplicateKeyProgram []
  = Finished [Header "T"; EmptyLine; Log "3"; Log "{a:1, a:2, b:3}"; Log "1";
              EmptyLine; Footer "T"]
  /\ areEqual [] (VStr "a") (VStr "a") = Ok true.
Proof. split; vm_compute; reflexivity. Qed.

(** On scalars, equality does not read the heap. *)
Lemma areEqual_scalar (h h' : Heap) (l r : VoidValue) :
  scalar l -> scalar r -> areEqual h l r = areEqual h' l r.
Proof. destruct l, r; simpl; intros Hl Hr; done. Qed.

Lemma findDictKeyFrom_absent_inv (h : Heap) (key : VoidValue) (keys : list VoidValue) :
  forall n : nat,
    findDictKeyFrom h keys key n = Ok None ->
    forall k, k ∈ keys -> areEqual h k key = Ok false.
Proof.
  induction keys as [|k0 keys IH]; intros n Hfind k Hk.
  - by apply elem_of_nil in Hk.
  - simpl in Hfind. destruct (areEqual h k0 key) as [[]| |] eqn:Hk0; try done.
    apply elem_of_cons in Hk as [->|Hk]; [done|].
    by apply (IH (S n)).
Qed.

(** [add:dict] itself keeps the keys of a dict distinct, as long as they
    are scalars: what it stores after looking [key] up has distinct keys
    again.  Only the literal lets equal keys in. *)
Lemma add_dict_keeps_scalar_keys_distinct
    (h : Heap) (dict : nat) (key v : VoidValue) (found : option nat) :
  Forall scalar (keysOf h dict) -> scalar key ->
  keysDistinct h (keysOf h dict) ->
  findDictKey h dict key = Ok found ->
  let stored :=
    match found with
    | Some i => DictObject (keysOf h dict) (<[i := v]> (valuesOf h dict))
    | None => DictObject (keysOf h dict ++ [key]) (valuesOf h dict ++ [v])
    end in
  keysDistinct (<[dict := stored]> h) (keysOf (<[dict := stored]> h) dict).
Proof.
  intros Hscalar Hkey Hdistinct Hfind stored.
  destruct (decide (dict < List.length h)%nat) as [Hlt|Hge].
  - unfold keysOf at 1. rewrite list_lookup_insert_eq by done.
    intros i j ki kj Hij Hi Hj.
    assert (Hall : forall k, k ∈ keysOf h dict -> scalar k)
      by (by apply Forall_forall).
    unfold stored in Hi, Hj. destruct found as [n|].
    + rewrite <- (areEqual_scalar h) by eauto using list_elem_of_lookup_2.
      by apply (Hdistinct i j).
    + apply lookup_snoc_Some in Hi as [[Hilt Hi]|[-> <-]];
        apply lookup_snoc_Some in Hj as [[Hjlt Hj]|[-> <-]]; try lia.
      * rewrite <- (areEqual_scalar h) by eauto using list_elem_of_lookup_2.
        by apply (Hdistinct i j).
      * rewrite <- (areEqual_scalar h) by eauto using list_elem_of_lookup_2.
        apply (findDictKeyFrom_absent_inv h key (keysOf h dict) O Hfind).
        by apply list_elem_of_lookup_2 in Hi.
  - rewrite list_insert_ge by lia. exact Hdistinct.
Qed.

(** ** Operator precedence *)

(** C4: [*] binds tighter than [+], [**] associates to the right, and
    parentheses override both, whatever the integer literals are; the
    three statements of the scenario print 7, 512 and 9. *)
Theorem precedence_examples (a b c : string) :
  let eof := tk Tokens.EOF "" in
  let plus := tk Tokens.PLUS "+" in
  let times := tk Tokens.MULTIPLY "*" in
  let power := tk Tokens.POWER "**" in
  Parser.parseExpression 40 [intToken a; plus; intToken b; times; intToken c; eof]
  = Done (BinaryExpr "+" (intNode a) (BinaryExpr "*" (intNode b) (intNode c))) [eof]
  /\ Parser.parseExpression 40 [intToken a; times; intToken b; plus; intToken c; eof]
     = Done (BinaryExpr "+" (BinaryExpr "*" (intNode a) (intNode b)) (intNode c)) [eof]
  /\ Parser.parseExpression 40 [intToken a; power; intToken b; power; intToken c; eof]
     = Done (BinaryExpr "**" (intNode a) (BinaryExpr "**" (intNode b) (intNode c))) [eof]
  /\ Parser.parseExpression 40
       [tk Tokens.LPAREN "("; intToken a; plus; intToken b; tk Tokens.RPAREN ")"; times; intToken c; eof]
     = Done (BinaryExpr "*" (BinaryExpr "+" (intNode a) (intNode b)) (intNode c)) [eof]
  /\ parsedExpression "1 + 2 * 3"
     = Some (BinaryExpr "+" (lit 1) (BinaryExpr "*" (lit 2) (lit 3)))
  /\ parsedExpression "2 ** 3 ** 2"
     = Some (BinaryExpr "**" (lit 2) (BinaryExpr "**" (lit 3) (lit 2)))
  /\ parsedExpression "(1+2)*3"
     = Some (BinaryExpr "*" (BinaryExpr "+" (lit 1) (lit 2)) (lit 3))
  /\ runSource precedenceProgram []
     = Finished [Header "T"; EmptyLine; Log "7"; Log "512"; Log "9";
                 EmptyLine; Footer "T"].
Proof.
  repeat split; try reflexivity; vm_compute; reflexivity.
Qed.

(** ** Logical operators *)

(** C5: [&&] and [||] run the left operand, then the right operand from
    the state the left one left, whatever the left value is, and give the
    boolean that combines the truthiness of the two values; an abort of
    either operand is the abort of the expression. *)
Theorem logical_operators_evaluate_both_operands (l r : ASTNode) (st : State) :
  executeNode (BinaryExpr "&&" l r) st
  = logicalOutcome andb (executeNode l) (executeNode r) st
  /\ executeNode (BinaryExpr "||" l r) st
     = logicalOutcome orb (executeNode l) (executeNode r) st.
Proof.
  split; cbn [executeNode]; unfold executeBinaryExpr, logicalOutcome, bind;
    (destruct (executeNode l st) as [vl s1| | |]; [|reflexivity..]);
    (destruct (executeNode r s1) as [vr s2| | |]; reflexivity).
Qed.

(** The right operand runs even when the left one decides the result: its
    error is raised, and its input is read. *)
Example no_short_circuit :
  runSource "@VoidApp 'T'; main(){ echo(false && 1 / 0 == 1); }" []
  = Failed (RuntimeError DivisionByZero) [Header "T"; EmptyLine]
  /\ runSource "@VoidApp 'T'; main(){ echo(true || write('?')); }" ["x"]
     = Finished [Header "T"; EmptyLine; Question "?"; Log "true";
                 EmptyLine; Footer "T"].
Proof. split; vm_compute; reflexivity. Qed.

(** ** Coercion of null, lists and dicts to a number *)



(** The same through the whole pipeline: an empty list compares as 0. *)
Example list_below_one :
  runSource "@VoidApp 'T'; main(){ echo([] < 1, {} - 2, [7] * 3); }" []
  = Finished [Header "T"; EmptyLine; Log "true -2 0"; EmptyLine; Footer "T"].
Proof. vm_compute; reflexivity. Qed.

(** ** The environment *)

Lemma environment_ind (P : Environment.t -> Prop) :
  (forall vs, P (Environment.Env vs None)) ->
  (forall vs p, P p -> P (Environment.Env vs (Some p))) ->
  forall e, P e.
Proof.
  intros Hroot Hchild. fix IH 1. intros [vs [p|]].
  - apply Hchild, IH.
  - apply Hroot.
Qed.

Lemma has_false_iff (name : string) (e : Environment.t) :
  Environment.has name e = false <-> forall vs, vs ∈ scopes e -> vs !! name = None.
Proof.
  induction e as [vs|vs p IH] using environment_ind; simpl.
  - destruct (vs !! name) eqn:Hvs; split.
    + done.
    + intros H. specialize (H vs (list_elem_of_here _ _)). congruence.
    + intros _ ws Hws. apply list_elem_of_singleton in Hws. by subst.
    + done.
  - destruct (vs !! name) eqn:Hvs.
    + split; [done|]. intros H. specialize (H vs (list_elem_of_here _ _)). congruence.
    + rewrite IH. split.
      * intros H ws Hws. apply elem_of_cons in Hws as [->|Hws]; auto.
      * intros H ws Hws. apply H. by apply list_elem_of_further.
Qed.

Lemma nearest_none_iff (name : string) (e : Environment.t) :
  nearest name (scopes e) = None <-> Environment.has name e = false.
Proof.
  induction e as [vs|vs p IH] using environment_ind; simpl.
  - destruct (vs !! name); split; done.
  - destruct (vs !! name); [split; done|].
    rewrite <- IH. destruct (nearest name (scopes p)) as [[i b]|]; split; done.
Qed.

Lemma get_nearest (name : string) (e : Environment.t) :
  Environment.get name e
  = match nearest name (scopes e) with
    | Some (_, b) => inr b
    | None => inl (RuntimeError (NotDefined name))
    end.
Proof.
  induction e as [vs|vs p IH] using environment_ind; simpl.
  - by destruct (vs !! name).
  - destruct (vs !! name); [done|]. rewrite IH.
    by destruct (nearest name (scopes p)) as [[i b]|].
Qed.

Lemma set_nearest (name : string) (v : VoidValue) (e : Environment.t) :
  match nearest name (scopes e) with
  | Some (i, b) =>
      exists e', Environment.set name v e = inr e'
                 /\ scopes e' = alter (insert name (MkVariable (type b) v)) i (scopes e)
  | None => Environment.set name v e = inl (RuntimeError (NotDefined name))
  end.
Proof.
  induction e as [vs|vs p IH] using environment_ind; simpl.
  - destruct (vs !! name) as [b|] eqn:Hvs; [|done]. eexists; split; done.
  - destruct (vs !! name) as [b|] eqn:Hvs; [eexists; split; done|].
    destruct (nearest name (scopes p)) as [[i b]|].
    + destruct IH as (p' & -> & Hp'). eexists; split; [done|]. simpl. by rewrite Hp'.
    + by rewrite IH.
Qed.

(** C8: [define] throws exactly when the current scope holds the name,
    whatever its ancestors hold; [get] and [set] throw exactly when no
    scope of the chain holds the name, and otherwise read, respectively
    replace the value of, the binding of the nearest scope that holds it,
    leaving every other scope as it was. *)
Theorem environment_define_get_set
    (name ty : string) (v : VoidValue) (this : Environment.t) :
  (is_Some (Environment.variables this !! name)
   <-> Environment.define name ty v this = inl (RuntimeError (AlreadyDefined name)))
  /\ (Environment.variables this !! name = None
      <-> Environment.define name ty v this
          = inr (Environment.Env (<[name := MkVariable ty v]> (Environment.variables this))
                                 (Environment.parent this)))
  /\ ((forall vs, vs ∈ scopes this -> vs !! name = None)
      <-> Environment.get name this = inl (RuntimeError (NotDefined name)))
  /\ ((forall vs, vs ∈ scopes this -> vs !! name = None)
      <-> Environment.set name v this = inl (RuntimeError (NotDefined name)))
  /\ match nearest name (scopes this) with
     | Some (i, b) =>
         Environment.get name this = inr b
         /\ exists this',
              Environment.set name v this = inr this'
              /\ scopes this'
                 = alter (insert name (MkVariable (type b) v)) i (scopes this)
     | None =>
         forall err, Environment.get name this <> inr err
     end.
Proof.
  repeat split.
  - intros [b Hb]. unfold Environment.define. by rewrite Hb.
  - unfold Environment.define. destruct (_ !! name); [by eexists|discriminate].
  - intros Hn. unfold Environment.define. by rewrite Hn.
  - unfold Environment.define. destruct (_ !! name); [discriminate|done].
  - intros H. apply has_false_iff, nearest_none_iff in H.
    by rewrite get_nearest, H.
  - intros H. apply has_false_iff, nearest_none_iff.
    rewrite get_nearest in H. by destruct (nearest name (scopes this)) as [[i b]|].
  - intros H. apply has_false_iff, nearest_none_iff in H.
    pose proof (set_nearest name v this) as Hs. by rewrite H in Hs.
  - intros H. apply has_false_iff, nearest_none_iff.
    pose proof (set_nearest name v this) as Hs.
    destruct (nearest name (scopes this)) as [[i b]|]; [|done].
    destruct Hs as (e' & He' & _). congruence.
  - pose proof (get_nearest name this) as Hg.
    pose proof (set_nearest name v this) as Hs.
    destruct (nearest name (scopes this)) as [[i b]|]; [split; done|].
    intros err. by rewrite Hg.
Qed.

(** A name held only by an ancestor scope may be defined again in the
    current scope, and is then the one [get] finds. *)
Example define_shadows_ancestor :
  let outer := Environment.Env {[ "x" := MkVariable "int" (VNum (NInt 1)) ]} None in
  let inner := Environment.new (Some outer) in
  Environment.has "x" inner = true
  /\ (exists inner',
        Environment.define "x" "string" (VStr "s") inner = inr inner'
        /\ Environment.get "x" inner' = inr (MkVariable "string" (VStr "s")))
  /\ Environment.define "x" "int" (VNum (NInt 2)) outer
     = inl (RuntimeError (AlreadyDefined "x")).
Proof. repeat split. eexists; split; reflexivity. Qed.

(** ** [add:dict] *)

Lemma findDictKeyFrom_found (h : Heap) (key : VoidValue) (keys : list VoidValue) :
  forall (n i : nat) (k : VoidValue),
    keys !! i = Some k ->
    areEqual h k key = Ok true ->
    (forall j kj, (j < i)%nat -> keys !! j = Some kj -> areEqual h kj key = Ok false) ->
    findDictKeyFrom h keys key n = Ok (Some (n + i)%nat).
Proof.
  induction keys as [|k0 keys IH]; intros n i k Hi Hk Hbefore; [done|].
  destruct i as [|i]; simpl in *.
  - injection Hi as ->. rewrite Hk. simpl. by rewrite Nat.add_0_r.
  - rewrite (Hbefore O k0) by (done || lia). simpl.
    rewrite (IH (S n) i k Hi Hk).
    + f_equal. f_equal. lia.
    + intros j kj Hj Hkj. apply (Hbefore (S j) kj); [lia|done].
Qed.

Lemma findDictKeyFrom_absent (h : Heap) (key : VoidValue) (keys : list VoidValue) :
  forall n : nat,
    (forall k, k ∈ keys -> areEqual h k key = Ok false) ->
    findDictKeyFrom h keys key n = Ok None.
Proof.
  induction keys as [|k0 keys IH]; intros n Hall; [done|]. simpl.
  rewrite (Hall k0) by apply list_elem_of_here. simpl.
  apply IH. intros k Hk. apply Hall. by apply list_elem_of_further.
Qed.

(** C3: when the dict of [x] holds a key equal to the new key, [add:dict]
    replaces the value at the position of the first such key and leaves
    the keys, their order and the other values as they are; when it holds
    none, it appends the key and the value at the end. *)
Theorem add_dict_replaces_or_appends
    (x : string) (keyExpr valueExpr : ASTNode) (st st1 st2 : State)
    (variable : Binding) (dict : nat) (key v : VoidValue) :
  Environment.get x (env st) = inr variable ->
  value variable = VDict dict ->
  executeNode keyExpr st = Done key st1 ->
  executeNode valueExpr st1 = Done v st2 ->
  let h := heap st2 in
  let keys := keysOf h dict in
  let values := valuesOf h dict in
  (forall i k,
      keys !! i = Some k ->
      areEqual h k key = Ok true ->
      (forall j kj, (j < i)%nat -> keys !! j = Some kj -> areEqual h kj key = Ok false) ->
      executeNode (MethodCall x "add" "dict" [keyExpr; valueExpr]) st
      = Done VNull (withHeap st2 (<[dict := DictObject keys (<[i := v]> values)]> h)))
  /\ ((forall k, k ∈ keys -> areEqual h k key = Ok false) ->
      executeNode (MethodCall x "add" "dict" [keyExpr; valueExpr]) st
      = Done VNull
          (withHeap st2 (<[dict := DictObject (keys ++ [key]) (values ++ [v])]> h))).
Proof.
  intros Hget Hdict Hkey Hval h keys values.
  assert (Hrun : forall found,
             findDictKey h dict key = Ok found ->
             executeNode (MethodCall x "add" "dict" [keyExpr; valueExpr]) st
             = Done VNull
                 (withHeap st2
                    (<[dict := match found with
                               | Some i => DictObject keys (<[i := v]> values)
                               | None => DictObject (keys ++ [key]) (values ++ [v])
                               end]> h))).
  { intros found Hfound. cbn.
    unfold executeMethodCall, envGet, bind, getEnv, liftEnv. rewrite Hget. cbn.
    unfold executeMethodAdd. cbn. rewrite Hdict.
    unfold bind. rewrite Hkey, Hval. unfold getHeap, liftResult.
    fold h. rewrite Hfound.
    destruct found; reflexivity. }
  split.
  - intros i k Hi Hk Hbefore. apply (Hrun (Some i)).
    unfold findDictKey. fold keys.
    apply (findDictKeyFrom_found h key keys O i k Hi Hk Hbefore).
  - intros Hall. apply (Hrun None).
    unfold findDictKey. fold keys. by apply findDictKeyFrom_absent.
Qed.

(** The theorem at [D.add:dict('b':9)] on the dict [{a:1, b:2}]: the
    value of the second key is replaced in place. *)
Lemma add_dict_replaces_or_appends_witness :
  executeNode (MethodCall "D" "add" "dict" [StringLiteral "b"; lit 9]) dictState
  = Done VNull
      (withHeap dictState
         [DictObject [VStr "a"; VStr "b"] [VNum (NInt 1); VNum (NInt 9)]]).
Proof.
  apply (proj1 (add_dict_replaces_or_appends "D" (StringLiteral "b") (lit 9)
                  dictState dictState dictState
                  (MkVariable "dict" (VDict 0)) 0 (VStr "b") (VNum (NInt 9))
                  eq_refl eq_refl eq_refl eq_refl) 1%nat (VStr "b")).
  - reflexivity.
  - reflexivity.
  - intros j kj Hj Hkj. destruct j as [|j]; [|lia].
    injection Hkj as <-. reflexivity.
Defined.

(** ** [toString] followed by [toInt] or [toBool] *)

Lemma readDigits_string_of_uint (u : Decimal.uint) :
  readDigits (NilEmpty.string_of_uint u) = (u, EmptyString).
Proof. induction u; simpl; try rewrite IHu; reflexivity. Qed.

Lemma parseInt_digits (u : Decimal.uint) :
  u <> Decimal.Nil ->
  parseInt (NilEmpty.string_of_uint u) = signedValue false u.
Proof.
  intros Hu. unfold parseInt.
  destruct u as [|u|u|u|u|u|u|u|u|u|u]; [done|..];
    cbn -[signedValue]; rewrite readDigits_string_of_uint; reflexivity.
Qed.

Lemma N_to_uint_nonnil (n : N) : N.to_uint n <> Decimal.Nil.
Proof.
  destruct n; simpl; [discriminate|]. apply DecimalPos.Unsigned.to_uint_nonnil.
Qed.

Lemma intToString_negative (z : Z) :
  z < 0 ->
  intToString z = String "-" (NilEmpty.string_of_uint (N.to_uint (Z.abs_N z))).
Proof. intros Hz. unfold intToString. apply Z.ltb_lt in Hz. by rewrite Hz. Qed.

Lemma intToString_natural (z : Z) :
  0 <= z -> intToString z = NilEmpty.string_of_uint (N.to_uint (Z.abs_N z)).
Proof. intros Hz. unfold intToString. apply Z.ltb_ge in Hz. by rewrite Hz. Qed.

Lemma parseInt_intToString (z : Z) :
  isSafe z = true -> parseInt (intToString z) = NInt z.
Proof.
  intros Hsafe.
  pose proof (N_to_uint_nonnil (Z.abs_N z)) as Hnil.
  pose proof (DecimalN.Unsigned.of_to (Z.abs_N z)) as Hof.
  destruct (Z.lt_ge_cases z 0) as [Hneg|Hpos].
  - rewrite intToString_negative by done.
    unfold parseInt. cbn -[signedValue].
    rewrite readDigits_string_of_uint.
    assert (Hval : signedValue true (N.to_uint (Z.abs_N z)) = NInt z).
    { unfold signedValue. rewrite Hof, N2Z.inj_abs_N.
      destruct (Z.abs z =? 0) eqn:Hz; [apply Z.eqb_eq in Hz; lia|].
      unfold ofZ. rewrite Z.abs_neq by lia. by rewrite Z.opp_involutive, Hsafe. }
    by destruct (N.to_uint (Z.abs_N z)).
  - rewrite intToString_natural by done.
    rewrite parseInt_digits by done.
    unfold signedValue. rewrite Hof, N2Z.inj_abs_N, Z.abs_eq by lia.
    unfold ofZ. by rewrite Hsafe.
Qed.

Lemma orZero_int (z : Z) : orZero (NInt z) = NInt z.
Proof.
  unfold orZero. simpl. destruct (z =? 0) eqn:Hz; [|done].
  apply Z.eqb_eq in Hz. by subst.
Qed.




(** ** Loops *)

Section Termination.

Lemma terminates_ret {A} (a : A) : terminates (ret a).
Proof. intros s; discriminate. Qed.

Lemma terminates_throw {A} (e : Error) : terminates (@throw State Error A e).
Proof. intros s; discriminate. Qed.

Lemma terminates_hostDefined {A} (w : string) : terminates (@hostDefined State Error A w).
Proof. intros s; discriminate. Qed.

Lemma terminates_bind {A B} (m : I A) (k : A -> I B) :
  terminates m -> (forall a, terminates (k a)) -> terminates (bind m k).
Proof.
  intros Hm Hk s. unfold bind. destruct (m s) eqn:Hms; try discriminate.
  - apply Hk.
  - by apply Hm in Hms.
Qed.

Lemma terminates_liftResult {A} (r : result A) : terminates (liftResult r).
Proof. intros s; destruct r; discriminate. Qed.

Lemma terminates_liftEnv {A} (r : Error + A) : terminates (liftEnv r).
Proof. intros s; destruct r; discriminate. Qed.

Lemma terminates_getHeap : terminates getHeap.
Proof. intros s; discriminate. Qed.

Lemma terminates_putHeap (h : Heap) : terminates (putHeap h).
Proof. intros s; discriminate. Qed.

Lemma terminates_getEnv : terminates getEnv.
Proof. intros s; discriminate. Qed.

Lemma terminates_putEnv (e : Environment.t) : terminates (putEnv e).
Proof. intros s; discriminate. Qed.

Lemma terminates_consoleLog (ev : OutputEvent) : terminates (consoleLog ev).
Proof. intros s; discriminate. Qed.

Lemma terminates_question (p : string) : terminates (question p).
Proof. intros s; unfold question; destruct (stdin s); discriminate. Qed.

End Termination.

Create HintDb terminates.

#[local] Hint Resolve terminates_ret terminates_throw terminates_hostDefined
  terminates_liftResult terminates_liftEnv terminates_getHeap terminates_putHeap
  terminates_getEnv terminates_putEnv terminates_consoleLog terminates_question
  : terminates.

(** Splits a goal [terminates m] along the structure of [m]. *)
Ltac terminates_step :=
  lazymatch goal with
  | |- terminates (bind _ _) => apply terminates_bind; [|intros ?]
  | |- terminates (if ?b then _ else _) => destruct b
  | |- terminates (match ?x with _ => _ end) => destruct x
  | |- terminates _ =>
      repeat match goal with
             | H : Forall _ (_ :: _) |- _ => inversion H; subst; clear H
             end;
      solve [auto with terminates]
  end.

Ltac terminates_auto := repeat terminates_step.

Section TerminationOfMethods.

Lemma terminates_envGet (name : string) : terminates (envGet name).
Proof. unfold envGet. terminates_auto. Qed.

Lemma terminates_envSet (name : string) (v : VoidValue) : terminates (envSet name v).
Proof. unfold envSet. terminates_auto. Qed.

Lemma terminates_envDefine (name ty : string) (v : VoidValue) :
  terminates (envDefine name ty v).
Proof. unfold envDefine. terminates_auto. Qed.

Lemma terminates_pushEnvironment : terminates pushEnvironment.
Proof. unfold pushEnvironment. terminates_auto. Qed.

Lemma terminates_popEnvironment : terminates popEnvironment.
Proof. unfold popEnvironment. terminates_auto. Qed.

Lemma terminates_allocate (o : HeapObject) : terminates (allocate o).
Proof. unfold allocate. terminates_auto. Qed.

Lemma terminates_store (ref : nat) (o : HeapObject) : terminates (store ref o).
Proof. unfold store. terminates_auto. Qed.

Hint Resolve terminates_envGet terminates_envSet terminates_envDefine
  terminates_pushEnvironment terminates_popEnvironment terminates_allocate
  terminates_store : terminates.

Lemma terminates_sequence {A} (ms : list (I A)) :
  Forall terminates ms -> terminates (sequence ms).
Proof.
  induction 1 as [|m ms Hm _ IH]; simpl; terminates_auto.
Qed.

Lemma terminates_runStatements (statements : list (I VoidValue)) :
  Forall terminates statements ->
  forall result, terminates (runStatements statements result).
Proof.
  induction 1 as [|m ms Hm _ IH]; intros result; simpl; terminates_auto.
Qed.

Lemma terminates_evalEntries (entries : list (I VoidValue * I VoidValue)) :
  Forall (fun kv => terminates (fst kv) /\ terminates (snd kv)) entries ->
  terminates (evalEntries entries).
Proof.
  induction 1 as [|[k v] ms [Hk Hv] _ IH]; simpl in *; terminates_auto.
Qed.

Hint Resolve terminates_sequence terminates_runStatements terminates_evalEntries
  : terminates.

Lemma terminates_executeBlock (statements : list (I VoidValue)) :
  Forall terminates statements -> terminates (executeBlock statements).
Proof. intros H. unfold executeBlock. terminates_auto. Qed.

Hint Resolve terminates_executeBlock : terminates.

Lemma terminates_executeEcho (expressions : list (I VoidValue)) :
  Forall terminates expressions -> terminates (executeEcho expressions).
Proof. intros H. unfold executeEcho. terminates_auto. Qed.

Lemma terminates_executeWrite (prompt : I VoidValue) :
  terminates prompt -> terminates (executeWrite prompt).
Proof. intros H. unfold executeWrite. terminates_auto. Qed.

Lemma terminates_executeCreateVar (varType name : string) (valueExpr : I VoidValue) :
  terminates valueExpr -> terminates (executeCreateVar varType name valueExpr).
Proof. intros H. unfold executeCreateVar. terminates_auto. Qed.

Lemma terminates_executeAssignVar (name : string) (valueExpr : I VoidValue) :
  terminates valueExpr -> terminates (executeAssignVar name valueExpr).
Proof. intros H. unfold executeAssignVar. terminates_auto. Qed.

Lemma terminates_executeIf (condition : I VoidValue) (thenBranch : list (I VoidValue))
    (elseBranch : option (I VoidValue)) :
  terminates condition -> Forall terminates thenBranch ->
  (forall run, elseBranch = Some run -> terminates run) ->
  terminates (executeIf condition thenBranch elseBranch).
Proof.
  intros Hc Ht He. unfold executeIf.
  destruct elseBranch as [run|]; [specialize (He run eq_refl)|]; terminates_auto.
Qed.

(** The outcome of the [while] loop entered with [iterations] runs behind
    it and enough fuel for the runs that the ceiling still allows. *)
Lemma whileLoop_outcome (condition body : I VoidValue) :
  terminates condition -> terminates body ->
  forall (fuel : nat) (iterations : Z) (st : State),
    0 <= iterations <= MAX_ITERATIONS ->
    MAX_ITERATIONS + 1 <= Z.of_nat fuel + iterations ->
    LoopOutcome [condition; body] (whileLoop fuel condition body iterations st).
Proof.
  intros Hc Hb. induction fuel as [|fuel IH]; intros iterations st Hit Hfuel.
  - lia.
  - simpl. unfold bind at 1.
    destruct (condition st) as [c s1|e s1|w s1|] eqn:Hcond.
    + unfold bind at 1. unfold getHeap at 1. cbv beta iota.
      destruct (isTruthy (heap s1) c).
      * unfold bind at 1.
        destruct (body s1) as [r s2|e s2|w s2|] eqn:Hbody.
        -- destruct (iterations + 1 >? MAX_ITERATIONS) eqn:Hmax.
           ++ apply LoopCeilingExceeded.
           ++ apply IH; lia.
        -- apply LoopPartThrew with (part := body) (s0 := s1); [repeat constructor|done].
        -- apply LoopPartHostDefined with (part := body) (s0 := s1); [repeat constructor|done].
        -- by apply Hb in Hbody.
      * apply LoopCompleted. lia.
    + apply LoopPartThrew with (part := condition) (s0 := st); [repeat constructor|done].
    + apply LoopPartHostDefined with (part := condition) (s0 := st); [repeat constructor|done].
    + by apply Hc in Hcond.
Qed.

Lemma forLoop_outcome (condition body : I VoidValue) (update : option (I VoidValue)) :
  terminates condition -> terminates body -> terminates (runUpdate update) ->
  forall (fuel : nat) (iterations : Z) (st : State),
    0 <= iterations <= MAX_ITERATIONS ->
    MAX_ITERATIONS + 1 <= Z.of_nat fuel + iterations ->
    LoopOutcome [condition; body; runUpdate update]
      (forLoop fuel condition update body iterations st).
Proof.
  intros Hc Hb Hu. induction fuel as [|fuel IH]; intros iterations st Hit Hfuel.
  - lia.
  - simpl. unfold bind at 1.
    destruct (condition st) as [c s1|e s1|w s1|] eqn:Hcond.
    + unfold bind at 1. unfold getHeap at 1. cbv beta iota.
      destruct (isTruthy (heap s1) c).
      * unfold bind at 1.
        destruct (body s1) as [r s2|e s2|w s2|] eqn:Hbody.
        -- unfold bind at 1.
           assert (Hupd : forall o,
                     runUpdate update s2 = o ->
                     match update with
                     | Some run => bind run (fun _ => ret tt)
                     | None => ret tt
                     end s2
                     = match o with
                       | Done _ s => Done tt s
                       | Throw e s => Throw e s
                       | HostDefined w s => HostDefined w s
                       | OutOfFuel => OutOfFuel
                       end).
           { intros o <-. destruct update as [run|]; simpl; [|done].
             unfold bind. by destruct (run s2). }
           rewrite (Hupd _ eq_refl).
           destruct (runUpdate update s2) as [r' s3|e s3|w s3|] eqn:Hrun.
           ++ destruct (iterations + 1 >? MAX_ITERATIONS) eqn:Hmax.
              ** apply LoopCeilingExceeded.
              ** apply IH; lia.
           ++ apply LoopPartThrew with (part := runUpdate update) (s0 := s2);
                [repeat constructor|done].
           ++ apply LoopPartHostDefined with (part := runUpdate update) (s0 := s2);
                [repeat constructor|done].
           ++ by apply Hu in Hrun.
        -- apply LoopPartThrew with (part := body) (s0 := s1); [repeat constructor|done].
        -- apply LoopPartHostDefined with (part := body) (s0 := s1); [repeat constructor|done].
        -- by apply Hb in Hbody.
      * apply LoopCompleted. lia.
    + apply LoopPartThrew with (part := condition) (s0 := st); [repeat constructor|done].
    + apply LoopPartHostDefined with (part := condition) (s0 := st); [repeat constructor|done].
    + by apply Hc in Hcond.
Qed.

Lemma loopFuel_enough : MAX_ITERATIONS + 1 <= Z.of_nat loopFuel + 0.
Proof. unfold loopFuel. rewrite Z2Nat.id; unfold MAX_ITERATIONS; lia. Qed.

Lemma LoopOutcome_not_OutOfFuel parts o : LoopOutcome parts o -> o <> OutOfFuel.
Proof. by destruct 1. Qed.

Lemma terminates_whileLoop (condition body : I VoidValue) :
  terminates condition -> terminates body ->
  terminates (whileLoop loopFuel condition body 0).
Proof.
  intros Hc Hb s. apply (LoopOutcome_not_OutOfFuel [condition; body]).
  apply whileLoop_outcome; [done|done| unfold MAX_ITERATIONS; lia | apply loopFuel_enough].
Qed.

Lemma terminates_forLoop (condition body : I VoidValue) (update : option (I VoidValue)) :
  terminates condition -> terminates body -> terminates (runUpdate update) ->
  terminates (forLoop loopFuel condition update body 0).
Proof.
  intros Hc Hb Hu s.
  apply (LoopOutcome_not_OutOfFuel [condition; body; runUpdate update]).
  apply forLoop_outcome; [done|done|done| unfold MAX_ITERATIONS; lia | apply loopFuel_enough].
Qed.

Hint Resolve terminates_whileLoop terminates_forLoop : terminates.

Lemma terminates_executeWhile (condition : I VoidValue) (body : list (I VoidValue)) :
  terminates condition -> Forall terminates body ->
  terminates (executeWhile condition body).
Proof. intros Hc Hb. unfold executeWhile. terminates_auto. Qed.

Lemma terminates_executeFor (init : option (I VoidValue)) (condition : I VoidValue)
    (update : option (I VoidValue)) (body : list (I VoidValue)) :
  terminates (runUpdate init) -> terminates condition ->
  terminates (runUpdate update) -> Forall terminates body ->
  terminates (executeFor init condition update body).
Proof.
  intros Hi Hc Hu Hb. unfold executeFor.
  apply terminates_bind; [auto with terminates|intros _].
  apply terminates_bind; [destruct init; simpl in Hi; terminates_auto|intros _].
  terminates_auto.
Qed.

Lemma terminates_executeListLiteral (elements : list (I VoidValue)) :
  Forall terminates elements -> terminates (executeListLiteral elements).
Proof. intros H. unfold executeListLiteral. terminates_auto. Qed.

Lemma terminates_executeDictLiteral (entries : list (I VoidValue * I VoidValue)) :
  Forall (fun kv => terminates (fst kv) /\ terminates (snd kv)) entries ->
  terminates (executeDictLiteral entries).
Proof. intros H. unfold executeDictLiteral. terminates_auto. Qed.

Lemma terminates_executeIndexAccess (object index : I VoidValue) :
  terminates object -> terminates index ->
  terminates (executeIndexAccess object index).
Proof. intros Ho Hi. unfold executeIndexAccess. terminates_auto. Qed.

Lemma terminates_executeMethodCall (object method collectionType : string)
    (args : list (I VoidValue)) :
  Forall terminates args ->
  terminates (executeMethodCall object method collectionType args).
Proof.
  intros H. unfold executeMethodCall, executeMethodAdd, executeMethodDelete,
    executeMethodClear.
  terminates_auto.
Qed.

Lemma terminates_binaryOperation (operator : string) (h : Heap) (l r : VoidValue) :
  terminates (binaryOperation operator h l r).
Proof. unfold binaryOperation. terminates_auto. Qed.

Hint Resolve terminates_binaryOperation : terminates.

Lemma terminates_executeBinaryExpr (operator : string) (l r : I VoidValue) :
  terminates l -> terminates r -> terminates (executeBinaryExpr operator l r).
Proof. intros Hl Hr. unfold executeBinaryExpr. terminates_auto. Qed.

Lemma terminates_executeUnaryExpr (operator : string) (operand : I VoidValue) :
  terminates operand -> terminates (executeUnaryExpr operator operand).
Proof. intros H. unfold executeUnaryExpr. terminates_auto. Qed.

Lemma terminates_executeIdentifier (name : string) : terminates (executeIdentifier name).
Proof. unfold executeIdentifier. terminates_auto. Qed.

Lemma terminates_executeFunctionCall (name : string) (args : list (I VoidValue)) :
  Forall terminates args -> terminates (executeFunctionCall name args).
Proof. intros H. unfold executeFunctionCall. terminates_auto. Qed.

Lemma terminates_executeRandCall (lo hi : I VoidValue) :
  terminates lo -> terminates hi -> terminates (executeRandCall lo hi).
Proof. intros Hl Hh. unfold executeRandCall. terminates_auto. Qed.

(** The tree walk never exhausts the budget of its loops: every
    execution of every node ends. *)
Lemma terminates_executeNode : forall node : ASTNode, terminates (executeNode node).
Proof.
  fix IH 1. intros node.
  assert (Hopt : forall o : option ASTNode,
             (forall n, o = Some n -> terminates (executeNode n)) ->
             terminates (runUpdate match o with
                                   | Some n => Some (executeNode n)
                                   | None => None
                                   end)).
  { intros [n|] Hn; simpl; [by apply Hn|apply terminates_ret]. }
  destruct node as
    [body|statements|expressions|prompt|varType name valueExpr|name valueExpr
    |condition thenBranch elseBranch|condition body|init condition update body
    |operator l r|operator operand|n|n|s|b|name|name args|lo hi|elements
    |entries|object index|object method collectionType args];
    cbn [executeNode].
  - apply terminates_executeBlock.
    induction body; constructor; [apply IH|assumption].
  - apply terminates_executeBlock.
    induction statements; constructor; [apply IH|assumption].
  - apply terminates_executeEcho.
    induction expressions; constructor; [apply IH|assumption].
  - apply terminates_executeWrite, IH.
  - apply terminates_executeCreateVar, IH.
  - apply terminates_executeAssignVar, IH.
  - apply terminates_executeIf.
    + apply IH.
    + induction thenBranch; constructor; [apply IH|assumption].
    + intros run Hrun. destruct elseBranch as [e|]; [|discriminate].
      pose proof (IH e) as He.
      destruct e; injection Hrun as <-; try apply terminates_throw.
      * exact He.
      * exact He.
  - apply terminates_executeWhile; [apply IH|].
    induction body; constructor; [apply IH|assumption].
  - apply terminates_executeFor.
    + destruct init; simpl; [apply IH|apply terminates_ret].
    + apply IH.
    + destruct update; simpl; [apply IH|apply terminates_ret].
    + induction body; constructor; [apply IH|assumption].
  - apply terminates_executeBinaryExpr; apply IH.
  - apply terminates_executeUnaryExpr, IH.
  - apply terminates_ret.
  - apply terminates_ret.
  - apply terminates_ret.
  - apply terminates_ret.
  - apply terminates_executeIdentifier.
  - apply terminates_executeFunctionCall.
    induction args; constructor; [apply IH|assumption].
  - apply terminates_executeRandCall; apply IH.
  - apply terminates_executeListLiteral.
    induction elements; constructor; [apply IH|assumption].
  - apply terminates_executeDictLiteral.
    induction entries as [|[k v] entries IHentries]; constructor;
      [split; apply IH|assumption].
  - apply terminates_executeIndexAccess; apply IH.
  - apply terminates_executeMethodCall.
    induction args; constructor; [apply IH|assumption].
Qed.

End TerminationOfMethods.

(** C7: the loop of every [while] and of every [for] statement ends, in
    one of three ways: its condition fails after the body has run at most
    1,000,000 times; or it throws the runtime error "maximum number of
    iterations exceeded"; or its condition, body or update aborts and the
    loop passes that abort on.  No execution of a loop, and none of any
    other node, runs without bound. *)
Theorem loops_end_within_the_ceiling
    (condition : ASTNode) (body : list ASTNode) (init update : option ASTNode)
    (st : State) :
  let c := executeNode condition in
  let b := executeBlock (map executeNode body) in
  let i := match init with Some n => Some (executeNode n) | None => None end in
  let u := match update with Some n => Some (executeNode n) | None => None end in
  MAX_ITERATIONS = 1000000
  /\ executeNode (While condition body) = (whileLoop loopFuel c b 0 ;;; ret VNull)
  /\ LoopOutcome [c; b] (whileLoop loopFuel c b 0 st)
  /\ executeNode (For init condition update body)
     = (pushEnvironment ;;;
        match i with Some run => run ;;; ret tt | None => ret tt end ;;;
        forLoop loopFuel c u b 0 ;;;
        popEnvironment ;;;
        ret VNull)
  /\ LoopOutcome [c; b; runUpdate u] (forLoop loopFuel c u b 0 st)
  /\ (forall node, executeNode node st <> OutOfFuel).
Proof.
  intros c b i u.
  assert (Hc : terminates c) by apply terminates_executeNode.
  assert (Hb : terminates b).
  { apply terminates_executeBlock.
    induction body; constructor; [apply terminates_executeNode|assumption]. }
  assert (Hu : terminates (runUpdate u)).
  { destruct update; simpl; [apply terminates_executeNode|apply terminates_ret]. }
  repeat split.
  - apply whileLoop_outcome; [done|done| unfold MAX_ITERATIONS; lia | apply loopFuel_enough].
  - apply forLoop_outcome; [done|done|done| unfold MAX_ITERATIONS; lia | apply loopFuel_enough].
  - intros node. apply terminates_executeNode.
Qed.

(** A loop below the ceiling runs to its end. *)
Example for_loop_sum :
  runSource "@VoidApp 'T'; main(){ create:int s = 0; for(create:int i = 1; i <= 5; i = i + 1){ s = s + i; } echo(s); }" []
  = Finished [Header "T"; EmptyLine; Log "15"; EmptyLine; Footer "T"].
Proof. vm_compute; reflexivity. Qed.

(** * Further properties of the code *)

(** ** The environment: what is defined or set is what is read *)

(** [define] followed by [get]: the new binding is read back with its
    declared type and value, and no other name resolves differently. *)
Theorem define_then_get
    (name ty : string) (v : VoidValue) (this this' : Environment.t) :
  Environment.define name ty v this = inr this' ->
  Environment.get name this' = inr (MkVariable ty v)
  /\ (forall other, other <> name ->
        Environment.get other this' = Environment.get other this)
  /\ scopes this' = <[name := MkVariable ty v]> (Environment.variables this)
                    :: tl (scopes this).
Proof.
  destruct this as [vs p]. unfold Environment.define. simpl.
  destruct (vs !! name) eqn:Hvs; [discriminate|].
  intros [= <-]. repeat split.
  - simpl. by rewrite lookup_insert_eq.
  - intros other Hother. simpl. by rewrite lookup_insert_ne.
Qed.

(** The theorem at a root scope holding [y], where [x] is defined. *)
Lemma define_then_get_witness :
  let this := Environment.Env {[ "y" := MkVariable "int" (VNum (NInt 1)) ]} None in
  let this' := Environment.Env (<[ "x" := MkVariable "bool" (VBool true) ]>
                                  {[ "y" := MkVariable "int" (VNum (NInt 1)) ]}) None in
  Environment.get "x" this' = inr (MkVariable "bool" (VBool true))
  /\ (forall other, other <> "x" ->
        Environment.get other this' = Environment.get other this)
  /\ scopes this' = <[ "x" := MkVariable "bool" (VBool true) ]>
                      (Environment.variables this) :: tl (scopes this).
Proof.
  intros this this'.
  apply (define_then_get "x" "bool" (VBool true) this this'). reflexivity.
Defined.

Lemma set_get_same (name : string) (v : VoidValue) (this : Environment.t) :
  forall this', Environment.set name v this = inr this' ->
  exists b, Environment.get name this = inr b
            /\ Environment.get name this' = inr (MkVariable (type b) v).
Proof.
  induction this as [vs|vs p IH] using environment_ind; simpl; intros this'.
  - destruct (vs !! name) as [b|] eqn:Hvs; [|discriminate].
    intros [= <-]. exists b. simpl. by rewrite lookup_insert_eq.
  - destruct (vs !! name) as [b|] eqn:Hvs.
    + intros [= <-]. exists b. simpl. by rewrite lookup_insert_eq.
    + destruct (Environment.set name v p) as [e|p'] eqn:Hset; [discriminate|].
      intros [= <-]. destruct (IH p' eq_refl) as (b & Hb & Hb').
      exists b. simpl. by rewrite Hvs.
Qed.

Lemma set_get_other (name other : string) (v : VoidValue) (this : Environment.t) :
  other <> name ->
  forall this', Environment.set name v this = inr this' ->
  Environment.get other this' = Environment.get other this.
Proof.
  intros Hother.
  induction this as [vs|vs p IH] using environment_ind; simpl; intros this'.
  - destruct (vs !! name) as [b|] eqn:Hvs; [|discriminate].
    intros [= <-]. simpl. by rewrite lookup_insert_ne.
  - destruct (vs !! name) as [b|] eqn:Hvs.
    + intros [= <-]. simpl. by rewrite lookup_insert_ne.
    + destruct (Environment.set name v p) as [e|p'] eqn:Hset; [discriminate|].
      intros [= <-]. simpl. by rewrite (IH p' eq_refl).
Qed.

Lemma set_has (name n : string) (v : VoidValue) (this : Environment.t) :
  forall this', Environment.set name v this = inr this' ->
  Environment.has n this' = Environment.has n this.
Proof.
  induction this as [vs|vs p IH] using environment_ind; simpl; intros this'.
  - destruct (vs !! name) as [b|] eqn:Hvs; [|discriminate].
    intros [= <-]. simpl.
    destruct (decide (n = name)) as [->|Hn];
      [by rewrite lookup_insert_eq, Hvs|by rewrite lookup_insert_ne].
  - destruct (vs !! name) as [b|] eqn:Hvs.
    + intros [= <-]. simpl.
      destruct (decide (n = name)) as [->|Hn];
        [by rewrite lookup_insert_eq, Hvs|by rewrite lookup_insert_ne].
    + destruct (Environment.set name v p) as [e|p'] eqn:Hset; [discriminate|].
      intros [= <-]. simpl. by rewrite (IH p' eq_refl).
Qed.

(** [set] followed by [get]: the name now reads the new value under the
    declared type it had; every other name reads what it read before; and
    no name appears or disappears. *)
Theorem set_then_get
    (name : string) (v : VoidValue) (this this' : Environment.t) :
  Environment.set name v this = inr this' ->
  (exists b, Environment.get name this = inr b
             /\ Environment.get name this' = inr (MkVariable (type b) v))
  /\ (forall other, other <> name ->
        Environment.get other this' = Environment.get other this)
  /\ (forall n, Environment.has n this' = Environment.has n this).
Proof.
  intros Hset. repeat split.
  - by apply set_get_same.
  - intros other Hother. by apply (set_get_other name other v this).
  - intros n. by apply (set_has name n v this).
Qed.

(** The theorem at a block scope whose parent holds [x]. *)
Lemma set_then_get_witness :
  let outer := Environment.Env {[ "x" := MkVariable "int" (VNum (NInt 1)) ]} None in
  let this := Environment.new (Some outer) in
  let this' := Environment.Env ∅
                 (Some (Environment.Env
                          (<[ "x" := MkVariable "int" (VNum (NInt 2)) ]>
                             {[ "x" := MkVariable "int" (VNum (NInt 1)) ]}) None)) in
  (exists b, Environment.get "x" this = inr b
             /\ Environment.get "x" this' = inr (MkVariable (type b) (VNum (NInt 2))))
  /\ (forall other, other <> "x" ->
        Environment.get other this' = Environment.get other this)
  /\ (forall n, Environment.has n this' = Environment.has n this).
Proof.
  intros outer this this'.
  apply (set_then_get "x" (VNum (NInt 2)) this this'). reflexivity.
Defined.

(** [has] answers whether [get] and [set] would succeed. *)
Theorem has_iff_get_and_set (name : string) (v : VoidValue) (this : Environment.t) :
  (Environment.has name this = true <-> exists b, Environment.get name this = inr b)
  /\ (Environment.has name this = true
      <-> exists this', Environment.set name v this = inr this').
Proof.
  pose proof (get_nearest name this) as Hget.
  pose proof (set_nearest name v this) as Hset.
  pose proof (nearest_none_iff name this) as Hnone.
  destruct (nearest name (scopes this)) as [[i b]|].
  - assert (Hhas : Environment.has name this = true).
    { apply not_false_iff_true. intros Hh. by apply Hnone in Hh. }
    destruct Hset as (this' & Hthis' & _).
    split; (split; [intros _; eauto|done]).
  - assert (Hhas : Environment.has name this = false) by by apply Hnone.
    rewrite Hhas. split; (split; [done|]).
    + intros [b Hb]. congruence.
    + intros [this' Hthis']. congruence.
Qed.

(** ** Equality *)

Lemma SFeqb_sym (x y : spec_float) : SFeqb x y = SFeqb y x.
Proof.
  unfold SFeqb, SFcompare.
  destruct x as [[]|[]| |[] mx ex], y as [[]|[]| |[] my ey]; try reflexivity;
    rewrite (Z.compare_antisym ey ex);
    destruct (ey ?= ex)%Z; simpl; try reflexivity;
    change (Pos.compare_cont Eq mx my) with (mx ?= my)%positive;
    change (Pos.compare_cont Eq my mx) with (my ?= mx)%positive;
    rewrite (Pos.compare_antisym my mx);
    destruct (my ?= mx)%positive; reflexivity.
Qed.

Lemma numEq_sym (a b : number) : numEq a b = numEq b a.
Proof.
  destruct a as [x|f], b as [y|g]; simpl.
  - apply Z.eqb_sym.
  - rewrite !FloatAxioms.eqb_spec. apply SFeqb_sym.
  - rewrite !FloatAxioms.eqb_spec. apply SFeqb_sym.
  - rewrite !FloatAxioms.eqb_spec. apply SFeqb_sym.
Qed.

Lemma numEq_refl (a : number) : isNaN a = false -> numEq a a = true.
Proof.
  destruct a as [x|f]; simpl.
  - intros _. apply Z.eqb_refl.
  - unfold is_nan. by intros ->%negb_false_iff.
Qed.

Lemma strictEquals_sym (l r : VoidValue) : strictEquals l r = strictEquals r l.
Proof.
  destruct l, r; simpl; try reflexivity.
  - by destruct b, b0.
  - apply numEq_sym.
  - apply String.eqb_sym.
  - apply Nat.eqb_sym.
  - apply Nat.eqb_sym.
Qed.

(** [areEqual] does not depend on the order of its operands: whenever it
    gives an answer for [left] and [right], it gives the same answer for
    [right] and [left].  So [==] and [!=] commute, and a key is found
    whichever side of the comparison it is on. *)
Theorem areEqual_symmetric (h : Heap) (l r : VoidValue) (b : bool) :
  areEqual h l r = Ok b -> areEqual h r l = Ok b.
Proof.
  unfold areEqual.
  destruct (decide (typeof l = typeof r)) as [Hty|Hty].
  - rewrite !bool_decide_eq_true_2 by done.
    intros [= <-]. by rewrite strictEquals_sym.
  - assert (Hty' : typeof r <> typeof l) by (intros H; by apply Hty).
    rewrite (bool_decide_eq_false_2 _ Hty), (bool_decide_eq_false_2 _ Hty').
    rewrite (andb_comm (_ || _) (_ || _)).
    destruct ((bool_decide (typeof r = TBoolean) || bool_decide (typeof r = TNumber))
              && (bool_decide (typeof l = TBoolean) || bool_decide (typeof l = TNumber))).
    + destruct (toNumber l) as [x| |], (toNumber r) as [y| |]; simpl; try discriminate.
      intros [= <-]. by rewrite numEq_sym.
    + destruct (stringify h l) as [x| |], (stringify h r) as [y| |]; simpl;
        try discriminate.
      intros [= <-]. by rewrite String.eqb_sym.
Qed.

(** The theorem at the string ["1"] and the number 1, which are equal
    through their texts. *)
Lemma areEqual_symmetric_witness :
  areEqual [] (VNum (NInt 1)) (VStr "1") = Ok true.
Proof.
  apply (areEqual_symmetric [] (VStr "1") (VNum (NInt 1)) true). reflexivity.
Defined.

Lemma areEqual_self (h : Heap) (v : VoidValue) :
  areEqual h v v = Ok (match v with VNum n => negb (isNaN n) | _ => true end).
Proof.
  unfold areEqual. rewrite bool_decide_eq_true_2 by done. f_equal.
  destruct v as [| |b|n|s|r|r]; simpl; try reflexivity.
  - by destruct b.
  - destruct (isNaN n) eqn:Hn; simpl; [|by apply numEq_refl].
    destruct n as [z|f]; [discriminate|]. simpl in *.
    unfold is_nan in Hn. by apply negb_true_iff in Hn.
  - apply String.eqb_refl.
  - apply Nat.eqb_refl.
  - apply Nat.eqb_refl.
Qed.

(** Every value is equal to itself, references included, except the number
    NaN, which is equal to nothing: a NaN key of a dict is never found. *)
Theorem areEqual_reflexive_but_for_NaN (h : Heap) (v : VoidValue) (count : nat) :
  areEqual h v v = Ok (match v with VNum n => negb (isNaN n) | _ => true end)
  /\ findDictKeyFrom h (replicate count (VNum NaN)) (VNum NaN) 0 = Ok None.
Proof.
  split.
  - apply areEqual_self.
  - apply findDictKeyFrom_absent. intros k Hk.
    apply elem_of_replicate in Hk as [-> _]. reflexivity.
Qed.

(** ** Indexing *)

Lemma resolveIndex_int (i : Z) (len : nat) :
  isSafe i = true -> Z.of_nat len <= MAX_SAFE_INTEGER ->
  resolveIndex (NInt i) len
  = match position i len with
    | Some k => Ok (NInt (Z.of_nat k))
    | None => Fail (RuntimeError IndexOutOfBounds)
    end.
Proof.
  intros Hi Hlen. unfold isSafe in Hi. apply andb_prop in Hi as [Hlo Hhi].
  apply Z.leb_le in Hlo, Hhi.
  unfold resolveIndex, position, numGe. cbn [numLt].
  destruct (Z.ltb_spec i 0) as [Hneg|Hneg].
  - assert (Hsafe : isSafe (Z.of_nat len + i) = true).
    { unfold isSafe. apply andb_true_intro. split; apply Z.leb_le;
        unfold MAX_SAFE_INTEGER in *; lia. }
    unfold numAdd, ofZ. rewrite Hsafe. cbn [numLt numLe].
    destruct (Z.ltb_spec (Z.of_nat len + i) 0),
             (Z.leb_spec (Z.of_nat len) (Z.of_nat len + i)),
             (Z.leb_spec 0 i), (Z.leb_spec (- Z.of_nat len) i);
      simpl; try lia; try reflexivity.
    by rewrite Z2Nat.id by lia.
  - cbn [numLt numLe].
    destruct (Z.ltb_spec i 0), (Z.leb_spec (Z.of_nat len) i), (Z.leb_spec 0 i),
             (Z.ltb_spec i (Z.of_nat len)), (Z.leb_spec (- Z.of_nat len) i);
      simpl; try lia; try reflexivity.
    by rewrite Z2Nat.id by lia.
Qed.

Lemma position_lt (i : Z) (len k : nat) : position i len = Some k -> (k < len)%nat.
Proof.
  unfold position.
  destruct ((0 <=? i) && (i <? Z.of_nat len)) eqn:H1.
  - apply andb_prop in H1 as [?%Z.leb_le ?%Z.ltb_lt]. intros [= <-]. lia.
  - destruct ((- Z.of_nat len <=? i) && (i <? 0)) eqn:H2; [|discriminate].
    apply andb_prop in H2 as [?%Z.leb_le ?%Z.ltb_lt]. intros [= <-]. lia.
Qed.

(** [obj[i]] with an integer [i]: on a list and on a string alike, an index
    from 0 to the length reads that position, an index from minus the
    length to -1 reads from the end, and every other index, so any index
    into an empty list or string, is the fatal "index out of bounds". *)
Theorem index_access_by_position
    (objExpr idxExpr : ASTNode) (st st1 st2 : State) (obj : VoidValue) (i : Z) :
  executeNode objExpr st = Done obj st1 ->
  executeNode idxExpr st1 = Done (VNum (NInt i)) st2 ->
  isSafe i = true ->
  (forall ref,
      obj = VList ref ->
      let elements := elementsOf (heap st2) ref in
      Z.of_nat (List.length elements) <= MAX_SAFE_INTEGER ->
      executeNode (IndexAccess objExpr idxExpr) st
      = match position i (List.length elements) with
        | Some k => Done (nth k elements VUndefined) st2
        | None => Throw (RuntimeError IndexOutOfBounds) st2
        end)
  /\ (forall s,
        obj = VStr s ->
        Z.of_nat (String.length s) <= MAX_SAFE_INTEGER ->
        executeNode (IndexAccess objExpr idxExpr) st
        = match position i (String.length s) with
          | Some k =>
              Done (match String.get k s with
                    | Some ch => VStr (String ch EmptyString)
                    | None => VUndefined
                    end) st2
          | None => Throw (RuntimeError IndexOutOfBounds) st2
          end).
Proof.
  intros Hobj Hidx Hi. split.
  - intros ref -> elements Hlen.
    cbn [executeNode]. unfold executeIndexAccess, bind. rewrite Hobj, Hidx.
    unfold getHeap, liftResult. cbn [toNumber]. fold elements.
    rewrite (resolveIndex_int i _ Hi Hlen).
    destruct (position i (List.length elements)) as [k|]; [|reflexivity].
    unfold ret, arrayAt. simpl.
    replace (Z.of_nat k <? 0) with false by (symmetry; apply Z.ltb_ge; lia).
    by rewrite Nat2Z.id.
  - intros s -> Hlen.
    cbn [executeNode]. unfold executeIndexAccess, bind. rewrite Hobj, Hidx.
    unfold getHeap, liftResult. cbn [toNumber].
    rewrite (resolveIndex_int i _ Hi Hlen).
    destruct (position i (String.length s)) as [k|]; [|reflexivity].
    unfold ret, stringAt. simpl.
    replace (Z.of_nat k <? 0) with false by (symmetry; apply Z.ltb_ge; lia).
    by rewrite Nat2Z.id.
Qed.

(** The theorem at [[10, 20, 30][-1]]. *)
Lemma index_access_by_position_witness :
  executeNode (IndexAccess (ListLiteral [lit 10; lit 20; lit 30]) (lit (-1)))
    (initialState [])
  = Done (VNum (NInt 30))
      (withHeap (initialState [])
         [ListObject [VNum (NInt 10); VNum (NInt 20); VNum (NInt 30)]]).
Proof.
  apply (proj1 (index_access_by_position
                  (ListLiteral [lit 10; lit 20; lit 30]) (lit (-1))
                  (initialState [])
                  (withHeap (initialState [])
                     [ListObject [VNum (NInt 10); VNum (NInt 20); VNum (NInt 30)]])
                  (withHeap (initialState [])
                     [ListObject [VNum (NInt 10); VNum (NInt 20); VNum (NInt 30)]])
                  (VList 0) (-1) eq_refl eq_refl eq_refl) 0%nat eq_refl).
  vm_compute. discriminate.
Defined.

(** ** The methods of lists and dicts *)

Lemma splice1_position {A} (k : nat) (arr : list A) :
  splice1 (NInt (Z.of_nat k)) arr = Ok (delete k arr).
Proof.
  unfold splice1. cbn [toInteger].
  replace (Z.of_nat k <? 0) with false by (symmetry; apply Z.ltb_ge; lia).
  by rewrite Nat2Z.id, delete_take_drop.
Qed.

(** [x.delete:list(i)] with an integer [i] removes the element at the
    position [i] names, counted from the end when negative, and keeps the
    others in their order; an index outside the list is the fatal "index
    out of bounds" and leaves the list as it was. *)
Theorem delete_list_by_position
    (x : string) (idxExpr : ASTNode) (st st1 : State)
    (variable : Binding) (ref : nat) (i : Z) :
  Environment.get x (env st) = inr variable ->
  value variable = VList ref ->
  executeNode idxExpr st = Done (VNum (NInt i)) st1 ->
  isSafe i = true ->
  let elements := elementsOf (heap st1) ref in
  Z.of_nat (List.length elements) <= MAX_SAFE_INTEGER ->
  executeNode (MethodCall x "delete" "list" [idxExpr]) st
  = match position i (List.length elements) with
    | Some k =>
        Done VNull (withHeap st1 (<[ref := ListObject (delete k elements)]> (heap st1)))
    | None => Throw (RuntimeError IndexOutOfBounds) st1
    end.
Proof.
  intros Hget Hlist Hidx Hi elements Hlen. cbn.
  unfold executeMethodCall, envGet, bind, getEnv, liftEnv. rewrite Hget. cbn.
  unfold executeMethodDelete. cbn. rewrite Hlist.
  unfold bind. rewrite Hidx. unfold getHeap, liftResult. cbn [toNumber].
  fold elements. rewrite (resolveIndex_int i _ Hi Hlen).
  destruct (position i (List.length elements)) as [k|]; [|reflexivity].
  by rewrite splice1_position.
Qed.

(** The theorem at [L.delete:list(-3)] on the list [[10, 20, 30]]. *)
Lemma delete_list_by_position_witness :
  executeNode (MethodCall "L" "delete" "list" [lit (-3)]) listState
  = Done VNull (withHeap listState [ListObject [VNum (NInt 20); VNum (NInt 30)]]).
Proof.
  apply (delete_list_by_position "L" (lit (-3)) listState listState
           (MkVariable "list" (VList 0)) 0 (-3) eq_refl eq_refl eq_refl eq_refl).
  vm_compute. discriminate.
Defined.



Lemma plain_scalar (v : VoidValue) : plain v -> scalar v.
Proof. by destruct v. Qed.

Lemma areEqual_plain (h : Heap) (l r : VoidValue) :
  plain l -> plain r -> exists b, areEqual h l r = Ok b.
Proof.
  destruct l as [| |bl|[zl|fl]|sl|rl|rl], r as [| |br|[zr|fr]|sr|rr|rr];
    intros Hl Hr; try done; unfold areEqual; simpl; eauto;
    unfold stringify; simpl;
    repeat match goal with
           | |- context [stringToNumber ?s] => destruct (stringToNumber s) as [[]|]
           | |- context [if ?c then _ else _] => destruct c
           end; simpl; eauto.
Qed.

Lemma findDictKeyFrom_plain (h : Heap) (key : VoidValue) (keys : list VoidValue) :
  Forall plain keys -> plain key ->
  forall n, exists found, findDictKeyFrom h keys key n = Ok found.
Proof.
  intros Hkeys Hkey. induction Hkeys as [|k keys Hk Hkeys IH]; intros n; simpl.
  - eauto.
  - destruct (areEqual_plain h k key Hk Hkey) as [[] ->]; simpl; eauto.
Qed.

Lemma findDictKeyFrom_scalar (h h' : Heap) (key : VoidValue) (keys : list VoidValue) :
  Forall scalar keys -> scalar key ->
  forall n, findDictKeyFrom h keys key n = findDictKeyFrom h' keys key n.
Proof.
  intros Hkeys Hkey. induction Hkeys as [|k keys Hk Hkeys IH]; intros n; simpl.
  - reflexivity.
  - rewrite (areEqual_scalar h h' k key Hk Hkey).
    destruct (areEqual h' k key) as [[]| |]; simpl; [done|apply IH|done|done].
Qed.

Lemma findDictKeyFrom_found_inv (h : Heap) (key : VoidValue) (keys : list VoidValue) :
  forall n m : nat,
    findDictKeyFrom h keys key n = Ok (Some m) ->
    exists i k, m = (n + i)%nat /\ keys !! i = Some k /\ areEqual h k key = Ok true.
Proof.
  induction keys as [|k0 keys IH]; intros n m Hfind; [done|].
  simpl in Hfind. destruct (areEqual h k0 key) as [[]| |] eqn:Hk0; try done.
  - injection Hfind as <-. exists O, k0. by rewrite Nat.add_0_r.
  - destruct (IH (S n) m Hfind) as (i & k & -> & Hi & Hk).
    exists (S i), k. split; [lia|done].
Qed.

(** [x.add:dict(k: v)] followed by [x[k]] reads [v] back, whether the key
    was there before or not, on a dict of plain keys whose keys and values
    are as many. *)
Theorem add_dict_then_index
    (x : string) (keyExpr valueExpr : ASTNode) (st : State)
    (variable : Binding) (dict : nat) (key v : VoidValue) :
  Environment.get x (env st) = inr variable ->
  value variable = VDict dict ->
  (forall s, executeNode keyExpr s = Done key s) ->
  (forall s, executeNode valueExpr s = Done v s) ->
  (dict < List.length (heap st))%nat ->
  Forall plain (keysOf (heap st) dict) ->
  plain key ->
  List.length (keysOf (heap st) dict) = List.length (valuesOf (heap st) dict) ->
  exists st',
    executeNode (MethodCall x "add" "dict" [keyExpr; valueExpr]) st = Done VNull st'
    /\ executeNode (IndexAccess (Identifier x) keyExpr) st' = Done v st'
    /\ List.length (keysOf (heap st') dict) = List.length (valuesOf (heap st') dict).
Proof.
  intros Hget Hdict Hkey Hval Hlt Hkeys Hplain Hlen.
  set (h := heap st) in *. set (keys := keysOf h dict) in *.
  set (values := valuesOf h dict) in *.
  destruct (findDictKeyFrom_plain h key keys Hkeys Hplain 0) as [found Hfound].
  set (stored := match found with
                 | Some i => DictObject keys (<[i := v]> values)
                 | None => DictObject (keys ++ [key]) (values ++ [v])
                 end).
  assert (Hscalar : Forall scalar keys)
    by (eapply Forall_impl; [exact Hkeys|apply plain_scalar]).
  assert (Hself : areEqual (<[dict := stored]> h) key key = Ok true).
  { rewrite areEqual_self. by destruct key as [| | |[]| | |]. }
  exists (withHeap st (<[dict := stored]> h)). split; [|split].
  - cbn. unfold executeMethodCall, envGet, bind, getEnv, liftEnv. rewrite Hget. cbn.
    unfold executeMethodAdd. cbn. rewrite Hdict.
    unfold bind. rewrite Hkey, Hval. unfold getHeap, liftResult.
    fold h. unfold findDictKey. fold keys values. rewrite Hfound.
    destruct found; reflexivity.
  - cbn. unfold executeIndexAccess, executeIdentifier, envGet, bind, getEnv, liftEnv.
    cbn. rewrite Hget. cbn. rewrite Hdict, Hkey. unfold getHeap, liftResult. cbn.
    unfold findDictKey, keysOf at 1, valuesOf at 1.
    rewrite list_lookup_insert_eq by done.
    unfold stored. destruct found as [m|].
    + rewrite <- (findDictKeyFrom_scalar h _ key keys Hscalar (plain_scalar _ Hplain)).
      rewrite Hfound.
      destruct (findDictKeyFrom_found_inv h key keys 0 m Hfound)
        as (i & k & -> & Hi & _).
      apply lookup_lt_Some in Hi. simpl.
      unfold ret. f_equal. apply nth_lookup_Some.
      apply list_lookup_insert_eq. fold keys in Hlen. lia.
    + rewrite (findDictKeyFrom_found _ key (keys ++ [key]) 0 (List.length keys) key).
      * simpl. unfold ret. f_equal. apply nth_lookup_Some.
        fold keys values in Hlen. rewrite Hlen. apply list_lookup_middle. done.
      * by apply list_lookup_middle.
      * exact Hself.
      * intros j kj Hj Hkj. rewrite lookup_app_l in Hkj by done.
        assert (Hin : kj ∈ keys) by (by eapply list_elem_of_lookup_2).
        rewrite <- (areEqual_scalar h).
        -- by apply (findDictKeyFrom_absent_inv h key keys 0 Hfound).
        -- by apply (proj1 (Forall_forall _ _) Hscalar).
        -- by apply plain_scalar.
  - cbn. unfold keysOf, valuesOf. rewrite list_lookup_insert_eq by done.
    unfold stored. destruct found as [m|].
    + rewrite length_insert. exact Hlen.
    + rewrite !length_app. simpl. fold keys values in Hlen. lia.
Qed.

(** The theorem at [D.add:dict('c': 3)] on the dict [{a:1, b:2}]. *)
Lemma add_dict_then_index_witness :
  exists st',
    executeNode (MethodCall "D" "add" "dict" [StringLiteral "c"; lit 3]) dictState
    = Done VNull st'
    /\ executeNode (IndexAccess (Identifier "D") (StringLiteral "c")) st'
       = Done (VNum (NInt 3)) st'
    /\ List.length (keysOf (heap st') 0) = List.length (valuesOf (heap st') 0).
Proof.
  apply (add_dict_then_index "D" (StringLiteral "c") (lit 3) dictState
           (MkVariable "dict" (VDict 0)) 0 (VStr "c") (VNum (NInt 3))
           eq_refl eq_refl (fun _ => eq_refl) (fun _ => eq_refl)).
  - simpl. lia.
  - repeat constructor.
  - exact Logic.I.
  - reflexivity.
Defined.

(** ** Lists are shared, not copied *)

(** [create:list y = x] makes [y] a second name of the list of [x]: an
    element added through [y] is an element of the list [x] reads, whose
    other elements are unchanged. *)
Theorem list_alias_shares_elements
    (x y : string) (e : ASTNode) (st : State)
    (variable : Binding) (ref : nat) (v : VoidValue) :
  Environment.get x (env st) = inr variable ->
  value variable = VList ref ->
  Environment.variables (env st) !! y = None ->
  (forall s, executeNode e s = Done v s) ->
  (ref < List.length (heap st))%nat ->
  exists st1 st2,
    executeNode (CreateVar "list" y (Identifier x)) st = Done (VList ref) st1
    /\ executeNode (MethodCall y "add" "list" [e]) st1 = Done VNull st2
    /\ executeNode (Identifier x) st2 = Done (VList ref) st2
    /\ elementsOf (heap st2) ref = (elementsOf (heap st) ref ++ [v])%list.
Proof.
  intros Hget Hlist Hfree He Hlt.
  destruct st as [[vs p] h input output]. simpl in *.
  set (e1 := Environment.Env (<[y := MkVariable "list" (VList ref)]> vs) p).
  set (h2 := <[ref := ListObject (elementsOf h ref ++ [v])]> h).
  assert (Hx : Environment.get x e1 = inr (MkVariable (if decide (x = y) then "list"
                                                         else type variable)
                                                        (VList ref))).
  { unfold e1. simpl. destruct (decide (x = y)) as [->|Hxy].
    - by rewrite lookup_insert_eq.
    - rewrite lookup_insert_ne by done. simpl in Hget. rewrite Hget.
      destruct variable. simpl in *. by subst. }
  exists (MkState e1 h input output), (MkState e1 h2 input output).
  repeat split.
  - cbn. unfold executeCreateVar, executeIdentifier, envGet, bind, getEnv, liftEnv.
    cbn. rewrite Hget. cbn. rewrite Hlist. cbn.
    unfold envDefine, bind, getEnv, liftEnv, Environment.define. cbn.
    by rewrite Hfree.
  - cbn. unfold executeMethodCall, envGet, bind, getEnv, liftEnv. cbn.
    rewrite lookup_insert_eq. cbn. unfold executeMethodAdd. cbn.
    unfold bind. by rewrite He.
  - cbn. unfold executeIdentifier, envGet, bind, getEnv, liftEnv.
    cbn [env]. by rewrite Hx.
  - cbn. unfold h2, elementsOf at 1. by rewrite list_lookup_insert_eq.
Qed.

(** The theorem at [create:list M = L; M.add:list(40)] on the list
    [[10, 20, 30]] of [L]. *)
Lemma list_alias_shares_elements_witness :
  exists st1 st2,
    executeNode (CreateVar "list" "M" (Identifier "L")) listState = Done (VList 0) st1
    /\ executeNode (MethodCall "M" "add" "list" [lit 40]) st1 = Done VNull st2
    /\ executeNode (Identifier "L") st2 = Done (VList 0) st2
    /\ elementsOf (heap st2) 0 = (elementsOf (heap listState) 0 ++ [VNum (NInt 40)])%list.
Proof.
  apply (list_alias_shares_elements "L" "M" (lit 40) listState
           (MkVariable "list" (VList 0)) 0 (VNum (NInt 40))
           eq_refl eq_refl eq_refl (fun _ => eq_refl)).
  simpl. lia.
Defined.

(** [l + r] on two lists makes a new list holding the elements of [l]
    followed by those of [r]; the lists of [l] and [r], and every other
    object, stay as they were. *)
Theorem list_concatenation_is_a_new_list
    (l r : ASTNode) (st st1 st2 : State) (a b : nat) :
  executeNode l st = Done (VList a) st1 ->
  executeNode r st1 = Done (VList b) st2 ->
  exists st',
    executeNode (BinaryExpr "+" l r) st = Done (VList (List.length (heap st2))) st'
    /\ elementsOf (heap st') (List.length (heap st2))
       = (elementsOf (heap st2) a ++ elementsOf (heap st2) b)%list
    /\ (forall ref, (ref < List.length (heap st2))%nat ->
          heap st' !! ref = heap st2 !! ref)
    /\ env st' = env st2.
Proof.
  intros Hl Hr.
  exists (withHeap st2
            (heap st2 ++ [ListObject (elementsOf (heap st2) a ++ elementsOf (heap st2) b)])).
  repeat split.
  - cbn. unfold executeBinaryExpr, bind. rewrite Hl, Hr. reflexivity.
  - cbn. unfold elementsOf at 1. by rewrite list_lookup_middle.
  - intros ref Href. cbn. by rewrite lookup_app_l.
Qed.

(** The theorem at [L + L] on the list [[10, 20, 30]] of [L]. *)
Lemma list_concatenation_is_a_new_list_witness :
  exists st',
    executeNode (BinaryExpr "+" (Identifier "L") (Identifier "L")) listState
    = Done (VList 1) st'
    /\ elementsOf (heap st') 1
       = (elementsOf (heap listState) 0 ++ elementsOf (heap listState) 0)%list
    /\ (forall ref, (ref < 1)%nat -> heap st' !! ref = heap listState !! ref)
    /\ env st' = env listState.
Proof.
  apply (list_concatenation_is_a_new_list (Identifier "L") (Identifier "L")
           listState listState listState 0 0 eq_refl eq_refl).
Defined.

(** ** Properties kept by every execution

    The tree walk keeps a property of the state as soon as the few
    methods that write to the environment, the heap or the console keep
    it.  The property may depend on an index, which a new scope changes. *)

Lemma preserves_ret {A} (P : State -> Prop) (a : A) : preserves P (ret a).
Proof. intros st a' st' HP [= <- <-]. exact HP. Qed.

Lemma preserves_throw {A} (P : State -> Prop) (e : Error) :
  preserves P (@throw State Error A e).
Proof. intros st a st' _ H. discriminate H. Qed.

Lemma preserves_hostDefined {A} (P : State -> Prop) (w : string) :
  preserves P (@hostDefined State Error A w).
Proof. intros st a st' _ H. discriminate H. Qed.

Lemma preserves_outOfFuel {A} (P : State -> Prop) :
  preserves P (@outOfFuel State Error A).
Proof. intros st a st' _ H. discriminate H. Qed.

Lemma preserves_bind {A B} (P : State -> Prop) (m : I A) (k : A -> I B) :
  preserves P m -> (forall a, preserves P (k a)) -> preserves P (bind m k).
Proof.
  intros Hm Hk st b st' HP. unfold bind.
  destruct (m st) as [a s1| | |] eqn:Hms; try discriminate.
  apply (Hk a). by apply (Hm st a).
Qed.

Lemma preserves_ext {A} (P : State -> Prop) (m m' : I A) :
  (forall st, m st = m' st) -> preserves P m' -> preserves P m.
Proof. intros Heq Hm st a st' HP Hrun. rewrite Heq in Hrun. by apply (Hm st a). Qed.

Lemma preserves_liftResult {A} (P : State -> Prop) (r : result A) :
  preserves P (liftResult r).
Proof. intros st a st' HP. destruct r; simpl; intros [= <- <-] || discriminate. done. Qed.

Lemma preserves_liftEnv {A} (P : State -> Prop) (r : Error + A) :
  preserves P (liftEnv r).
Proof. intros st a st' HP. destruct r; simpl; intros [= <- <-] || discriminate. done. Qed.

Lemma preserves_getHeap (P : State -> Prop) : preserves P getHeap.
Proof. intros st a st' HP [= <- <-]. exact HP. Qed.

Lemma preserves_getEnv (P : State -> Prop) : preserves P getEnv.
Proof. intros st a st' HP [= <- <-]. exact HP. Qed.

Create HintDb preserves.

#[local] Hint Resolve preserves_ret preserves_throw preserves_hostDefined
  preserves_outOfFuel preserves_liftResult preserves_liftEnv preserves_getHeap
  preserves_getEnv : preserves.

(** Splits a goal [preserves P m] along the structure of [m]. *)
Ltac preserves_step :=
  lazymatch goal with
  | |- preserves _ (bind _ _) => apply preserves_bind; [|intros ?]
  | |- preserves _ (if ?b then _ else _) => destruct b
  | |- preserves _ (match ?x with _ => _ end) => destruct x
  | |- preserves _ _ =>
      repeat match goal with
             | H : Forall _ (_ :: _) |- _ => inversion H; subst; clear H
             end;
      solve [auto with preserves]
  end.

Ltac preserves_auto := repeat preserves_step.

Lemma preserves_envGet (P : State -> Prop) (name : string) : preserves P (envGet name).
Proof. unfold envGet. preserves_auto. Qed.

Lemma preserves_sequence {A} (P : State -> Prop) (ms : list (I A)) :
  Forall (preserves P) ms -> preserves P (sequence ms).
Proof. induction 1 as [|m ms Hm _ IH]; simpl; preserves_auto. Qed.

Lemma preserves_runStatements (P : State -> Prop) (statements : list (I VoidValue)) :
  Forall (preserves P) statements ->
  forall result, preserves P (runStatements statements result).
Proof. induction 1 as [|m ms Hm _ IH]; intros result; simpl; preserves_auto. Qed.

Lemma preserves_evalEntries (P : State -> Prop)
    (entries : list (I VoidValue * I VoidValue)) :
  Forall (fun kv => preserves P (fst kv) /\ preserves P (snd kv)) entries ->
  preserves P (evalEntries entries).
Proof. induction 1 as [|[k v] ms [Hk Hv] _ IH]; simpl in *; preserves_auto. Qed.

Lemma preserves_whileLoop (P : State -> Prop) (condition body : I VoidValue) :
  preserves P condition -> preserves P body ->
  forall fuel iterations, preserves P (whileLoop fuel condition body iterations).
Proof.
  intros Hc Hb. induction fuel as [|fuel IH]; intros iterations; simpl; preserves_auto.
Qed.

Lemma preserves_forLoop (P : State -> Prop) (condition body : I VoidValue)
    (update : option (I VoidValue)) :
  preserves P condition -> preserves P body -> preserves P (runUpdate update) ->
  forall fuel iterations, preserves P (forLoop fuel condition update body iterations).
Proof.
  intros Hc Hb Hu. destruct update as [run|]; simpl in Hu;
    (induction fuel as [|fuel IH]; intros iterations; simpl; preserves_auto).
Qed.

#[local] Hint Resolve preserves_envGet preserves_sequence preserves_runStatements
  preserves_evalEntries preserves_whileLoop preserves_forLoop : preserves.

Lemma executeFor_scoped (init : option (I VoidValue)) (condition : I VoidValue)
    (update : option (I VoidValue)) (body : list (I VoidValue)) (st : State) :
  executeFor init condition update body st
  = scopedRun (runUpdate init ;;;
               forLoop loopFuel condition update (executeBlock body) 0 ;;;
               ret VNull) st.
Proof.
  unfold executeFor, scopedRun, bind.
  destruct (pushEnvironment st) as [[] s1| | |]; try reflexivity.
  generalize (forLoop loopFuel condition update (executeBlock body) 0). intros loop.
  destruct init as [run|]; cbn [runUpdate].
  - destruct (run s1) as [r s2| | |]; try reflexivity. unfold ret at 1.
    destruct (loop s2) as [n s3| | |]; reflexivity.
  - unfold ret at 1 3.
    destruct (loop s1) as [n s3| | |]; reflexivity.
Qed.

Section Preservation.

Context {Idx : Type} (Inv : Idx -> State -> Prop).

Hypothesis Inv_consoleLog : forall i ev, preserves (Inv i) (consoleLog ev).
Hypothesis Inv_question : forall i prompt, preserves (Inv i) (question prompt).
Hypothesis Inv_scopedRun :
  forall (m : I VoidValue),
    (forall i, preserves (Inv i) m) -> forall i, preserves (Inv i) (scopedRun m).
Hypothesis Inv_executeCreateVar :
  forall i varType name valueExpr,
    preserves (Inv i) valueExpr ->
    preserves (Inv i) (executeCreateVar varType name valueExpr).
Hypothesis Inv_executeAssignVar :
  forall i name valueExpr,
    preserves (Inv i) valueExpr -> preserves (Inv i) (executeAssignVar name valueExpr).
Hypothesis Inv_executeListLiteral :
  forall i elements,
    Forall (preserves (Inv i)) elements -> preserves (Inv i) (executeListLiteral elements).
Hypothesis Inv_executeDictLiteral :
  forall i entries,
    Forall (fun kv => preserves (Inv i) (fst kv) /\ preserves (Inv i) (snd kv)) entries ->
    preserves (Inv i) (executeDictLiteral entries).
Hypothesis Inv_executeMethodCall :
  forall i object method collectionType args,
    Forall (preserves (Inv i)) args ->
    preserves (Inv i) (executeMethodCall object method collectionType args).
Hypothesis Inv_binaryOperation :
  forall i operator h l r, preserves (Inv i) (binaryOperation operator h l r).

Lemma preserves_executeBlock (statements : list (I VoidValue)) :
  (forall i, Forall (preserves (Inv i)) statements) ->
  forall i, preserves (Inv i) (executeBlock statements).
Proof.
  intros H. apply (Inv_scopedRun (runStatements statements VNull)).
  intros i. by apply preserves_runStatements.
Qed.

Lemma preserves_executeIf (condition : I VoidValue) (thenBranch : list (I VoidValue))
    (elseBranch : option (I VoidValue)) :
  (forall i, preserves (Inv i) condition) ->
  (forall i, Forall (preserves (Inv i)) thenBranch) ->
  (forall i run, elseBranch = Some run -> preserves (Inv i) run) ->
  forall i, preserves (Inv i) (executeIf condition thenBranch elseBranch).
Proof.
  intros Hc Ht He i. unfold executeIf.
  apply preserves_bind; [apply Hc|intros c].
  apply preserves_bind; [apply preserves_getHeap|intros h].
  destruct (isTruthy h c); [by apply preserves_executeBlock|].
  destruct elseBranch as [run|]; [by apply He|apply preserves_ret].
Qed.

Lemma preserves_executeWhile (condition : I VoidValue) (body : list (I VoidValue)) :
  (forall i, preserves (Inv i) condition) ->
  (forall i, Forall (preserves (Inv i)) body) ->
  forall i, preserves (Inv i) (executeWhile condition body).
Proof.
  intros Hc Hb i. unfold executeWhile.
  apply preserves_bind; [|intros _; apply preserves_ret].
  apply preserves_whileLoop; [apply Hc|by apply preserves_executeBlock].
Qed.

Lemma preserves_executeFor (init : option (I VoidValue)) (condition : I VoidValue)
    (update : option (I VoidValue)) (body : list (I VoidValue)) :
  (forall i, preserves (Inv i) (runUpdate init)) ->
  (forall i, preserves (Inv i) condition) ->
  (forall i, preserves (Inv i) (runUpdate update)) ->
  (forall i, Forall (preserves (Inv i)) body) ->
  forall i, preserves (Inv i) (executeFor init condition update body).
Proof.
  intros Hi Hc Hu Hb i.
  eapply preserves_ext; [apply executeFor_scoped|].
  apply Inv_scopedRun. intros j.
  apply preserves_bind; [apply Hi|intros _].
  apply preserves_bind; [|intros _; apply preserves_ret].
  apply preserves_forLoop; [apply Hc|by apply preserves_executeBlock|apply Hu].
Qed.

(** Every execution of every node keeps the property. *)
Lemma preserves_executeNode :
  forall (node : ASTNode) (i : Idx), preserves (Inv i) (executeNode node).
Proof.
  fix IH 1. intros node.
  assert (Hall : forall nodes i, (forall n, n ∈ nodes -> forall j, preserves (Inv j) (executeNode n)) ->
                   Forall (preserves (Inv i)) (map executeNode nodes)).
  { intros nodes i Hnodes. apply Forall_forall. intros m Hm.
    apply list_elem_of_fmap in Hm as (n & -> & Hn). by apply Hnodes. }
  destruct node as
    [body|statements|expressions|prompt|varType name valueExpr|name valueExpr
    |condition thenBranch elseBranch|condition body|init condition update body
    |operator l r|operator operand|n|n|s|b|name|name args|lo hi|elements
    |entries|object index|object method collectionType args];
    cbn [executeNode].
  - apply preserves_executeBlock. intros i.
    induction body; constructor; [apply IH|assumption].
  - apply preserves_executeBlock. intros i.
    induction statements; constructor; [apply IH|assumption].
  - intros i. unfold executeEcho.
    assert (Forall (preserves (Inv i)) (map executeNode expressions))
      by (induction expressions; constructor; [apply IH|assumption]).
    preserves_auto.
  - intros i. unfold executeWrite. pose proof (IH prompt i). preserves_auto.
  - intros i. apply Inv_executeCreateVar, IH.
  - intros i. apply Inv_executeAssignVar, IH.
  - apply preserves_executeIf.
    + apply IH.
    + intros i. induction thenBranch; constructor; [apply IH|assumption].
    + intros i run Hrun. destruct elseBranch as [e|]; [|discriminate].
      pose proof (IH e) as He.
      destruct e; injection Hrun as <-; try apply preserves_throw.
      * exact (He i).
      * exact (He i).
  - apply preserves_executeWhile; [apply IH|].
    intros i. induction body; constructor; [apply IH|assumption].
  - apply preserves_executeFor.
    + intros i. destruct init; simpl; [apply IH|apply preserves_ret].
    + apply IH.
    + intros i. destruct update; simpl; [apply IH|apply preserves_ret].
    + intros i. induction body; constructor; [apply IH|assumption].
  - intros i. unfold executeBinaryExpr.
    pose proof (IH l i). pose proof (IH r i). preserves_auto.
  - intros i. unfold executeUnaryExpr. pose proof (IH operand i). preserves_auto.
  - intros i. apply preserves_ret.
  - intros i. apply preserves_ret.
  - intros i. apply preserves_ret.
  - intros i. apply preserves_ret.
  - intros i. unfold executeIdentifier. preserves_auto.
  - intros i. unfold executeFunctionCall.
    assert (Forall (preserves (Inv i)) (map executeNode args))
      by (induction args; constructor; [apply IH|assumption]).
    preserves_auto.
  - intros i. unfold executeRandCall.
    pose proof (IH lo i). pose proof (IH hi i). preserves_auto.
  - intros i. apply Inv_executeListLiteral.
    induction elements; constructor; [apply IH|assumption].
  - intros i. apply Inv_executeDictLiteral.
    induction entries as [|[k v] entries IHentries]; constructor;
      [split; apply IH|assumption].
  - intros i. unfold executeIndexAccess.
    pose proof (IH object i). pose proof (IH index i). preserves_auto.
  - intros i. apply Inv_executeMethodCall.
    induction args; constructor; [apply IH|assumption].
Qed.

End Preservation.

(** *** Writes that leave the heap, or the environment, alone *)

Lemma preserves_same_heap {A} (P : State -> Prop) (m : I A) :
  (forall st st', heap st' = heap st -> P st -> P st') ->
  (forall st a st', m st = Done a st' -> heap st' = heap st) ->
  preserves P m.
Proof. intros HP Hm st a st' Hst Hrun. apply (HP st); [by apply (Hm st a)|done]. Qed.

Lemma preserves_same_env {A} (P : State -> Prop) (m : I A) :
  (forall st st', env st' = env st -> P st -> P st') ->
  (forall st a st', m st = Done a st' -> env st' = env st) ->
  preserves P m.
Proof. intros HP Hm st a st' Hst Hrun. apply (HP st); [by apply (Hm st a)|done]. Qed.

Lemma consoleLog_state (ev : OutputEvent) (st : State) (a : unit) (st' : State) :
  consoleLog ev st = Done a st' -> heap st' = heap st /\ env st' = env st.
Proof. by intros [= <- <-]. Qed.

Lemma question_state (prompt : string) (st : State) (a : string) (st' : State) :
  question prompt st = Done a st' -> heap st' = heap st /\ env st' = env st.
Proof. unfold question. destruct (stdin st); [discriminate|]. by intros [= <- <-]. Qed.

Lemma envSet_heap (name : string) (v : VoidValue) (st : State) (a : unit) (st' : State) :
  envSet name v st = Done a st' -> heap st' = heap st.
Proof.
  unfold envSet, bind, getEnv, liftEnv, putEnv.
  destruct (Environment.set name v (env st)); [discriminate|]. by intros [= <- <-].
Qed.

Lemma envDefine_heap (name ty : string) (v : VoidValue) (st : State) (a : unit)
    (st' : State) :
  envDefine name ty v st = Done a st' -> heap st' = heap st.
Proof.
  unfold envDefine, bind, getEnv, liftEnv, putEnv.
  destruct (Environment.define name ty v (env st)); [discriminate|]. by intros [= <- <-].
Qed.

Lemma pushEnvironment_heap (st : State) (a : unit) (st' : State) :
  pushEnvironment st = Done a st' -> heap st' = heap st.
Proof. by intros [= <- <-]. Qed.

Lemma popEnvironment_heap (st : State) (a : unit) (st' : State) :
  popEnvironment st = Done a st' -> heap st' = heap st.
Proof.
  unfold popEnvironment, bind, getEnv, putEnv, ret.
  destruct (Environment.parent (env st)); by intros [= <- <-].
Qed.

Lemma allocate_env (o : HeapObject) (st : State) (ref : nat) (st' : State) :
  allocate o st = Done ref st' -> env st' = env st.
Proof. by intros [= <- <-]. Qed.

Lemma store_env (ref : nat) (o : HeapObject) (st : State) (a : unit) (st' : State) :
  store ref o st = Done a st' -> env st' = env st.
Proof. by intros [= <- <-]. Qed.

(** ** Dicts keep as many values as keys *)

Section ParallelArrays.

Let P (_ : unit) (st : State) : Prop := dictsParallel (heap st).

Lemma parallel_heap (i : unit) (st st' : State) : heap st' = heap st -> P i st -> P i st'.
Proof. unfold P. by intros ->. Qed.

Lemma dictsParallel_insert (h : Heap) (ref : nat) (o : HeapObject) :
  dictsParallel h -> parallelObject o -> dictsParallel (<[ref := o]> h).
Proof.
  intros Hh Ho r. unfold keysOf, valuesOf.
  destruct (decide (r = ref)) as [->|Hr].
  - destruct (decide (ref < List.length h)%nat) as [Hlt|Hge].
    + rewrite list_lookup_insert_eq by done. by destruct o.
    + rewrite list_insert_ge by lia. apply (Hh ref).
  - rewrite list_lookup_insert_ne by done. apply (Hh r).
Qed.

Lemma dictsParallel_alloc (h : Heap) (o : HeapObject) :
  dictsParallel h -> parallelObject o -> dictsParallel (h ++ [o]).
Proof.
  intros Hh Ho r. unfold keysOf, valuesOf.
  destruct (decide (r < List.length h)%nat) as [Hlt|Hge].
  - rewrite lookup_app_l by done. apply (Hh r).
  - rewrite lookup_app_r by lia.
    destruct (r - List.length h)%nat as [|n]; simpl; [by destruct o|done].
Qed.

Lemma parallel_store (i : unit) (ref : nat) (o : HeapObject) :
  parallelObject o -> preserves (P i) (store ref o).
Proof. intros Ho st a st' HP [= <- <-]. by apply dictsParallel_insert. Qed.

Lemma parallel_allocate (i : unit) (o : HeapObject) :
  parallelObject o -> preserves (P i) (allocate o).
Proof. intros Ho st a st' HP [= <- <-]. by apply dictsParallel_alloc. Qed.

Lemma parallel_consoleLog (i : unit) (ev : OutputEvent) : preserves (P i) (consoleLog ev).
Proof.
  apply preserves_same_heap; [apply parallel_heap|].
  intros st a st' H. by apply consoleLog_state in H as [? _].
Qed.

Lemma parallel_question (i : unit) (prompt : string) : preserves (P i) (question prompt).
Proof.
  apply preserves_same_heap; [apply parallel_heap|].
  intros st a st' H. by apply question_state in H as [? _].
Qed.

Lemma parallel_envSet (i : unit) (name : string) (v : VoidValue) :
  preserves (P i) (envSet name v).
Proof. apply preserves_same_heap; [apply parallel_heap|apply envSet_heap]. Qed.

Lemma parallel_envDefine (i : unit) (name ty : string) (v : VoidValue) :
  preserves (P i) (envDefine name ty v).
Proof. apply preserves_same_heap; [apply parallel_heap|apply envDefine_heap]. Qed.

Lemma parallel_pushEnvironment (i : unit) : preserves (P i) pushEnvironment.
Proof. apply preserves_same_heap; [apply parallel_heap|apply pushEnvironment_heap]. Qed.

Lemma parallel_popEnvironment (i : unit) : preserves (P i) popEnvironment.
Proof. apply preserves_same_heap; [apply parallel_heap|apply popEnvironment_heap]. Qed.

Hint Resolve parallel_consoleLog parallel_question parallel_envSet parallel_envDefine parallel_pushEnvironment
  parallel_popEnvironment : preserves.
Hint Extern 1 (preserves (P _) (store _ _)) =>
  apply parallel_store; simpl; try done : preserves.
Hint Extern 1 (preserves (P _) (allocate _)) =>
  apply parallel_allocate; simpl; try done : preserves.

Lemma evalEntries_lengths (entries : list (I VoidValue * I VoidValue)) :
  forall st kvs st',
    evalEntries entries st = Done kvs st' ->
    List.length (fst kvs) = List.length (snd kvs).
Proof.
  induction entries as [|[k v] entries IH]; intros st kvs st'; simpl.
  - by intros [= <- <-].
  - unfold bind. destruct (k st) as [key s1| | |]; try discriminate.
    destruct (v s1) as [val s2| | |]; try discriminate.
    destruct (evalEntries entries s2) as [rest s3| | |] eqn:Hrest; try discriminate.
    intros [= <- <-]. simpl. f_equal. by apply (IH s2 rest s3).
Qed.

Lemma parallel_executeDictLiteral (i : unit) (entries : list (I VoidValue * I VoidValue)) :
  Forall (fun kv => preserves (P i) (fst kv) /\ preserves (P i) (snd kv)) entries ->
  preserves (P i) (executeDictLiteral entries).
Proof.
  intros H. unfold executeDictLiteral.
  apply preserves_bind; [auto with preserves|intros ref].
  intros st a st' HP. unfold bind.
  destruct (evalEntries entries st) as [kvs s1| | |] eqn:Hkvs; try discriminate.
  intros [= <- <-]. apply dictsParallel_insert.
  - by apply (preserves_evalEntries (P i) entries H st kvs s1).
  - by apply (evalEntries_lengths entries st kvs s1).
Qed.

Lemma parallel_executeMethodCall (i : unit) (object method collectionType : string)
    (args : list (I VoidValue)) :
  Forall (preserves (P i)) args ->
  preserves (P i) (executeMethodCall object method collectionType args).
Proof.
  intros H. unfold executeMethodCall.
  apply preserves_bind; [auto with preserves|intros variable].
  destruct (String.eqb method "add"); [|destruct (String.eqb method "delete");
    [|destruct (String.eqb method "clear"); [|apply preserves_throw]]].
  - unfold executeMethodAdd.
    destruct (String.eqb collectionType "list"); [preserves_auto|].
    destruct (String.eqb collectionType "dict"); [|apply preserves_ret].
    destruct (value variable); try apply preserves_throw.
    destruct args as [|keyArg [|valueArg [|]]]; try apply preserves_throw.
    inversion H as [|? ? Hk H']; subst. inversion H' as [|? ? Hv _]; subst.
    apply preserves_bind; [done|intros key].
    apply preserves_bind; [done|intros v].
    intros st a st' HP. unfold bind, getHeap, liftResult.
    destruct (findDictKey (heap st) ref key) as [[n|]| |]; try discriminate;
      intros [= <- <-]; apply dictsParallel_insert; try done; simpl.
    + rewrite length_insert. apply (HP ref).
    + rewrite !length_app. simpl. by rewrite (HP ref).
  - unfold executeMethodDelete.
    destruct (String.eqb collectionType "list"); [preserves_auto|].
    destruct (String.eqb collectionType "dict"); [|apply preserves_ret].
    destruct (value variable); try apply preserves_throw.
    destruct args as [|arg [|]]; try apply preserves_throw.
    inversion H as [|? ? Hk _]; subst.
    apply preserves_bind; [done|intros key].
    intros st a st' HP. unfold bind, getHeap, liftResult.
    destruct (findDictKey (heap st) ref key) as [[n|]| |]; try discriminate;
      [|by destruct (stringify (heap st) key)].
    intros [= <- <-]. apply dictsParallel_insert; [done|]. simpl.
    rewrite !delete_take_drop, !length_app, !length_take, !length_drop.
    by rewrite (HP ref).
  - unfold executeMethodClear. preserves_auto.
Qed.

Lemma parallel_executeNode (node : ASTNode) (i : unit) : preserves (P i) (executeNode node).
Proof.
  apply preserves_executeNode.
  - apply parallel_consoleLog.
  - apply parallel_question.
  - intros m Hm j. unfold scopedRun. pose proof (Hm j). preserves_auto.
  - intros j varType name valueExpr He. unfold executeCreateVar. preserves_auto.
  - intros j name valueExpr He. unfold executeAssignVar. preserves_auto.
  - intros j elements He. unfold executeListLiteral. preserves_auto.
  - apply parallel_executeDictLiteral.
  - apply parallel_executeMethodCall.
  - intros j operator h l r. unfold binaryOperation. preserves_auto.
Qed.

End ParallelArrays.

(** Whatever a program does to its dicts, by literals, [add:dict],
    [delete:dict] or [clear:dict], every dict holds as many values as keys
    after each completed execution of a node. *)
Theorem dicts_keep_keys_and_values_parallel
    (node : ASTNode) (st st' : State) (v : VoidValue) :
  dictsParallel (heap st) ->
  executeNode node st = Done v st' ->
  forall ref, List.length (keysOf (heap st') ref) = List.length (valuesOf (heap st') ref).
Proof. intros Hst Hrun. by apply (parallel_executeNode node tt st v st'). Qed.

(** The theorem at the literal [{1: 2, 1: 3}], run from the start. *)
Lemma dicts_keep_keys_and_values_parallel_witness :
  List.length (keysOf [DictObject [VNum (NInt 1); VNum (NInt 1)]
                                  [VNum (NInt 2); VNum (NInt 3)]] 0)
  = List.length (valuesOf [DictObject [VNum (NInt 1); VNum (NInt 1)]
                                      [VNum (NInt 2); VNum (NInt 3)]] 0).
Proof.
  refine (dicts_keep_keys_and_values_parallel
            (DictLiteral [(lit 1, lit 2); (lit 1, lit 3)]) (initialState [])
            (withHeap (initialState [])
               [DictObject [VNum (NInt 1); VNum (NInt 1)] [VNum (NInt 2); VNum (NInt 3)]])
            (VDict 0) _ _ 0%nat).
  - intros ref. reflexivity.
  - reflexivity.
Defined.

(** ** Scopes *)

Lemma declared_cons (e : Environment.t) :
  declared e = (type <$> Environment.variables e)
               :: match Environment.parent e with
                  | Some p => declared p
                  | None => []
                  end.
Proof. by destruct e as [vs [p|]]. Qed.

Lemma grows_refl (e : Environment.t) : grows (declared e) (declared e).
Proof. rewrite declared_cons. by split. Qed.

Lemma grows_trans (T1 T2 T3 : list (gmap string string)) :
  grows T1 T2 -> grows T2 T3 -> grows T1 T3.
Proof.
  destruct T1 as [|d1 r1], T2 as [|d2 r2], T3 as [|d3 r3]; try done.
  intros [H12 ->] [H23 ->]. split; [by transitivity d2|done].
Qed.

Lemma declared_define (name ty : string) (v : VoidValue) (e e' : Environment.t) :
  Environment.define name ty v e = inr e' ->
  declared e' = <[name := ty]> (type <$> Environment.variables e) :: tl (declared e)
  /\ grows (declared e) (declared e').
Proof.
  destruct e as [vs p]. unfold Environment.define. simpl.
  destruct (vs !! name) eqn:Hvs; [discriminate|]. intros [= <-].
  unfold declared. simpl. rewrite fmap_insert. simpl. split; [done|].
  split; [|done]. apply insert_subseteq. by rewrite lookup_fmap, Hvs.
Qed.

Lemma declared_set (name : string) (v : VoidValue) (e : Environment.t) :
  forall e', Environment.set name v e = inr e' -> declared e' = declared e.
Proof.
  assert (Hsame : forall (vs : gmap string Binding) b,
             vs !! name = Some b ->
             type <$> <[name := MkVariable (type b) v]> vs = type <$> vs).
  { intros vs b Hb. rewrite fmap_insert. simpl. apply insert_id.
    by rewrite lookup_fmap, Hb. }
  induction e as [vs|vs p IH] using environment_ind; simpl; intros e'.
  - destruct (vs !! name) as [b|] eqn:Hvs; [|discriminate].
    intros [= <-]. unfold declared. simpl. by rewrite (Hsame vs b).
  - destruct (vs !! name) as [b|] eqn:Hvs.
    + intros [= <-]. unfold declared. simpl. by rewrite (Hsame vs b).
    + destruct (Environment.set name v p) as [err|p'] eqn:Hset; [discriminate|].
      intros [= <-]. unfold declared in *. simpl. by rewrite (IH p' eq_refl).
Qed.

Section Scopes.

Let G (T : list (gmap string string)) (st : State) : Prop :=
  grows T (declared (env st)).

Lemma scope_env (T : list (gmap string string)) (st st' : State) :
  env st' = env st -> G T st -> G T st'.
Proof. unfold G. by intros ->. Qed.

Lemma scope_consoleLog T (ev : OutputEvent) : preserves (G T) (consoleLog ev).
Proof.
  apply preserves_same_env; [apply scope_env|].
  intros st a st' H. by apply consoleLog_state in H as [_ ?].
Qed.

Lemma scope_question T (prompt : string) : preserves (G T) (question prompt).
Proof.
  apply preserves_same_env; [apply scope_env|].
  intros st a st' H. by apply question_state in H as [_ ?].
Qed.

Lemma scope_allocate T (o : HeapObject) : preserves (G T) (allocate o).
Proof. apply preserves_same_env; [apply scope_env|apply allocate_env]. Qed.

Lemma scope_store T (ref : nat) (o : HeapObject) : preserves (G T) (store ref o).
Proof. apply preserves_same_env; [apply scope_env|apply store_env]. Qed.

Lemma scope_envDefine T (name ty : string) (v : VoidValue) :
  preserves (G T) (envDefine name ty v).
Proof.
  intros st a st' HG. unfold envDefine, bind, getEnv, liftEnv, putEnv.
  destruct (Environment.define name ty v (env st)) as [err|e'] eqn:Hdef; [discriminate|].
  intros [= <- <-]. unfold G in *. simpl.
  apply (grows_trans _ (declared (env st))); [done|].
  by apply (declared_define name ty v (env st) e').
Qed.

Lemma scope_envSet T (name : string) (v : VoidValue) : preserves (G T) (envSet name v).
Proof.
  intros st a st' HG. unfold envSet, bind, getEnv, liftEnv, putEnv.
  destruct (Environment.set name v (env st)) as [err|e'] eqn:Hset; [discriminate|].
  intros [= <- <-]. unfold G in *. simpl.
  by rewrite (declared_set name v (env st) e').
Qed.

Hint Resolve scope_consoleLog scope_question scope_allocate scope_store
  scope_envDefine scope_envSet : preserves.

(** What runs in a new scope leaves the scopes as it found them. *)
Lemma scopedRun_restores {A} (m : I A) :
  (forall T, preserves (G T) m) ->
  forall st a st', scopedRun m st = Done a st' -> declared (env st') = declared (env st).
Proof.
  intros Hm st a st'. unfold scopedRun, pushEnvironment, bind at 1 2, getEnv, putEnv.
  unfold bind at 1. cbv beta iota.
  set (s1 := MkState (Environment.new (Some (env st))) (heap st) (stdin st) (stdout st)).
  destruct (m s1) as [r s2| | |] eqn:Hrun; try discriminate.
  assert (H2 : grows (declared (env s1)) (declared (env s2))).
  { apply (Hm (declared (env s1)) s1 r s2); [apply grows_refl|done]. }
  unfold popEnvironment, bind, getEnv, putEnv, ret.
  rewrite (declared_cons (env s2)) in H2. simpl in H2. destruct H2 as [_ H2].
  destruct (Environment.parent (env s2)) as [p|].
  - intros [= <- <-]. exact H2.
  - destruct (env st) as [vs [q|]]; discriminate H2.
Qed.

Lemma scope_scopedRun (m : I VoidValue) :
  (forall T, preserves (G T) m) -> forall T, preserves (G T) (scopedRun m).
Proof.
  intros Hm T st a st' HG Hrun. unfold G.
  by rewrite (scopedRun_restores m Hm st a st').
Qed.

Lemma scope_executeNode (node : ASTNode) T : preserves (G T) (executeNode node).
Proof.
  apply preserves_executeNode.
  - apply scope_consoleLog.
  - apply scope_question.
  - apply scope_scopedRun.
  - intros j varType name valueExpr He. unfold executeCreateVar. preserves_auto.
  - intros j name valueExpr He. unfold executeAssignVar. preserves_auto.
  - intros j elements He. unfold executeListLiteral. preserves_auto.
  - intros j entries He. unfold executeDictLiteral. preserves_auto.
  - intros j object method collectionType args He.
    unfold executeMethodCall, executeMethodAdd, executeMethodDelete, executeMethodClear.
    preserves_auto.
  - intros j operator h l r. unfold binaryOperation. preserves_auto.
Qed.

Lemma scope_runStatements (statements : list ASTNode) T :
  preserves (G T) (runStatements (map executeNode statements) VNull).
Proof.
  apply preserves_runStatements, Forall_forall. intros m Hm.
  apply list_elem_of_fmap in Hm as (n & -> & Hn). apply scope_executeNode.
Qed.

End Scopes.

Lemma executeBlock_restores (statements : list ASTNode) (st st' : State) (v : VoidValue) :
  executeBlock (map executeNode statements) st = Done v st' ->
  declared (env st') = declared (env st).
Proof. apply (scopedRun_restores _ (scope_runStatements statements)). Qed.

Lemma executeFor_restores (init : option ASTNode) (condition : ASTNode)
    (update : option ASTNode) (statements : list ASTNode) (st st' : State)
    (v : VoidValue) :
  executeNode (For init condition update statements) st = Done v st' ->
  declared (env st') = declared (env st).
Proof.
  cbn [executeNode]. rewrite executeFor_scoped. intros Hrun.
  refine (scopedRun_restores _ _ st v st' Hrun). intros T.
  apply preserves_bind; [destruct init; simpl; [apply scope_executeNode|apply preserves_ret]
                        |intros _].
  apply preserves_bind; [|intros _; apply preserves_ret].
  apply preserves_forLoop.
  - apply scope_executeNode.
  - apply (scope_executeNode (Block statements)).
  - destruct update; simpl; [apply scope_executeNode|apply preserves_ret].
Qed.

(** Whatever a node does, it leaves every enclosing scope with the names
    and declared types it had, and can only add names to the scope it runs
    in.  A block, the body of [main] and a [for] statement add none: the
    names they declare are gone when they end, whatever they contain. *)
Theorem blocks_restore_the_scopes (node : ASTNode) (st st' : State) (v : VoidValue) :
  executeNode node st = Done v st' ->
  grows (declared (env st)) (declared (env st'))
  /\ (match node with
      | Main _ | Block _ | For _ _ _ _ => declared (env st') = declared (env st)
      | _ => True
      end).
Proof.
  intros Hrun. split.
  - apply (scope_executeNode node (declared (env st)) st v st'); [apply grows_refl|done].
  - destruct node as
      [stmts|stmts|?|?|? ? ?|? ?|? ? ?|? ?|init condition update stmts
      |? ? ?|? ?|?|?|?|?|?|? ?|? ?|?|?|? ?|? ? ? ?];
      try done.
    + by apply (executeBlock_restores stmts st st' v).
    + by apply (executeBlock_restores stmts st st' v).
    + by apply (executeFor_restores init condition update stmts st st' v).
Qed.

(** The theorem at a block that declares [x]. *)
Lemma blocks_restore_the_scopes_witness :
  let st := initialState [] in
  grows (declared (env st)) (declared (env st))
  /\ declared (env st) = declared (env st).
Proof.
  intros st.
  apply (blocks_restore_the_scopes (Block [CreateVar "int" "x" (lit 1)]) st st (VNum (NInt 1))).
  reflexivity.
Defined.

(** ** Expressions *)

Section PreservationByExpressions.

Context {Idx : Type} (Inv : Idx -> State -> Prop).

Hypothesis Inv_question : forall i prompt, preserves (Inv i) (question prompt).
Hypothesis Inv_executeListLiteral :
  forall elements,
    (forall i, Forall (preserves (Inv i)) elements) ->
    forall i, preserves (Inv i) (executeListLiteral elements).
Hypothesis Inv_executeDictLiteral :
  forall entries,
    (forall i, Forall (fun kv => preserves (Inv i) (fst kv) /\ preserves (Inv i) (snd kv))
                      entries) ->
    forall i, preserves (Inv i) (executeDictLiteral entries).
Hypothesis Inv_binaryOperation :
  forall i operator h l r, preserves (Inv i) (binaryOperation operator h l r).

(** Every evaluation of every expression keeps the property. *)
Lemma preserves_expression :
  forall node : ASTNode,
    isExpression node = true -> forall i : Idx, preserves (Inv i) (executeNode node).
Proof.
  fix IH 1. intros node.
  destruct node as
    [body|statements|expressions|prompt|varType name valueExpr|name valueExpr
    |condition thenBranch elseBranch|condition body|init condition update body
    |operator l r|operator operand|n|n|s|b|name|name args|lo hi|elements
    |entries|object index|object method collectionType args];
    cbn [isExpression executeNode]; intros Hexp; try discriminate Hexp.
  - intros i. unfold executeWrite. pose proof (IH prompt Hexp i). preserves_auto.
  - apply andb_prop in Hexp as [Hl Hr]. intros i. unfold executeBinaryExpr.
    pose proof (IH l Hl i). pose proof (IH r Hr i). preserves_auto.
  - intros i. unfold executeUnaryExpr. pose proof (IH operand Hexp i). preserves_auto.
  - intros i. apply preserves_ret.
  - intros i. apply preserves_ret.
  - intros i. apply preserves_ret.
  - intros i. apply preserves_ret.
  - intros i. unfold executeIdentifier. preserves_auto.
  - intros i. unfold executeFunctionCall.
    assert (Forall (preserves (Inv i)) (map executeNode args)).
    { induction args as [|a args IHargs]; constructor;
        simpl in Hexp; apply andb_prop in Hexp as [Ha Hargs];
        [by apply IH|by apply IHargs]. }
    preserves_auto.
  - apply andb_prop in Hexp as [Hl Hr]. intros i. unfold executeRandCall.
    pose proof (IH lo Hl i). pose proof (IH hi Hr i). preserves_auto.
  - apply Inv_executeListLiteral. intros i.
    induction elements as [|a elements IHelements]; constructor;
      simpl in Hexp; apply andb_prop in Hexp as [Ha Helements];
      [by apply IH|by apply IHelements].
  - apply Inv_executeDictLiteral. intros i.
    induction entries as [|[k v] entries IHentries]; constructor;
      simpl in Hexp; apply andb_prop in Hexp as [Hkv Hentries];
      [|by apply IHentries].
    apply andb_prop in Hkv as [Hk Hv]. split; by apply IH.
  - apply andb_prop in Hexp as [Ho Hi]. intros i. unfold executeIndexAccess.
    pose proof (IH object Ho i). pose proof (IH index Hi i). preserves_auto.
Qed.

End PreservationByExpressions.

Lemma expression_keeps_env (node : ASTNode) (e : Environment.t) :
  isExpression node = true -> preserves (fun st => env st = e) (executeNode node).
Proof.
  intros Hexp.
  assert (Hsame : forall (e : Environment.t) (st st' : State),
             env st' = env st -> env st = e -> env st' = e) by (by intros ? ? ? ->).
  assert (Halloc : forall e o, preserves (fun st => env st = e) (allocate o)).
  { intros e0 o. apply preserves_same_env; [apply Hsame|apply allocate_env]. }
  assert (Hstore : forall e ref o, preserves (fun st => env st = e) (store ref o)).
  { intros e0 ref o. apply preserves_same_env; [apply Hsame|apply store_env]. }
  refine (preserves_expression (fun e st => env st = e) _ _ _ _ node Hexp e).
  - intros e0 prompt. apply preserves_same_env; [apply Hsame|].
    intros st a st' H. by apply question_state in H as [_ ?].
  - intros elements He e0. pose proof (He e0). unfold executeListLiteral. preserves_auto.
  - intros entries He e0. pose proof (He e0). unfold executeDictLiteral. preserves_auto.
  - intros e0 operator h l r. unfold binaryOperation. preserves_auto.
Qed.

Lemma prefix_insert_beyond {A} (l k : list A) (i : nat) (x : A) :
  l `prefix_of` k -> (List.length l <= i)%nat -> l `prefix_of` <[i := x]> k.
Proof.
  intros [rest ->] Hi. rewrite insert_app_r_alt by done. by apply prefix_app_r.
Qed.

Lemma expression_keeps_objects (node : ASTNode) (h : Heap) :
  isExpression node = true ->
  preserves (fun st => h `prefix_of` heap st) (executeNode node).
Proof.
  intros Hexp.
  assert (Hsame : forall (h : Heap) (st st' : State),
             heap st' = heap st -> h `prefix_of` heap st -> h `prefix_of` heap st')
    by (by intros ? ? ? ->).
  refine (preserves_expression (fun h st => h `prefix_of` heap st) _ _ _ _ node Hexp h).
  - intros h0 prompt. apply preserves_same_heap; [apply Hsame|].
    intros st a st' H. by apply question_state in H as [? _].
  - intros elements He h0 st a st' Hst.
    unfold executeListLiteral, bind at 1, allocate, bind at 1, getHeap, alloc.
    unfold bind at 1, putHeap, ret at 1. cbv beta iota.
    set (s1 := MkState (env st) (heap st ++ [ListObject []]) (stdin st) (stdout st)).
    unfold bind at 1.
    destruct (sequence elements s1) as [values s2| | |] eqn:Hseq; try discriminate.
    intros [= <- <-]. simpl.
    assert (H12 : heap s1 `prefix_of` heap s2).
    { by apply (preserves_sequence _ elements (He (heap s1)) s1 values s2). }
    apply prefix_insert_beyond.
    + transitivity (heap s1); [|done]. simpl. by apply prefix_app_r.
    + by apply prefix_length.
  - intros entries He h0 st a st' Hst.
    unfold executeDictLiteral, bind at 1, allocate, bind at 1, getHeap, alloc.
    unfold bind at 1, putHeap, ret at 1. cbv beta iota.
    set (s1 := MkState (env st) (heap st ++ [DictObject [] []]) (stdin st) (stdout st)).
    unfold bind at 1.
    destruct (evalEntries entries s1) as [kvs s2| | |] eqn:Hseq; try discriminate.
    intros [= <- <-]. simpl.
    assert (H12 : heap s1 `prefix_of` heap s2).
    { by apply (preserves_evalEntries _ entries (He (heap s1)) s1 kvs s2). }
    apply prefix_insert_beyond.
    + transitivity (heap s1); [|done]. simpl. by apply prefix_app_r.
    + by apply prefix_length.
  - intros h0 operator hh l r.
    assert (Halloc : forall o, preserves (fun st => h0 `prefix_of` heap st) (allocate o)).
    { intros o st a st' Hst [= <- <-]. simpl. by apply prefix_app_r. }
    unfold binaryOperation. preserves_auto.
Qed.

(** Evaluating an expression changes no variable and no object that
    exists: the environment is the same afterwards, and the heap is the
    old one with, at most, new lists and dicts after it.  Only statements
    ([create], assignment and the methods) change what a program can
    observe in its variables. *)
Theorem expressions_change_no_variable_and_no_object
    (node : ASTNode) (st st' : State) (v : VoidValue) :
  isExpression node = true ->
  executeNode node st = Done v st' ->
  env st' = env st /\ heap st `prefix_of` heap st'.
Proof.
  intros Hexp Hrun. split.
  - by apply (expression_keeps_env node (env st) Hexp st v st').
  - by apply (expression_keeps_objects node (heap st) Hexp st v st').
Qed.

(** The theorem at [L + [L[0]]] on the list [[10, 20, 30]] of [L]. *)
Lemma expressions_change_no_variable_and_no_object_witness :
  let st' := withHeap listState
               (heap listState ++ [ListObject [VNum (NInt 10)];
                                   ListObject [VNum (NInt 10); VNum (NInt 20);
                                               VNum (NInt 30); VNum (NInt 10)]]) in
  env st' = env listState /\ heap listState `prefix_of` heap st'.
Proof.
  intros st'.
  apply (expressions_change_no_variable_and_no_object
           (BinaryExpr "+" (Identifier "L")
              (ListLiteral [IndexAccess (Identifier "L") (lit 0)]))
           listState st' (VList 2)); reflexivity.
Defined.

Lemma expression_env (node : ASTNode) (st st' : State) (v : VoidValue) :
  isExpression node = true -> executeNode node st = Done v st' -> env st' = env st.
Proof. intros Hexp Hrun. by apply (expression_keeps_env node (env st) Hexp st v st'). Qed.

Lemma expressions_env (nodes : list ASTNode) (st st' : State) (vs : list VoidValue) :
  forallb isExpression nodes = true ->
  sequence (map executeNode nodes) st = Done vs st' -> env st' = env st.
Proof.
  intros Hexp Hrun.
  refine (preserves_sequence (fun s => env s = env st) _ _ st vs st' eq_refl Hrun).
  apply Forall_forall. intros m Hm.
  apply list_elem_of_fmap in Hm as (n & -> & Hn). apply expression_keeps_env.
  apply (proj1 (forallb_forall _ _) Hexp). by apply list_elem_of_In.
Qed.

(** ** Only [create] declares a name *)

Section Declarations.

Let D (T : list (gmap string string)) (st : State) : Prop := declared (env st) = T.

Lemma declared_env T (st st' : State) : env st' = env st -> D T st -> D T st'.
Proof. unfold D. by intros ->. Qed.

Lemma declared_consoleLog T (ev : OutputEvent) : preserves (D T) (consoleLog ev).
Proof.
  apply preserves_same_env; [apply declared_env|].
  intros st a st' H. by apply consoleLog_state in H as [_ ?].
Qed.

Lemma declared_store T (ref : nat) (o : HeapObject) : preserves (D T) (store ref o).
Proof. apply preserves_same_env; [apply declared_env|apply store_env]. Qed.

Lemma declared_envSet T (name : string) (v : VoidValue) : preserves (D T) (envSet name v).
Proof.
  intros st a st' HD. unfold envSet, bind, getEnv, liftEnv, putEnv.
  destruct (Environment.set name v (env st)) as [err|e'] eqn:Hset; [discriminate|].
  intros [= <- <-]. unfold D in *. simpl.
  by rewrite (declared_set name v (env st) e').
Qed.

Lemma declared_expression T (node : ASTNode) :
  isExpression node = true -> preserves (D T) (executeNode node).
Proof.
  intros Hexp. apply preserves_same_env; [apply declared_env|].
  intros st a st'. by apply expression_env.
Qed.

Lemma declared_expressions T (nodes : list ASTNode) :
  forallb isExpression nodes = true -> Forall (preserves (D T)) (map executeNode nodes).
Proof.
  intros Hexp. apply Forall_forall. intros m Hm.
  apply list_elem_of_fmap in Hm as (n & -> & Hn). apply declared_expression.
  apply (proj1 (forallb_forall _ _) Hexp). by apply list_elem_of_In.
Qed.

Lemma declared_executeBlock T (statements : list ASTNode) :
  preserves (D T) (executeBlock (map executeNode statements)).
Proof.
  intros st a st' HD Hrun. unfold D in *.
  by rewrite (executeBlock_restores statements st st' a Hrun).
Qed.

Hint Resolve declared_consoleLog declared_store declared_envSet declared_expression
  declared_expressions declared_executeBlock : preserves.

(** A statement that is no declaration leaves the declared names as they
    are. *)
Lemma declared_statement :
  forall node : ASTNode,
    wellFormed node = true ->
    match node with CreateVar _ _ _ => False | _ => True end ->
    forall T, preserves (D T) (executeNode node).
Proof.
  fix IH 1. intros node.
  destruct node as
    [body|statements|expressions|prompt|varType name valueExpr|name valueExpr
    |condition thenBranch elseBranch|condition body|init condition update body
    |operator l r|operator operand|n|n|s|b|name|name args|lo hi|elements
    |entries|object index|object method collectionType args];
    intros Hwf Hnode T; try done;
    try (apply declared_expression; exact Hwf);
    cbn [wellFormed] in Hwf; cbn [executeNode].
  - apply declared_executeBlock.
  - apply declared_executeBlock.
  - unfold executeEcho. pose proof (declared_expressions T expressions Hwf).
    preserves_auto.
  - unfold executeAssignVar. pose proof (declared_expression T valueExpr Hwf).
    preserves_auto.
  - apply andb_prop in Hwf as [Hwf Helse]. apply andb_prop in Hwf as [Hc Hthen].
    unfold executeIf.
    apply preserves_bind; [by apply declared_expression|intros c].
    apply preserves_bind; [apply preserves_getHeap|intros h].
    destruct (isTruthy h c); [apply declared_executeBlock|].
    destruct elseBranch as [e|]; [|apply preserves_ret].
    pose proof (IH e) as He.
    destruct e; try discriminate Helse.
    + apply declared_executeBlock.
    + by apply He.
  - apply andb_prop in Hwf as [Hc Hbody]. unfold executeWhile.
    apply preserves_bind; [|intros _; apply preserves_ret].
    apply preserves_whileLoop; [by apply declared_expression|apply declared_executeBlock].
  - intros st a st' HD Hrun. unfold D in *.
    by rewrite (executeFor_restores init condition update body st st' a Hrun).
  - pose proof (declared_expressions T args Hwf).
    unfold executeMethodCall, executeMethodAdd, executeMethodDelete, executeMethodClear.
    preserves_auto.
Qed.

End Declarations.

Lemma castValue_wellTyped (h : Heap) (v : VoidValue) (ty name : string) (v' : VoidValue) :
  castValue h v ty name = Ok v' -> wellTyped ty v'.
Proof.
  unfold castValue, wellTyped.
  destruct (String.eqb ty "string").
  { destruct (stringify h v) as [s| |]; simpl; try discriminate.
    intros [= <-]. by exists s. }
  destruct (String.eqb ty "int").
  { destruct (jsNumber v) as [n| |]; simpl; try discriminate.
    destruct (isNaN n) eqn:Hn; [discriminate|]. intros [= <-]. by exists n. }
  destruct (String.eqb ty "float").
  { destruct (jsNumber v) as [n| |]; simpl; try discriminate.
    destruct (isNaN n) eqn:Hn; [discriminate|]. intros [= <-]. by exists n. }
  destruct (String.eqb ty "bool"); [|done].
  intros [= <-]. by eexists.
Qed.

Lemma wellTyped_collection (ty : string) (v : VoidValue) :
  negb (String.eqb ty "list") && negb (String.eqb ty "dict") = false -> wellTyped ty v.
Proof.
  intros H. apply andb_false_iff in H as [H|H]; apply negb_false_iff, String.eqb_eq in H;
    by subst.
Qed.

(** The value [create] binds, once it has passed the check of its type:
    the check changes no state, and the value is of the declared type. *)
Lemma createVar_check (h : Heap) (v : VoidValue) (varType name : string)
    (st : State) (v' : VoidValue) (st' : State) :
  (if negb (String.eqb varType "list") && negb (String.eqb varType "dict")
   then liftResult (castValue h v varType name)
   else if String.eqb varType "list" && negb (isArray v)
   then liftResult (stringify h v) ;;; throw (RuntimeError (ExpectsList name))
   else if String.eqb varType "dict" && negb (isVoidDict v)
   then liftResult (stringify h v) ;;; throw (RuntimeError (ExpectsDict name))
   else ret v) st = Done v' st' ->
  st' = st /\ wellTyped varType v'.
Proof.
  destruct (negb (String.eqb varType "list") && negb (String.eqb varType "dict")) eqn:Hty.
  - unfold liftResult. destruct (castValue h v varType name) as [w| |] eqn:Hcast;
      try discriminate.
    intros [= <- <-]. split; [done|]. by apply (castValue_wellTyped h v varType name).
  - assert (Hthrow : forall e,
               (liftResult (stringify h v) ;;; throw e) st <> Done v' st').
    { intros e. unfold bind, liftResult. by destruct (stringify h v). }
    destruct (String.eqb varType "list" && negb (isArray v));
      [intros H; by destruct (Hthrow _ H)|].
    destruct (String.eqb varType "dict" && negb (isVoidDict v));
      [intros H; by destruct (Hthrow _ H)|].
    intros [= <- <-]. split; [done|]. by apply wellTyped_collection.
Qed.

(** The value an assignment stores: cast to the declared type of the
    variable unless that type is [list] or [dict]. *)
Lemma assignVar_check (h : Heap) (v : VoidValue) (ty name : string)
    (st : State) (v' : VoidValue) (st' : State) :
  (if negb (String.eqb ty "list") && negb (String.eqb ty "dict")
   then liftResult (castValue h v ty name)
   else ret v) st = Done v' st' ->
  st' = st /\ wellTyped ty v'.
Proof.
  destruct (negb (String.eqb ty "list") && negb (String.eqb ty "dict")) eqn:Hty.
  - unfold liftResult. destruct (castValue h v ty name) as [w| |] eqn:Hcast;
      try discriminate.
    intros [= <- <-]. split; [done|]. by apply (castValue_wellTyped h v ty name).
  - intros [= <- <-]. split; [done|]. by apply wellTyped_collection.
Qed.

(** A node of the shape the parser builds declares a name only when it is
    a [create] statement, which declares its own name, with its own type,
    in the scope it runs in.  Expressions, assignments, [echo], method
    calls, [if], [while], [for] and blocks leave the declared names of
    every scope as they were. *)
Theorem only_create_declares_a_name
    (node : ASTNode) (st st' : State) (v : VoidValue) :
  wellFormed node = true ->
  executeNode node st = Done v st' ->
  declared (env st')
  = match node with
    | CreateVar varType name _ =>
        <[name := varType]> (type <$> Environment.variables (env st))
        :: tl (declared (env st))
    | _ => declared (env st)
    end.
Proof.
  intros Hwf Hrun.
  destruct node as
    [body|statements|expressions|prompt|varType name valueExpr|name valueExpr
    |condition thenBranch elseBranch|condition body|init condition update body
    |operator l r|operator operand|n|n|s|b|name|name args|lo hi|elements
    |entries|object index|object method collectionType args];
    try exact (declared_statement _ Hwf Logic.I _ st v st' eq_refl Hrun).
  cbn [wellFormed] in Hwf. cbn [executeNode] in Hrun.
  unfold executeCreateVar, bind at 1 in Hrun.
  destruct (executeNode valueExpr st) as [v0 s1| | |] eqn:Hvalue; try discriminate.
  apply (expression_env valueExpr st s1 v0 Hwf) in Hvalue. rewrite <- Hvalue.
  unfold bind at 1, getHeap, bind at 1 in Hrun.
  match type of Hrun with
  | match ?check s1 with _ => _ end = _ =>
      destruct (check s1) as [v' s2| | |] eqn:Hcheck; try discriminate
  end.
  apply createVar_check in Hcheck as [-> _].
  unfold bind, envDefine, bind, getEnv, liftEnv, putEnv in Hrun.
  destruct (Environment.define name varType v' (env s1)) as [err|e'] eqn:Hdef;
    [discriminate|].
  injection Hrun as <- <-. simpl.
  by apply (declared_define name varType v' (env s1) e').
Qed.

(** The theorem at [create:int x = 1] in the first scope. *)
Lemma only_create_declares_a_name_witness :
  declared (Environment.Env {[ "x" := MkVariable "int" (VNum (NInt 1)) ]} None)
  = [ <[ "x" := "int" ]> (type <$> (∅ : gmap string Binding)) ].
Proof.
  apply (only_create_declares_a_name (CreateVar "int" "x" (lit 1)) (initialState [])
           (MkState (Environment.Env {[ "x" := MkVariable "int" (VNum (NInt 1)) ]} None)
              [] [] [])
           (VNum (NInt 1))); reflexivity.
Defined.

(** ** Variables keep the type they were declared with *)

Lemma envTyped_get (name : string) (e : Environment.t) :
  envTyped e -> forall b, Environment.get name e = inr b -> wellTyped (type b) (value b).
Proof.
  unfold envTyped.
  induction e as [vs|vs p IH] using environment_ind; simpl; intros He b;
    inversion He as [|? ? Hvs Hrest]; subst;
    destruct (vs !! name) as [b0|] eqn:Hname; try discriminate.
  - intros [= <-]. by apply (Hvs name b0).
  - intros [= <-]. by apply (Hvs name b0).
  - by apply IH.
Qed.

Lemma envTyped_define (name ty : string) (v : VoidValue) (e e' : Environment.t) :
  envTyped e -> wellTyped ty v -> Environment.define name ty v e = inr e' -> envTyped e'.
Proof.
  unfold envTyped. destruct e as [vs p]. unfold Environment.define. simpl.
  intros He Hv. destruct (vs !! name); [discriminate|]. intros [= <-]. simpl.
  inversion He as [|? ? Hvs Hrest]; subst. constructor; [|done].
  by apply map_Forall_insert_2.
Qed.

Lemma envTyped_set (name : string) (v : VoidValue) (e : Environment.t) :
  envTyped e ->
  (forall b, Environment.get name e = inr b -> wellTyped (type b) v) ->
  forall e', Environment.set name v e = inr e' -> envTyped e'.
Proof.
  unfold envTyped.
  induction e as [vs|vs p IH] using environment_ind; simpl; intros He Hv e';
    inversion He as [|? ? Hvs Hrest]; subst;
    destruct (vs !! name) as [b0|] eqn:Hname; try discriminate.
  - intros [= <-]. simpl. constructor; [|done].
    apply map_Forall_insert_2; [|done]. by apply (Hv b0).
  - intros [= <-]. simpl. constructor; [|done].
    apply map_Forall_insert_2; [|done]. by apply (Hv b0).
  - destruct (Environment.set name v p) as [err|p'] eqn:Hset; [discriminate|].
    intros [= <-]. simpl. constructor; [done|]. by apply (IH Hrest Hv p').
Qed.

Section TypedVariables.

Let W (st : State) : Prop := envTyped (env st).

Lemma typed_env (st st' : State) : env st' = env st -> W st -> W st'.
Proof. unfold W. by intros ->. Qed.

Lemma typed_consoleLog (ev : OutputEvent) : preserves W (consoleLog ev).
Proof.
  apply preserves_same_env; [apply typed_env|].
  intros st a st' H. by apply consoleLog_state in H as [_ ?].
Qed.

Lemma typed_store (ref : nat) (o : HeapObject) : preserves W (store ref o).
Proof. apply preserves_same_env; [apply typed_env|apply store_env]. Qed.

Lemma typed_pushEnvironment : preserves W pushEnvironment.
Proof.
  intros st a st' HW [= <- <-]. unfold W, envTyped in *. simpl.
  constructor; [apply map_Forall_empty|done].
Qed.

Lemma typed_popEnvironment : preserves W popEnvironment.
Proof.
  intros st a st' HW. unfold popEnvironment, bind, getEnv, putEnv, ret.
  unfold W, envTyped in *. destruct (env st) as [vs [p|]] eqn:He; simpl.
  - intros [= <- <-]. simpl. by inversion HW.
  - intros [= <- <-]. by rewrite He.
Qed.

Lemma typed_expression (node : ASTNode) :
  isExpression node = true -> preserves W (executeNode node).
Proof.
  intros Hexp. apply preserves_same_env; [apply typed_env|].
  intros st a st'. by apply expression_env.
Qed.

Lemma typed_expressions (nodes : list ASTNode) :
  forallb isExpression nodes = true -> Forall (preserves W) (map executeNode nodes).
Proof.
  intros Hexp. apply Forall_forall. intros m Hm.
  apply list_elem_of_fmap in Hm as (n & -> & Hn). apply typed_expression.
  apply (proj1 (forallb_forall _ _) Hexp). by apply list_elem_of_In.
Qed.

Hint Resolve typed_consoleLog typed_store typed_pushEnvironment typed_popEnvironment
  typed_expression typed_expressions : preserves.

Lemma typed_scopedRun {A} (m : I A) : preserves W m -> preserves W (scopedRun m).
Proof. intros Hm. unfold scopedRun. preserves_auto. Qed.

Lemma typed_executeBlock (statements : list (I VoidValue)) :
  Forall (preserves W) statements -> preserves W (executeBlock statements).
Proof.
  intros H. apply (typed_scopedRun (runStatements statements VNull)).
  by apply preserves_runStatements.
Qed.

Lemma typed_executeCreateVar (varType name : string) (valueExpr : ASTNode) :
  isExpression valueExpr = true ->
  preserves W (executeCreateVar varType name (executeNode valueExpr)).
Proof.
  intros Hexp. unfold executeCreateVar.
  apply preserves_bind; [by apply typed_expression|intros v].
  apply preserves_bind; [apply preserves_getHeap|intros h].
  intros st a st' HW. unfold bind at 1.
  match goal with
  | |- match ?check st with _ => _ end = _ -> _ =>
      destruct (check st) as [v' s1| | |] eqn:Hcheck; try discriminate
  end.
  apply createVar_check in Hcheck as [-> Hv'].
  unfold bind, envDefine, bind, getEnv, liftEnv, putEnv.
  destruct (Environment.define name varType v' (env st)) as [err|e'] eqn:Hdef;
    [discriminate|].
  intros [= <- <-]. unfold W in *. simpl.
  by apply (envTyped_define name varType v' (env st) e').
Qed.

Lemma typed_executeAssignVar (name : string) (valueExpr : ASTNode) :
  isExpression valueExpr = true ->
  preserves W (executeAssignVar name (executeNode valueExpr)).
Proof.
  intros Hexp st a st' HW.
  unfold executeAssignVar, bind at 1, envGet, bind at 1, getEnv, liftEnv.
  destruct (Environment.get name (env st)) as [err|variable] eqn:Hget; [discriminate|].
  unfold bind at 1.
  destruct (executeNode valueExpr st) as [v s1| | |] eqn:Hvalue; try discriminate.
  apply (expression_env valueExpr st s1 v Hexp) in Hvalue.
  unfold bind at 1, getHeap, bind at 1.
  match goal with
  | |- match ?check s1 with _ => _ end = _ -> _ =>
      destruct (check s1) as [v' s2| | |] eqn:Hcheck; try discriminate
  end.
  apply assignVar_check in Hcheck as [-> Hv'].
  unfold bind, envSet, bind, getEnv, liftEnv, putEnv.
  destruct (Environment.set name v' (env s1)) as [err|e'] eqn:Hset; [discriminate|].
  intros [= <- <-]. unfold W in *. simpl.
  apply (envTyped_set name v' (env s1)); [by rewrite Hvalue| |done].
  intros b Hb. rewrite Hvalue, Hget in Hb. by injection Hb as <-.
Qed.

(** Every statement of the shape the parser builds keeps the variables
    typed. *)
Lemma typed_statement :
  forall node : ASTNode, wellFormed node = true -> preserves W (executeNode node).
Proof.
  fix IH 1. intros node.
  destruct node as
    [body|statements|expressions|prompt|varType name valueExpr|name valueExpr
    |condition thenBranch elseBranch|condition body|init condition update body
    |operator l r|operator operand|n|n|s|b|name|name args|lo hi|elements
    |entries|object index|object method collectionType args];
    intros Hwf;
    try (apply typed_expression; exact Hwf);
    cbn [wellFormed] in Hwf; cbn [executeNode].
  - apply typed_executeBlock.
    induction body as [|a body IHbody]; constructor;
      simpl in Hwf; apply andb_prop in Hwf as [Ha Hbody];
      [by apply IH|by apply IHbody].
  - apply typed_executeBlock.
    induction statements as [|a statements IHstatements]; constructor;
      simpl in Hwf; apply andb_prop in Hwf as [Ha Hstatements];
      [by apply IH|by apply IHstatements].
  - unfold executeEcho. pose proof (typed_expressions expressions Hwf). preserves_auto.
  - by apply typed_executeCreateVar.
  - by apply typed_executeAssignVar.
  - apply andb_prop in Hwf as [Hwf Helse]. apply andb_prop in Hwf as [Hc Hthen].
    unfold executeIf.
    apply preserves_bind; [by apply typed_expression|intros c].
    apply preserves_bind; [apply preserves_getHeap|intros h].
    destruct (isTruthy h c).
    + apply typed_executeBlock.
      induction thenBranch as [|a thenBranch IHthen]; constructor;
        simpl in Hthen; apply andb_prop in Hthen as [Ha Hthen];
        [by apply IH|by apply IHthen].
    + destruct elseBranch as [e|]; [|apply preserves_ret].
      pose proof (IH e) as He.
      destruct e; try discriminate Helse; by apply He.
  - apply andb_prop in Hwf as [Hc Hbody]. unfold executeWhile.
    apply preserves_bind; [|intros _; apply preserves_ret].
    apply preserves_whileLoop; [by apply typed_expression|].
    apply typed_executeBlock.
    induction body as [|a body IHbody]; constructor;
      simpl in Hbody; apply andb_prop in Hbody as [Ha Hbody];
      [by apply IH|by apply IHbody].
  - apply andb_prop in Hwf as [Hwf Hbody]. apply andb_prop in Hwf as [Hwf Hupdate].
    apply andb_prop in Hwf as [Hinit Hc].
    eapply preserves_ext; [apply executeFor_scoped|].
    apply typed_scopedRun.
    apply preserves_bind; [destruct init; simpl; [by apply IH|apply preserves_ret]
                          |intros _].
    apply preserves_bind; [|intros _; apply preserves_ret].
    apply preserves_forLoop.
    + by apply typed_expression.
    + apply typed_executeBlock.
      induction body as [|a body IHbody]; constructor;
        simpl in Hbody; apply andb_prop in Hbody as [Ha Hbody];
        [by apply IH|by apply IHbody].
    + destruct update; simpl; [by apply IH|apply preserves_ret].
  - pose proof (typed_expressions args Hwf).
    unfold executeMethodCall, executeMethodAdd, executeMethodDelete, executeMethodClear.
    preserves_auto.
Qed.

End TypedVariables.

(** Through every statement of the shape the parser builds, each variable
    declared [string], [int], [float] or [bool] holds a value of that
    type: a string, a number that is not NaN, a boolean.  So a variable
    read afterwards gives a value of its declared type, whatever was
    assigned to it. *)
Theorem variables_keep_their_declared_type
    (node : ASTNode) (st st' : State) (v : VoidValue) (name : string) (b : Binding) :
  wellFormed node = true ->
  envTyped (env st) ->
  executeNode node st = Done v st' ->
  Environment.get name (env st') = inr b ->
  wellTyped (type b) (value b).
Proof.
  intros Hwf Hst Hrun. apply envTyped_get.
  by apply (typed_statement node Hwf st v st').
Qed.

(** The theorem at [x = 'abc'] for a variable [x] declared [bool]. *)
Lemma variables_keep_their_declared_type_witness :
  wellTyped "bool" (VBool true).
Proof.
  apply (variables_keep_their_declared_type
           (AssignVar "x" (StringLiteral "abc"))
           (MkState (Environment.Env {[ "x" := MkVariable "bool" (VBool false) ]} None)
              [] [] [])
           (MkState (Environment.Env
                       (<[ "x" := MkVariable "bool" (VBool true) ]>
                          {[ "x" := MkVariable "bool" (VBool false) ]}) None)
              [] [] [])
           (VBool true) "x" (MkVariable "bool" (VBool true))).
  - reflexivity.
  - repeat constructor. apply map_Forall_singleton. by exists false.
  - reflexivity.
  - reflexivity.
Defined.

(** ** The trees the parser builds *)

Section ParserTrees.

Import Tokens Parser.

Lemma yields_ret {A} (Q : A -> Prop) (a : A) : Q a -> yields Q (ret a).
Proof. intros Ha ts a' ts' [= <- <-]. exact Ha. Qed.

Lemma yields_bind {A B} (R : A -> Prop) (Q : B -> Prop) (m : P A) (k : A -> P B) :
  yields R m -> (forall a, R a -> yields Q (k a)) -> yields Q (bind m k).
Proof.
  intros Hm Hk ts b ts'. unfold bind.
  destruct (m ts) as [a s1| | |] eqn:Hms; try discriminate.
  apply (Hk a). by apply (Hm ts a s1).
Qed.

Lemma yields_any {A} (m : P A) : yields (fun _ => True) m.
Proof. by intros ts a ts' _. Qed.

Lemma yields_error {A} (Q : A -> Prop) (kind : ParseErrorKind) : yields Q (error kind).
Proof. intros ts a ts' H. discriminate H. Qed.

Lemma yields_outOfFuel {A} (Q : A -> Prop) :
  yields Q (@outOfFuel (list Token) ParseError A).
Proof. intros ts a ts' H. discriminate H. Qed.

Lemma yields_hostDefined {A} (Q : A -> Prop) (w : string) :
  yields Q (@hostDefined (list Token) ParseError A w).
Proof. intros ts a ts' H. discriminate H. Qed.

Lemma yields_apply {A} (Q : A -> Prop) (m : P A) (ts : list Token) (a : A)
    (ts' : list Token) :
  yields Q m -> m ts = Done a ts' -> Q a.
Proof. intros Hm. apply Hm. Qed.

Create HintDb yields.

Hint Resolve yields_error yields_outOfFuel yields_hostDefined : yields.

Lemma forallb_Forall_true {A} (f : A -> bool) (l : list A) :
  Forall (fun x => f x = true) l -> forallb f l = true.
Proof. induction 1 as [|x l Hx _ IH]; simpl; [done|by rewrite Hx, IH]. Qed.

(** Closes a goal [Q a] on a node built from parts known to be of the
    right shape. *)
Ltac shape_done :=
  unfold expressionNode, expressionNodes, statementNode, statementNodes, entryNode,
    optionalStatement in *;
  repeat match goal with
         | H : Forall _ _ |- _ => apply forallb_Forall_true in H
         end;
  cbn [isExpression wellFormed forallb fst snd] in *;
  repeat match goal with
         | H : _ && _ = true |- _ => apply andb_prop in H as [? ?]
         end;
  repeat match goal with
         | H : _ = true |- _ => rewrite H; clear H
         end;
  try reflexivity.

(** Splits a goal [yields Q m] along the structure of [m]. *)
Ltac yields_step :=
  lazymatch goal with
  | |- yields _ (bind _ _) =>
      eapply yields_bind;
      [first [solve [eauto with yields]|apply yields_any]|intros ? ?]
  | |- yields _ (ret _) => apply yields_ret; shape_done
  | |- yields _ (if ?b then _ else _) => destruct b
  | |- yields _ (match ?x with _ => _ end) => destruct x
  | |- yields _ _ => solve [eauto with yields]
  end.

Ltac yields_auto := repeat yields_step.

Lemma binaryLoop_yields (ops : list TokenType) (next : P ASTNode) :
  yields expressionNode next ->
  forall fuel left,
    expressionNode left -> yields expressionNode (binaryLoop fuel ops next left).
Proof.
  intros Hnext. induction fuel as [|fuel IH]; intros left Hleft ts a ts'; simpl;
    destruct (existsb _ ops); try discriminate; try (by intros [= <- <-]).
  apply (yields_apply expressionNode). yields_auto.
  apply IH. shape_done.
Qed.

Lemma commaLoop_yields {A} (Q : A -> Prop) (next : P A) :
  yields Q next ->
  forall fuel items, Forall Q items -> yields (Forall Q) (commaLoop fuel next items).
Proof.
  intros Hnext. induction fuel as [|fuel IH]; intros items Hitems ts a ts'; simpl;
    destruct (checkType COMMA ts); try discriminate; try (by intros [= <- <-]).
  apply (yields_apply (Forall Q)). yields_auto.
  apply IH. apply Forall_app. split; [done|by constructor].
Qed.

Lemma commaSeparated_yields {A} (Q : A -> Prop) (close : TokenType) (next : P A)
    (fuel : nat) :
  yields Q next -> yields (Forall Q) (commaSeparated fuel close next).
Proof.
  intros Hnext ts a ts'. unfold commaSeparated.
  destruct (checkType close ts); [by intros [= <- <-]|].
  apply (yields_apply (Forall Q)). yields_auto.
  apply commaLoop_yields; [done|by constructor].
Qed.

Lemma postfixLoop_yields (parseExpression : P ASTNode) :
  yields expressionNode parseExpression ->
  forall fuel node,
    expressionNode node -> yields expressionNode (postfixLoop fuel parseExpression node).
Proof.
  intros Hnext. induction fuel as [|fuel IH]; intros node Hnode ts a ts'; simpl;
    destruct (checkType LBRACKET ts); try discriminate; try (by intros [= <- <-]).
  apply (yields_apply expressionNode). yields_auto.
  apply IH. shape_done.
Qed.

Lemma dictEntry_yields (parseExpression : P ASTNode) :
  yields expressionNode parseExpression -> yields entryNode (dictEntry parseExpression).
Proof. intros H. unfold dictEntry. yields_auto. Qed.

Hint Resolve binaryLoop_yields commaSeparated_yields postfixLoop_yields
  dictEntry_yields : yields.

Lemma parseExpression_yields (fuel : nat) :
  yields expressionNode (parseOr fuel)
  /\ yields expressionNode (parseAnd fuel)
  /\ yields expressionNode (parseEquality fuel)
  /\ yields expressionNode (parseComparison fuel)
  /\ yields expressionNode (parseAddition fuel)
  /\ yields expressionNode (parseMultiplication fuel)
  /\ yields expressionNode (parsePower fuel)
  /\ yields expressionNode (parseUnary fuel)
  /\ yields expressionNode (parsePostfix fuel)
  /\ yields expressionNode (parsePrimary fuel).
Proof.
  induction fuel as [|f (HOr & HAnd & HEq & HCmp & HAdd & HMul & HPow & HUn & HPost & HPrim)].
  - repeat split; apply yields_outOfFuel.
  - repeat split; simpl.
    + yields_auto.
    + yields_auto.
    + yields_auto.
    + yields_auto.
    + yields_auto.
    + yields_auto.
    + yields_auto.
    + yields_auto.
    + yields_auto.
    + intros ts a ts'.
      destruct (type (current ts)); try discriminate;
        apply (yields_apply expressionNode); yields_auto.
Qed.

Lemma parseOr_yields (fuel : nat) : yields expressionNode (parseExpression fuel).
Proof. apply parseExpression_yields. Qed.

Hint Resolve parseOr_yields : yields.

Lemma parseEcho_yields (fuel : nat) : yields statementNode (parseEcho fuel).
Proof. unfold parseEcho. yields_auto. Qed.

Lemma parseCreateVar_yields (fuel : nat) : yields statementNode (parseCreateVar fuel).
Proof.
  unfold parseCreateVar. eapply yields_bind; [apply yields_any|intros _ _].
  intros ts a ts'. destruct (varTypeOf (type (current ts))); [|discriminate].
  apply (yields_apply statementNode). yields_auto.
Qed.

Lemma parseMethodArgs_yields (fuel : nat) (method collectionType : string) :
  yields (Forall expressionNode) (parseMethodArgs fuel method collectionType).
Proof.
  unfold parseMethodArgs.
  assert (Hloop : forall items, Forall expressionNode items ->
            yields (Forall expressionNode) (commaLoop fuel (parseExpression fuel) items)).
  { intros items Hitems. apply commaLoop_yields; [apply parseOr_yields|done]. }
  eapply yields_bind; [apply yields_any|intros isClose _].
  destruct isClose; [by apply yields_ret|].
  eapply yields_bind; [apply parseOr_yields|intros first Hfirst].
  eapply yields_bind; [apply yields_any|intros isColon _].
  destruct (_ && isColon).
  - eapply yields_bind; [apply yields_any|intros _ _].
    eapply yields_bind; [apply parseOr_yields|intros second Hsecond].
    apply Hloop. by repeat constructor.
  - apply Hloop. by repeat constructor.
Qed.

Hint Resolve parseMethodArgs_yields : yields.

Lemma parseIdentifierStatement_yields (fuel : nat) :
  yields statementNode (parseIdentifierStatement fuel).
Proof.
  unfold parseIdentifierStatement.
  eapply yields_bind; [apply yields_any|intros name _].
  eapply yields_bind; [apply yields_any|intros isDot _].
  destruct isDot.
  - eapply yields_bind; [apply yields_any|intros _ _].
    intros ts a ts'. destruct (methodOf (type (current ts))); [|discriminate].
    apply (yields_apply statementNode).
    eapply yields_bind; [apply yields_any|intros _ _].
    eapply yields_bind; [apply yields_any|intros _ _].
    clear ts a ts'. intros ts a ts'.
    destruct (collectionTypeOf (type (current ts))); [|discriminate].
    apply (yields_apply statementNode). yields_auto.
  - yields_auto.
Qed.

Lemma blockLoop_yields (parseStatement : P ASTNode) :
  yields statementNode parseStatement ->
  forall fuel statements,
    Forall statementNode statements ->
    yields (Forall statementNode) (blockLoop fuel parseStatement statements).
Proof.
  intros Hnext. induction fuel as [|fuel IH]; intros statements Hs ts a ts'; simpl;
    destruct (_ && _); try discriminate; try (by intros [= <- <-]).
  apply (yields_apply (Forall statementNode)). yields_auto.
  apply IH. apply Forall_app. split; [done|by constructor].
Qed.

Lemma parseForAssign_yields (fuel : nat) : yields statementNode (parseForAssign fuel).
Proof. unfold parseForAssign. yields_auto. Qed.

Hint Resolve parseEcho_yields parseCreateVar_yields parseIdentifierStatement_yields
  parseForAssign_yields : yields.

Lemma parseStatement_yields (fuel : nat) :
  yields statementNode (parseStatement fuel)
  /\ yields (Forall statementNode) (parseBlock fuel)
  /\ yields (fun node => statementNode node
                         /\ match node with If _ _ _ => True | _ => False end)
            (parseIf fuel)
  /\ yields statementNode (parseWhile fuel)
  /\ yields statementNode (parseFor fuel).
Proof.
  induction fuel as [|f (HStatement & HBlock & HIf & HWhile & HFor)].
  - split; [|split; [|split; [|split]]]; apply yields_outOfFuel.
  - assert (HIf' : yields statementNode (parseIf f)).
    { intros ts a ts' H. by apply (HIf ts a ts'). }
    split; [|split; [|split; [|split]]]; simpl.
    + intros ts a ts'.
      destruct (type (current ts)); try discriminate;
        apply (yields_apply statementNode); auto with yields.
    + eapply yields_bind; [apply yields_any|intros _ _].
      eapply yields_bind; [by apply blockLoop_yields|intros statements Hs].
      eapply yields_bind; [apply yields_any|intros _ _]. by apply yields_ret.
    + eapply yields_bind; [apply yields_any|intros _ _].
      eapply yields_bind; [apply yields_any|intros _ _].
      eapply yields_bind; [apply parseOr_yields|intros condition Hc].
      eapply yields_bind; [apply yields_any|intros _ _].
      eapply yields_bind; [apply HBlock|intros thenBranch Hthen].
      eapply yields_bind; [apply yields_any|intros isElse _].
      destruct isElse; [|apply yields_ret; split; [shape_done|done]].
      eapply yields_bind; [apply yields_any|intros isIf _].
      destruct isIf.
      * eapply yields_bind; [apply HIf|intros elseBranch [Hwf Hshape]].
        apply yields_ret. split; [|done].
        destruct elseBranch; try done. shape_done.
      * eapply yields_bind; [apply HBlock|intros elseBranch Helse].
        apply yields_ret. split; [shape_done|done].
    + yields_auto.
    + eapply yields_bind; [apply yields_any|intros _ _].
      eapply yields_bind; [apply yields_any|intros _ _].
      eapply yields_bind; [apply yields_any|intros isCreate _].
      eapply (yields_bind optionalStatement).
      { destruct isCreate; yields_auto. }
      intros init Hinit.
      eapply yields_bind; [apply yields_any|intros isSemi _].
      eapply (yields_bind expressionNode).
      { destruct isSemi; [by apply yields_ret|apply parseOr_yields]. }
      intros condition Hc.
      eapply yields_bind; [apply yields_any|intros _ _].
      eapply yields_bind; [apply yields_any|intros isClose _].
      eapply (yields_bind optionalStatement).
      { destruct isClose; yields_auto. }
      intros update Hupdate.
      eapply yields_bind; [apply yields_any|intros _ _].
      eapply yields_bind; [apply HBlock|intros body Hbody].
      apply yields_ret. unfold optionalStatement in *.
      destruct init, update; shape_done.
Qed.

Lemma parseMain_yields (fuel : nat) : yields statementNode (parseMain fuel).
Proof.
  unfold parseMain.
  pose proof (proj1 (proj2 (parseStatement_yields fuel))) as HBlock.
  yields_auto.
Qed.

Lemma parseTopLevel_yields (fuel : nat) : yields statementNode (parseTopLevel fuel).
Proof.
  unfold parseTopLevel. pose proof (parseMain_yields fuel). yields_auto.
Qed.

Lemma topLevelLoop_yields :
  forall fuel statements,
    Forall statementNode statements ->
    yields (Forall statementNode) (topLevelLoop fuel statements).
Proof.
  induction fuel as [|fuel IH]; intros statements Hs ts a ts'; simpl;
    destruct (_ && _); try discriminate; try (by intros [= <- <-]).
  apply (yields_apply (Forall statementNode)).
  eapply yields_bind; [apply parseTopLevel_yields|intros node Hnode].
  apply IH. apply Forall_app. split; [done|by constructor].
Qed.

Lemma parseProgram_yields (fuel : nat) :
  yields (fun program => Forall statementNode (body program)) (parseProgram fuel).
Proof.
  unfold parseProgram.
  eapply yields_bind; [apply yields_any|intros _ _].
  eapply yields_bind; [apply yields_any|intros appNameToken _].
  eapply yields_bind; [apply yields_any|intros _ _].
  eapply yields_bind; [apply yields_any|intros isUsing _].
  eapply yields_bind; [apply yields_any|intros style _].
  eapply yields_bind; [by apply topLevelLoop_yields|intros statements Hs].
  eapply yields_bind; [apply yields_any|intros isEnd _].
  eapply yields_bind; [apply yields_any|intros _ _].
  by apply yields_ret.
Qed.

End ParserTrees.

(** Whatever text it is given, the parser builds statements over
    expressions only: the value of a declaration or an assignment, a
    condition, an argument of [echo] or of a method is never a statement,
    and the [else] part of an [if] is a block or another [if]. *)
Theorem parser_builds_well_formed_statements
    (tokens rest : list Tokens.Token) (program : ProgramNode) :
  Parser.parse tokens = Done program rest ->
  forallb wellFormed (body program) = true.
Proof.
  intros Hparse. apply forallb_Forall_true.
  apply (parseProgram_yields _ tokens program rest Hparse).
Qed.

(** The theorem at the three [echo] statements of the precedence program. *)
Lemma parser_builds_well_formed_statements_witness :
  exists program rest,
    Parser.parse (tokensOf precedenceProgram) = Done program rest
    /\ forallb wellFormed (body program) = true.
Proof.
  eexists. eexists. split; [vm_compute; reflexivity|].
  eapply (parser_builds_well_formed_statements (tokensOf precedenceProgram)).
  vm_compute. reflexivity.
Defined.

(** [parseExpression] builds expressions only: operators, literals, names,
    calls, [write], [rand] and indexing, with no statement inside. *)
Theorem parseExpression_builds_expressions
    (fuel : nat) (ts ts' : list Tokens.Token) (e : ASTNode) :
  Parser.parseExpression fuel ts = Done e ts' -> isExpression e = true.
Proof. apply (parseOr_yields fuel ts e ts'). Qed.

(** The theorem at [1 + 2 * 3]. *)
Lemma parseExpression_builds_expressions_witness :
  isExpression (BinaryExpr "+" (lit 1) (BinaryExpr "*" (lit 2) (lit 3))) = true.
Proof.
  eapply (parseExpression_builds_expressions
            (Parser.parseFuel (tokensOf "1 + 2 * 3")) (tokensOf "1 + 2 * 3")).
  vm_compute. reflexivity.
Defined.

(** ** The lexer reads every source to its end *)

Section LexerTotal.

Import Tokens Lexer.

Lemma unread_skip (c : Cursor) : unread (skip c) = Nat.pred (unread c).
Proof.
  unfold unread, skip, advance, current. destruct c as [[|ch r] l col]; simpl; [done|].
  by destruct (Ascii.eqb ch "010").
Qed.

Lemma unread_atEnd (c : Cursor) : atEnd c = false -> (0 < unread c)%nat.
Proof. unfold atEnd, unread. destruct (rest c); [discriminate|simpl; lia]. Qed.

Lemma skipWhitespaceFrom_unread (s : string) :
  forall l col, (unread (skipWhitespaceFrom s l col) <= String.length s)%nat.
Proof.
  induction s as [|ch r IH]; intros l col; simpl; [done|].
  destruct (_ || _); [specialize (IH l (S col)); lia|].
  destruct (Ascii.eqb ch "010"); [specialize (IH (S l) 1%nat); lia|done].
Qed.

Lemma skipSingleLineCommentFrom_unread (s : string) :
  forall l col, (unread (skipSingleLineCommentFrom s l col) <= String.length s)%nat.
Proof.
  induction s as [|ch r IH]; intros l col; simpl; [done|].
  destruct (Ascii.eqb ch "010"); [done|specialize (IH l (S col)); lia].
Qed.

Lemma skipMultiLineCommentFrom_unread (s : string) :
  forall l col c,
    skipMultiLineCommentFrom s l col = inr c -> (unread c <= String.length s)%nat.
Proof.
  induction s as [|ch r IH]; intros l col c; simpl; [discriminate|].
  destruct r as [|ch' r'].
  - destruct (Ascii.eqb ch "010"); intros H; apply IH in H; simpl in *; lia.
  - destruct (Ascii.eqb ch "*" && Ascii.eqb ch' "#").
    + intros [= <-]. unfold unread. simpl. lia.
    + destruct (Ascii.eqb ch "010"); intros H; apply IH in H; simpl in *; lia.
Qed.

Lemma takeWhile_unread (p : ascii -> bool) (s : string) :
  forall col value,
    (String.length (snd (fst (takeWhile p s col value))) <= String.length s)%nat.
Proof.
  induction s as [|ch r IH]; intros col value; simpl; [done|].
  destruct (p ch); [specialize (IH (S col) (appendChar value ch)); lia|done].
Qed.

Lemma takeWhile_unread_first (p : ascii -> bool) (ch : ascii) (r : string)
    (col : nat) (value : string) :
  p ch = true ->
  (String.length (snd (fst (takeWhile p (String ch r) col value))) < S (String.length r))%nat.
Proof.
  intros Hp. simpl. rewrite Hp.
  pose proof (takeWhile_unread p r (S col) (appendChar value ch)). lia.
Qed.

Lemma readStringFrom_unread (quote : ascii) (startLine startCol : nat) :
  forall (n : nat) (s : string) l col value t c,
    (String.length s <= n)%nat ->
    readStringFrom quote startLine startCol s l col value = inr (t, c) ->
    (unread c < String.length s)%nat /\ type t = STRING_LITERAL.
Proof.
  induction n as [|n IH]; intros s l col value t c Hn; destruct s as [|ch r];
    simpl in *; try discriminate; try lia.
  destruct (Ascii.eqb ch quote).
  - intros [= <- <-]. split; [|done]. rewrite unread_skip. unfold unread. simpl. lia.
  - destruct (Ascii.eqb ch "\").
    + destruct r as [|escaped r']; [discriminate|].
      intros H. apply IH in H as [H ?]; simpl in *; [split; [lia|done]|lia].
    + intros H. apply IH in H as [H ?]; simpl in *; [split; [lia|done]|lia].
Qed.

Lemma keywordGet_notEOF (v : string) (t : TokenType) :
  keywordGet keywords v = Some t -> t <> EOF.
Proof.
  unfold keywords. cbn [keywordGet].
  repeat match goal with
         | |- context [String.eqb ?k v] => destruct (String.eqb k v)
         end; intros H; by simplify_eq.
Qed.

Lemma twoCharOperator_notEOF (ch nxt : ascii) (ty : TokenType) (text : string) :
  twoCharOperator ch nxt = Some (ty, text) -> ty <> EOF.
Proof.
  unfold twoCharOperator.
  repeat match goal with
         | |- context [if ?b then _ else _] => destruct b
         end; intros H; by simplify_eq.
Qed.

Lemma oneCharOperator_notEOF (ch : ascii) (ty : TokenType) :
  oneCharOperator ch = Some ty -> ty <> EOF.
Proof.
  unfold oneCharOperator.
  repeat match goal with
         | |- context [if ?b then _ else _] => destruct b
         end; intros H; by simplify_eq.
Qed.

Lemma readDirective_progress (c : Cursor) (t : Token) (c' : Cursor) :
  readDirective c = inr (t, c') ->
  (unread c' <= Nat.pred (unread c))%nat /\ notEOF t.
Proof.
  unfold readDirective.
  pose proof (takeWhile_unread isAlphaNumeric (rest (skip c)) (ccolumn (skip c)) "@") as Htw.
  destruct (takeWhile _ _ _ _) as [[value r] col]. simpl in Htw.
  fold (unread (skip c)) in Htw. rewrite unread_skip in Htw.
  destruct (String.eqb value "@VoidApp"); [by intros [= <- <-]|].
  destruct (String.eqb value "@VoidEnd"); [by intros [= <- <-]|discriminate].
Qed.

Lemma readString_progress (c : Cursor) (t : Token) (c' : Cursor) :
  readString c = inr (t, c') -> (unread c' < unread c)%nat /\ notEOF t.
Proof.
  unfold readString. destruct (advance c) as [quote c1] eqn:Hadv.
  assert (Hc1 : c1 = skip c) by (unfold skip; by rewrite Hadv).
  intros H. apply (readStringFrom_unread _ _ _ (String.length (rest c1))) in H as [H Ht];
    [|done].
  fold (unread c1) in H. rewrite Hc1, unread_skip in H.
  split; [lia|]. unfold notEOF. by rewrite Ht.
Qed.

Lemma readNumber_progress (c : Cursor) :
  isDigit (current c) = true -> atEnd c = false ->
  (unread (snd (readNumber c)) < unread c)%nat /\ notEOF (fst (readNumber c)).
Proof.
  unfold readNumber, atEnd, current, unread. destruct c as [[|ch r] l col]; simpl;
    [discriminate|]. intros Hd _. rewrite Hd.
  pose proof (takeWhile_unread isDigit r (S col) (appendChar "" ch)) as Htw.
  destruct (takeWhile isDigit r (S col) (appendChar "" ch)) as [[value r1] col1].
  simpl in Htw.
  destruct (_ && _); [|simpl; split; [lia|done]].
  pose proof (takeWhile_unread isDigit (rest (skip (MkCursor r1 l col1)))
                (ccolumn (skip (MkCursor r1 l col1))) (appendChar value ".")) as Htw2.
  destruct (takeWhile isDigit _ _ (appendChar value ".")) as [[value2 r2] col2].
  simpl in *. fold (unread (skip (MkCursor r1 l col1))) in Htw2.
  rewrite unread_skip in Htw2. unfold unread in Htw2. simpl in Htw2.
  split; [lia|done].
Qed.

Lemma readIdentifier_progress (c : Cursor) (t : Token) (c' : Cursor) :
  isAlpha (current c) = true -> atEnd c = false ->
  readIdentifier c = (t, c') ->
  (unread c' < unread c)%nat /\ notEOF t.
Proof.
  unfold readIdentifier, atEnd, current, unread. destruct c as [[|ch r] l col];
    cbn [rest cline ccolumn]; [discriminate|]. intros Ha _.
  cbn [takeWhile]. unfold isAlphaNumeric at 1. rewrite Ha. cbn [orb].
  pose proof (takeWhile_unread isAlphaNumeric r (S col) (appendChar "" ch)) as Htw.
  destruct (takeWhile isAlphaNumeric r (S col) (appendChar "" ch)) as [[value r1] col1].
  cbn [fst snd] in Htw. cbn [String.length].
  destruct (_ && _).
  - intros [= <- <-]. fold (unread (skip (MkCursor r1 l col1))). rewrite unread_skip.
    unfold unread. cbn [rest]. split; [lia|done].
  - destruct (keywordGet keywords value) as [ty|] eqn:Hkw; intros [= <- <-];
      cbn [rest]; (split; [lia|]).
    + by apply (keywordGet_notEOF value).
    + done.
Qed.

Lemma tokenizeStep_progress (c0 : Cursor) (ts : list Token) (c' : Cursor) :
  atEnd c0 = false ->
  tokenizeStep c0 = inr (ts, c') ->
  (unread c' < unread c0)%nat /\ Forall notEOF ts.
Proof.
  intros H0 Hstep. apply unread_atEnd in H0.
  assert (Hc : (unread (skipWhitespace c0) <= unread c0)%nat)
    by apply skipWhitespaceFrom_unread.
  unfold tokenizeStep in Hstep. set (c := skipWhitespace c0) in *.
  destruct (atEnd c) eqn:Hend.
  { injection Hstep as <- <-. split; [|done].
    unfold atEnd in Hend. unfold unread at 1. destruct (rest c); [simpl; lia|discriminate]. }
  pose proof (unread_atEnd c Hend) as Hpos.
  destruct (Ascii.eqb (current c) "/" && Ascii.eqb (peek c) "/") eqn:Hcomment.
  { injection Hstep as <- <-. split; [|done].
    apply andb_prop in Hcomment as [Hch _]. apply Ascii.eqb_eq in Hch.
    unfold skipSingleLineComment, current, unread in *.
    destruct (rest c) as [|ch r]; [simpl in Hpos; lia|]. subst ch. simpl.
    pose proof (skipSingleLineCommentFrom_unread r (cline c) (S (ccolumn c))) as H.
    unfold unread in H. simpl in Hc. lia. }
  destruct (Ascii.eqb (current c) "#" && Ascii.eqb (peek c) "*").
  { destruct (skipMultiLineComment c) as [e|c1] eqn:Hskip; [discriminate|].
    injection Hstep as <- <-. split; [|done].
    unfold skipMultiLineComment in Hskip.
    apply skipMultiLineCommentFrom_unread in Hskip.
    fold (unread (skip (skip c))) in Hskip. rewrite !unread_skip in Hskip. lia. }
  destruct (Ascii.eqb (current c) "@").
  { destruct (readDirective c) as [e|[t c1]] eqn:Hread; [discriminate|].
    injection Hstep as <- <-. apply readDirective_progress in Hread as [H Ht].
    split; [lia|by constructor]. }
  destruct (Ascii.eqb (current c) "034" || Ascii.eqb (current c) "'").
  { destruct (readString c) as [e|[t c1]] eqn:Hread; [discriminate|].
    injection Hstep as <- <-. apply readString_progress in Hread as [H Ht].
    split; [lia|by constructor]. }
  destruct (isDigit (current c)) eqn:Hdigit.
  { destruct (readNumber_progress c Hdigit Hend) as [H Ht].
    destruct (readNumber c) as [t c1]. injection Hstep as <- <-. simpl in *.
    split; [lia|by constructor]. }
  destruct (isAlpha (current c)) eqn:Halpha.
  { destruct (readIdentifier c) as [t c1] eqn:Hread. injection Hstep as <- <-.
    apply (readIdentifier_progress c t c1 Halpha Hend) in Hread as [H Ht].
    split; [lia|by constructor]. }
  destruct (twoCharOperator (current c) (peek c)) as [[ty text]|] eqn:Htwo.
  { injection Hstep as <- <-. rewrite !unread_skip. split; [lia|].
    constructor; [|done]. by apply (twoCharOperator_notEOF (current c) (peek c) ty text). }
  destruct (oneCharOperator (current c)) as [ty|] eqn:Hone; [|discriminate].
  injection Hstep as <- <-. rewrite unread_skip. split; [lia|].
  constructor; [|done]. by apply (oneCharOperator_notEOF (current c)).
Qed.

Lemma tokenizeLoop_total :
  forall (fuel : nat) (tokens : list Token) (c : Cursor),
    (unread c <= fuel)%nat ->
    Forall notEOF tokens ->
    match tokenizeLoop fuel tokens c with
    | Done result c' =>
        exists front l col,
          result = (front ++ [createToken EOF "" l col])%list
          /\ Forall notEOF front /\ rest c' = ""
    | Throw _ _ => True
    | _ => False
    end.
Proof.
  induction fuel as [|fuel IH]; intros tokens c Hfuel Htokens; simpl;
    destruct (atEnd c) eqn:Hend.
  - exists tokens, (cline c), (ccolumn c). repeat split; [done|].
    unfold atEnd in Hend. by destruct (rest c).
  - apply unread_atEnd in Hend. lia.
  - exists tokens, (cline c), (ccolumn c). repeat split; [done|].
    unfold atEnd in Hend. by destruct (rest c).
  - destruct (tokenizeStep c) as [e|[ts c']] eqn:Hstep; [done|].
    apply tokenizeStep_progress in Hstep as [Hless Hts]; [|done].
    apply IH; [lia|]. apply Forall_app. by split.
Qed.

End LexerTotal.

(** [tokenize] comes to an end on every source text: it gives the tokens
    or throws a lexer error.  The tokens it gives end with the one EOF
    token of the list, and the whole text has been read. *)
Theorem tokenize_total (source : string) :
  match Lexer.tokenize source with
  | Done tokens c =>
      exists front l col,
        tokens = (front ++ [Tokens.createToken Tokens.EOF "" l col])%list
        /\ Forall notEOF front /\ Lexer.rest c = ""
  | Throw _ _ => True
  | _ => False
  end.
Proof. apply tokenizeLoop_total; [done|constructor]. Qed.

(** ** Errors that are found before anything is evaluated *)

(** [/] and [%] look at the divisor first: when the right operand
    converts to zero the error is the division (or modulo) by zero,
    whatever the left operand is, even one that converts to no number;
    and when the right operand converts to no number, that is the error.
    Both operands have been evaluated by then. *)
Theorem division_checks_the_divisor_first
    (l r : ASTNode) (st s1 s2 : State) (vl vr : VoidValue) :
  executeNode l st = Done vl s1 ->
  executeNode r s1 = Done vr s2 ->
  (forall d, toNumber vr = Ok d -> numEq d (NInt 0) = true ->
     executeNode (BinaryExpr "/" l r) st = Throw (RuntimeError DivisionByZero) s2
     /\ executeNode (BinaryExpr "%" l r) st = Throw (RuntimeError ModuloByZero) s2)
  /\ (forall e, toNumber vr = Fail e ->
        executeNode (BinaryExpr "/" l r) st = Throw e s2
        /\ executeNode (BinaryExpr "%" l r) st = Throw e s2).
Proof.
  intros Hl Hr. split.
  - intros d Hd Hzero. split; cbn [executeNode]; unfold executeBinaryExpr, bind;
      rewrite Hl, Hr; unfold getHeap, binaryOperation; cbn [String.eqb Ascii.eqb Bool.eqb];
      unfold bind, liftResult; rewrite Hd, Hzero; reflexivity.
  - intros e He. split; cbn [executeNode]; unfold executeBinaryExpr, bind;
      rewrite Hl, Hr; unfold getHeap, binaryOperation; cbn [String.eqb Ascii.eqb Bool.eqb];
      unfold bind, liftResult; rewrite He; reflexivity.
Qed.

(** The theorem at ['abc' / ''] and ['abc' % '']. *)
Lemma division_checks_the_divisor_first_witness :
  executeNode (BinaryExpr "/" (StringLiteral "abc") (StringLiteral "")) (initialState [])
  = Throw (RuntimeError DivisionByZero) (initialState [])
  /\ executeNode (BinaryExpr "%" (StringLiteral "abc") (StringLiteral "")) (initialState [])
     = Throw (RuntimeError ModuloByZero) (initialState []).
Proof.
  apply (proj1 (division_checks_the_divisor_first
                  (StringLiteral "abc") (StringLiteral "")
                  (initialState []) (initialState []) (initialState [])
                  (VStr "abc") (VStr "") eq_refl eq_refl) (NInt 0));
    reflexivity.
Defined.

(** A method call that is rejected for its receiver, its method or the
    number of its arguments is rejected before any argument is evaluated:
    the error is thrown in the state the call started in.  The receiver is
    looked up first, then the method is checked, then the kind of the
    receiver, then the number of arguments. *)
Theorem rejected_method_call_evaluates_nothing
    (x method collectionType : string) (args : list ASTNode) (st : State) :
  let call := executeNode (MethodCall x method collectionType args) st in
  (forall e, Environment.get x (env st) = inl e -> call = Throw e st)
  /\ (forall variable,
        Environment.get x (env st) = inr variable ->
        (method <> "add" -> method <> "delete" -> method <> "clear" ->
         call = Throw (RuntimeError (UnknownMethod method)) st)
        /\ (method = "add" \/ method = "delete" \/ method = "clear" ->
            (collectionType = "list" -> isArray (value variable) = false ->
             call = Throw (RuntimeError (NotAList x)) st)
            /\ (collectionType = "dict" -> isVoidDict (value variable) = false ->
                call = Throw (RuntimeError (NotADict x)) st)
            /\ (collectionType = "list" /\ isArray (value variable) = true
                \/ collectionType = "dict" /\ isVoidDict (value variable) = true ->
                List.length args
                <> (if String.eqb method "clear" then 0
                    else if String.eqb method "add" && String.eqb collectionType "dict"
                    then 2 else 1)%nat ->
                exists callee, call = Throw (RuntimeError (WrongArgumentCount callee)) st))).
Proof.
  intros call.
  assert (Hfail : forall e, Environment.get x (env st) = inl e -> call = Throw e st).
  { intros e He. unfold call. cbn [executeNode].
    unfold executeMethodCall, envGet, bind, getEnv, liftEnv. by rewrite He. }
  assert (Hok : forall variable,
             Environment.get x (env st) = inr variable ->
             call = (if String.eqb method "add"
                     then executeMethodAdd x collectionType (map executeNode args) variable
                     else if String.eqb method "delete"
                     then executeMethodDelete x collectionType (map executeNode args) variable
                     else if String.eqb method "clear"
                     then executeMethodClear x collectionType (map executeNode args) variable
                     else throw (RuntimeError (UnknownMethod method))) st).
  { intros variable He. unfold call. cbn [executeNode].
    unfold executeMethodCall, envGet, bind, getEnv, liftEnv. by rewrite He. }
  split; [exact Hfail|]. intros variable Hget. rewrite (Hok variable Hget).
  clear Hfail Hok call. split.
  - intros Hadd Hdelete Hclear.
    rewrite (proj2 (String.eqb_neq method "add") Hadd).
    rewrite (proj2 (String.eqb_neq method "delete") Hdelete).
    by rewrite (proj2 (String.eqb_neq method "clear") Hclear).
  - intros Hmethod. repeat split.
    + intros -> Hkind.
      destruct Hmethod as [Hm|[Hm|Hm]]; subst method; cbn [String.eqb Ascii.eqb Bool.eqb];
        unfold executeMethodAdd, executeMethodDelete, executeMethodClear;
        cbn [String.eqb Ascii.eqb Bool.eqb];
        by destruct (value variable).
    + intros -> Hkind.
      destruct Hmethod as [Hm|[Hm|Hm]]; subst method; cbn [String.eqb Ascii.eqb Bool.eqb];
        unfold executeMethodAdd, executeMethodDelete, executeMethodClear;
        cbn [String.eqb Ascii.eqb Bool.eqb];
        by destruct (value variable).
    + intros Hct Hargs.
      destruct Hmethod as [Hm|[Hm|Hm]], Hct as [[Hc Hkind]|[Hc Hkind]];
        subst method collectionType;
        cbn [String.eqb Ascii.eqb Bool.eqb andb] in *;
        unfold executeMethodAdd, executeMethodDelete, executeMethodClear;
        cbn [String.eqb Ascii.eqb Bool.eqb];
        destruct (value variable); try discriminate Hkind;
        destruct args as [|a1 [|a2 [|a3 args]]]; simpl in Hargs; try lia;
        eexists; reflexivity.
Qed.

(** The theorem at [L.add:list(write('?'), write('?'))]: the call is
    rejected for its two arguments, and nothing is read from the input. *)
Lemma rejected_method_call_evaluates_nothing_witness :
  exists callee,
    executeNode (MethodCall "L" "add" "list"
                   [Write (StringLiteral "?"); Write (StringLiteral "?")]) listState
    = Throw (RuntimeError (WrongArgumentCount callee)) listState.
Proof.
  apply (proj2 (proj2 (proj2 (proj2 (rejected_method_call_evaluates_nothing
                  "L" "add" "list" [Write (StringLiteral "?"); Write (StringLiteral "?")]
                  listState) (MkVariable "list" (VList 0)) eq_refl)
                  (or_introl eq_refl)))).
  - left. split; reflexivity.
  - simpl. lia.
Defined.

(** ** What a run prints *)

Lemma preserves_same_stdout {A} (P : State -> Prop) (m : I A) :
  (forall st st', stdout st' = stdout st -> P st -> P st') ->
  (forall st a st', m st = Done a st' -> stdout st' = stdout st) ->
  preserves P m.
Proof. intros HP Hm st a st' Hst Hrun. apply (HP st); [by apply (Hm st a)|done]. Qed.

Lemma envSet_stdout (name : string) (v : VoidValue) (st : State) (a : unit) (st' : State) :
  envSet name v st = Done a st' -> stdout st' = stdout st.
Proof.
  unfold envSet, bind, getEnv, liftEnv, putEnv.
  destruct (Environment.set name v (env st)); [discriminate|]. by intros [= <- <-].
Qed.

Lemma envDefine_stdout (name ty : string) (v : VoidValue) (st : State) (a : unit)
    (st' : State) :
  envDefine name ty v st = Done a st' -> stdout st' = stdout st.
Proof.
  unfold envDefine, bind, getEnv, liftEnv, putEnv.
  destruct (Environment.define name ty v (env st)); [discriminate|]. by intros [= <- <-].
Qed.

Lemma pushEnvironment_stdout (st : State) (a : unit) (st' : State) :
  pushEnvironment st = Done a st' -> stdout st' = stdout st.
Proof. by intros [= <- <-]. Qed.

Lemma popEnvironment_stdout (st : State) (a : unit) (st' : State) :
  popEnvironment st = Done a st' -> stdout st' = stdout st.
Proof.
  unfold popEnvironment, bind, getEnv, putEnv, ret.
  destruct (Environment.parent (env st)); by intros [= <- <-].
Qed.

Lemma allocate_stdout (o : HeapObject) (st : State) (ref : nat) (st' : State) :
  allocate o st = Done ref st' -> stdout st' = stdout st.
Proof. by intros [= <- <-]. Qed.

Lemma store_stdout (ref : nat) (o : HeapObject) (st : State) (a : unit) (st' : State) :
  store ref o st = Done a st' -> stdout st' = stdout st.
Proof. by intros [= <- <-]. Qed.

Section Output.

Let O (o : list OutputEvent) (st : State) : Prop := o `prefix_of` stdout st.

Lemma output_stdout o (st st' : State) : stdout st' = stdout st -> O o st -> O o st'.
Proof. unfold O. by intros ->. Qed.

Lemma output_consoleLog o (ev : OutputEvent) : preserves (O o) (consoleLog ev).
Proof. intros st a st' HO [= <- <-]. unfold O in *. simpl. by apply prefix_app_r. Qed.

Lemma output_question o (prompt : string) : preserves (O o) (question prompt).
Proof.
  intros st a st' HO. unfold question. destruct (stdin st); [discriminate|].
  intros [= <- <-]. unfold O in *. simpl. by apply prefix_app_r.
Qed.

Lemma output_envSet o (name : string) (v : VoidValue) : preserves (O o) (envSet name v).
Proof. apply preserves_same_stdout; [apply output_stdout|apply envSet_stdout]. Qed.

Lemma output_envDefine o (name ty : string) (v : VoidValue) :
  preserves (O o) (envDefine name ty v).
Proof. apply preserves_same_stdout; [apply output_stdout|apply envDefine_stdout]. Qed.

Lemma output_pushEnvironment o : preserves (O o) pushEnvironment.
Proof. apply preserves_same_stdout; [apply output_stdout|apply pushEnvironment_stdout]. Qed.

Lemma output_popEnvironment o : preserves (O o) popEnvironment.
Proof. apply preserves_same_stdout; [apply output_stdout|apply popEnvironment_stdout]. Qed.

Lemma output_allocate o (obj : HeapObject) : preserves (O o) (allocate obj).
Proof. apply preserves_same_stdout; [apply output_stdout|apply allocate_stdout]. Qed.

Lemma output_store o (ref : nat) (obj : HeapObject) : preserves (O o) (store ref obj).
Proof. apply preserves_same_stdout; [apply output_stdout|apply store_stdout]. Qed.

Hint Resolve output_consoleLog output_question output_envSet output_envDefine
  output_pushEnvironment output_popEnvironment output_allocate output_store : preserves.

Lemma output_executeNode (node : ASTNode) o : preserves (O o) (executeNode node).
Proof.
  apply preserves_executeNode.
  - apply output_consoleLog.
  - apply output_question.
  - intros m Hm j. unfold scopedRun. pose proof (Hm j). preserves_auto.
  - intros j varType name valueExpr He. unfold executeCreateVar. preserves_auto.
  - intros j name valueExpr He. unfold executeAssignVar. preserves_auto.
  - intros j elements He. unfold executeListLiteral. preserves_auto.
  - intros j entries He. unfold executeDictLiteral. preserves_auto.
  - intros j object method collectionType args He.
    unfold executeMethodCall, executeMethodAdd, executeMethodDelete, executeMethodClear.
    preserves_auto.
  - intros j operator h l r. unfold binaryOperation. preserves_auto.
Qed.

Lemma output_runStatements (statements : list ASTNode) (st st' : State) (v : VoidValue) :
  runStatements (map executeNode statements) VNull st = Done v st' ->
  stdout st `prefix_of` stdout st'.
Proof.
  intros Hrun.
  refine (preserves_runStatements (O (stdout st)) _ _ VNull st v st' _ Hrun);
    [|unfold O; reflexivity].
  apply Forall_forall. intros m Hm.
  apply list_elem_of_fmap in Hm as (n & -> & Hn). apply output_executeNode.
Qed.

End Output.

(** A run that finishes has printed, after what was there: the header of
    the application, the line of its style when it has a style that is not
    empty, an empty line, then whatever the program printed, then an empty
    line and the footer.  Nothing a program does removes or changes a line
    already printed. *)
Theorem run_prints_header_first_and_footer_last
    (program : ProgramNode) (st st' : State) :
  execute program st = Done tt st' ->
  exists printed,
    stdout st'
    = (stdout st
       ++ [Header (appName program)]
       ++ match style program with
          | Some s => if String.eqb s "" then [] else [StyleLine s]
          | None => []
          end
       ++ [EmptyLine] ++ printed ++ [EmptyLine; Footer (appName program)])%list.
Proof.
  unfold execute, bind at 1, consoleLog at 1. unfold bind at 1.
  set (s1 := MkState (env st) (heap st) (stdin st) (stdout st ++ [Header (appName program)])).
  set (styleLines := match style program with
                     | Some s => if String.eqb s "" then [] else [StyleLine s]
                     | None => []
                     end).
  assert (Hstyle : match style program with
                   | Some s => if String.eqb s "" then ret tt else consoleLog (StyleLine s)
                   | None => ret tt
                   end s1
                   = Done tt (MkState (env st) (heap st) (stdin st)
                                (stdout s1 ++ styleLines))).
  { unfold styleLines. destruct (style program) as [s|]; [destruct (String.eqb s "")|];
      unfold ret, consoleLog; simpl; by rewrite ?app_nil_r. }
  rewrite Hstyle. unfold bind at 1, consoleLog at 1. unfold bind at 1.
  match goal with
  | |- match runStatements _ _ ?s with _ => _ end = _ -> _ => set (s3 := s)
  end.
  destruct (runStatements (map executeNode (body program)) VNull s3) as [r s4| | |] eqn:Hrun;
    try discriminate.
  apply output_runStatements in Hrun as [printed Hprinted].
  unfold bind, consoleLog. intros [= <-]. exists printed. simpl.
  rewrite Hprinted. simpl. by rewrite <- !app_assoc.
Qed.

(** The theorem at a program that echoes one line. *)
Lemma run_prints_header_first_and_footer_last_witness :
  exists printed,
    [Header "T"; EmptyLine; Log "1"; EmptyLine; Footer "T"]
    = ([] ++ [Header "T"] ++ [] ++ [EmptyLine] ++ printed ++ [EmptyLine; Footer "T"])%list.
Proof.
  apply (run_prints_header_first_and_footer_last
           (MkProgram "T" None [Main [Echo [lit 1]]]) (initialState [])
           (MkState (Environment.new None) [] []
              [Header "T"; EmptyLine; Log "1"; EmptyLine; Footer "T"])).
  reflexivity.
Defined.

(** ** Literals *)

Section Literals.

Import Tokens Lexer.

Lemma append_appendChar (v : string) (ch : ascii) (r : string) :
  appendChar v ch +:+ r = v +:+ String ch r.
Proof.
  unfold appendChar. induction v as [|c v IH]; [done|].
  change (String c ((v +:+ String ch "") +:+ r) = String c (v +:+ String ch r)).
  by f_equal.
Qed.

Lemma append_empty (v : string) : v +:+ "" = v.
Proof.
  induction v as [|c v IH]; [done|].
  change (String c (v +:+ "") = String c v). by f_equal.
Qed.

Lemma takeWhile_every (p : ascii -> bool) (s : string) :
  forall col value,
    everyChar p s = true ->
    takeWhile p s col value = (value +:+ s, EmptyString, (col + String.length s)%nat).
Proof.
  induction s as [|ch r IH]; intros col value; simpl.
  - intros _. f_equal; [f_equal|lia].
    symmetry. apply append_empty.
  - intros [Hch Hr]%andb_prop. rewrite Hch, IH by done.
    f_equal; [f_equal; apply append_appendChar|lia].
Qed.

Lemma string_of_uint_digits (u : Decimal.uint) :
  everyChar isDigit (NilEmpty.string_of_uint u) = true.
Proof. induction u; simpl; try rewrite IHu; reflexivity. Qed.

Lemma tokenizeLoop_atEnd (fuel : nat) (tokens : list Token) (c : Cursor) :
  atEnd c = true ->
  tokenizeLoop fuel tokens c
  = Done (tokens ++ [createToken EOF "" (cline c) (ccolumn c)])%list c.
Proof. intros H. destruct fuel; simpl; by rewrite H. Qed.

Lemma tokenizeStep_digits (u : Decimal.uint) (l col : nat) :
  u <> Decimal.Nil ->
  let text := NilEmpty.string_of_uint u in
  tokenizeStep (MkCursor text l col)
  = inr ([createToken INT_LITERAL text l col],
         MkCursor "" l (col + String.length text)).
Proof.
  intros Hu text. unfold text.
  destruct u as [|u|u|u|u|u|u|u|u|u|u]; [done|..];
    cbn [NilEmpty.string_of_uint];
    unfold tokenizeStep, skipWhitespace; cbn [rest cline ccolumn skipWhitespaceFrom];
    cbn [Ascii.eqb Bool.eqb orb andb];
    unfold atEnd, current, peek; cbn [rest];
    cbn [Ascii.eqb Bool.eqb orb andb];
    (replace (isDigit _) with true by reflexivity);
    unfold readNumber; cbn [rest cline ccolumn takeWhile];
    (replace (isDigit _) with true by reflexivity);
    rewrite takeWhile_every by apply string_of_uint_digits;
    unfold current, peek; cbn [rest Ascii.eqb Bool.eqb orb andb];
    cbn [String.length]; rewrite Nat.add_succ_r; reflexivity.
Qed.

Lemma tokenize_natural (u : Decimal.uint) :
  u <> Decimal.Nil ->
  let text := NilEmpty.string_of_uint u in
  tokenize text
  = Done [createToken INT_LITERAL text 1 1;
          createToken EOF "" 1 (1 + String.length text)]
         (MkCursor "" 1 (1 + String.length text)).
Proof.
  intros Hu text. unfold tokenize.
  pose proof (tokenizeStep_digits u 1 1 Hu) as Hstep. fold text in Hstep.
  destruct (String.length text) as [|fuel] eqn:Hlen.
  { unfold text in Hlen. by destruct u. }
  cbn [tokenizeLoop]. unfold atEnd at 1. cbn [rest].
  destruct text as [|ch r] eqn:Htext; [discriminate|].
  cbv zeta in Hstep. rewrite Hstep, tokenizeLoop_atEnd by done.
  cbn [cline ccolumn app]. by rewrite Hlen.
Qed.

Lemma tokenize_negative (u : Decimal.uint) :
  u <> Decimal.Nil ->
  let text := NilEmpty.string_of_uint u in
  tokenize (String "-" text)
  = Done [createToken MINUS "-" 1 1; createToken INT_LITERAL text 1 2;
          createToken EOF "" 1 (2 + String.length text)]
         (MkCursor "" 1 (2 + String.length text)).
Proof.
  intros Hu text. unfold tokenize.
  pose proof (tokenizeStep_digits u 1 2 Hu) as Hstep. fold text in Hstep.
  assert (Hminus : tokenizeStep (MkCursor (String "-" text) 1 1)
                   = inr ([createToken MINUS "-" 1 1], MkCursor text 1 2)).
  { unfold text. destruct u as [|u|u|u|u|u|u|u|u|u|u]; [done|..]; reflexivity. }
  cbn [String.length tokenizeLoop]. unfold atEnd at 1. cbn [rest].
  rewrite Hminus.
  destruct (String.length text) as [|fuel] eqn:Hlen.
  { unfold text in Hlen. by destruct u. }
  cbn [tokenizeLoop]. unfold atEnd at 1. cbn [rest].
  destruct text as [|ch r] eqn:Htext; [discriminate|].
  cbv zeta in Hstep. rewrite Hstep, tokenizeLoop_atEnd by done.
  cbn [cline ccolumn app]. by rewrite Hlen.
Qed.

Lemma readStringFrom_plain (quote : ascii) (startLine startCol : nat) (r : string)
    (s : string) :
  forall l col value,
    everyChar (fun ch => negb (Ascii.eqb ch quote) && negb (Ascii.eqb ch "\")) s = true ->
    exists l' col',
      readStringFrom quote startLine startCol (s +:+ String quote r) l col value
      = inr (createToken STRING_LITERAL (value +:+ s) startLine startCol,
             MkCursor r l' col').
Proof.
  induction s as [|ch s IH]; intros l col value Hs.
  - change (EmptyString +:+ String quote r) with (String quote r).
    cbn [readStringFrom]. rewrite Ascii.eqb_refl, append_empty.
    unfold skip, advance, current. cbn [rest cline ccolumn snd].
    destruct (Ascii.eqb quote "010"); eauto.
  - change (String ch s +:+ String quote r) with (String ch (s +:+ String quote r)).
    cbn [everyChar] in Hs. apply andb_prop in Hs as [Hch Hs].
    apply andb_prop in Hch as [Hq Hb].
    apply negb_true_iff in Hq, Hb.
    cbn [readStringFrom]. rewrite Hq, Hb.
    destruct (IH (cline (skip (MkCursor (String ch (s +:+ String quote r)) l col)))
                 (ccolumn (skip (MkCursor (String ch (s +:+ String quote r)) l col)))
                 (appendChar value ch) Hs) as (l' & col' & ->).
    rewrite append_appendChar. eauto.
Qed.

Lemma tokenize_string (s : string) :
  everyChar (fun ch => negb (Ascii.eqb ch "'") && negb (Ascii.eqb ch "\")) s = true ->
  exists l col,
    tokenize (String "'" (s +:+ "'"))
    = Done [createToken STRING_LITERAL s 1 1; createToken EOF "" l col]
           (MkCursor "" l col).
Proof.
  intros Hs.
  destruct (readStringFrom_plain "'" 1 1 "" s 1 2 "" Hs) as (l & col & Hread).
  exists l, col. unfold tokenize. cbn [String.length tokenizeLoop].
  unfold atEnd at 1. cbn [rest].
  assert (Hstep : tokenizeStep (MkCursor (String "'" (s +:+ "'")) 1 1)
                  = inr ([createToken STRING_LITERAL s 1 1], MkCursor "" l col)).
  { unfold tokenizeStep, skipWhitespace. cbn [rest cline ccolumn skipWhitespaceFrom].
    cbn [Ascii.eqb Bool.eqb orb andb].
    unfold atEnd, current. cbn [rest]. cbn [Ascii.eqb Bool.eqb orb andb].
    unfold readString, advance, current. cbn [rest cline ccolumn].
    cbn [Ascii.eqb Bool.eqb orb andb rest cline ccolumn]. by rewrite Hread. }
  rewrite Hstep. by rewrite tokenizeLoop_atEnd.
Qed.

End Literals.

(** The decimal text of an integer of the safe range, read as an
    expression and evaluated, gives that integer: a natural number is one
    literal, a negative one is the negation of a literal. *)
Theorem integer_text_denotes_the_integer (z : Z) (st : State) :
  isSafe z = true ->
  exists e,
    parsedExpression (intToString z) = Some e
    /\ executeNode e st = Done (VNum (NInt z)) st.
Proof.
  intros Hsafe.
  pose proof (N_to_uint_nonnil (Z.abs_N z)) as Hnil.
  destruct (Z.lt_ge_cases z 0) as [Hneg|Hpos].
  - exists (UnaryExpr "-" (NumberLiteral (NInt (- z)))). split.
    + unfold parsedExpression, tokensOf. rewrite intToString_negative by done.
      rewrite tokenize_negative by done.
      assert (Hsafe' : isSafe (- z) = true).
      { unfold isSafe in *. apply andb_prop in Hsafe as [H1 H2].
        apply Z.leb_le in H1, H2. apply andb_true_intro. split; apply Z.leb_le; lia. }
      pose proof (parseInt_intToString (- z) Hsafe') as Hparse.
      rewrite intToString_natural in Hparse by lia.
      replace (Z.abs_N (- z)) with (Z.abs_N z) in Hparse by lia.
      revert Hparse. generalize (NilEmpty.string_of_uint (N.to_uint (Z.abs_N z))).
      intros text Hparse. lazy -[parseInt]. by rewrite Hparse.
    + cbn. unfold executeUnaryExpr, bind. cbn.
      destruct z; try lia. reflexivity.
  - exists (NumberLiteral (NInt z)). split; [|reflexivity].
    unfold parsedExpression, tokensOf. rewrite intToString_natural by done.
    rewrite tokenize_natural by done.
    pose proof (parseInt_intToString z Hsafe) as Hparse.
    rewrite intToString_natural in Hparse by done.
    revert Hparse. generalize (NilEmpty.string_of_uint (N.to_uint (Z.abs_N z))).
    intros text Hparse. lazy -[parseInt]. by rewrite Hparse.
Qed.

(** The theorem at the text [-42]. *)
Lemma integer_text_denotes_the_integer_witness :
  exists e,
    parsedExpression "-42" = Some e
    /\ executeNode e (initialState []) = Done (VNum (NInt (-42))) (initialState []).
Proof.
  apply (integer_text_denotes_the_integer (-42) (initialState [])). reflexivity.
Defined.

(** A text without quote and backslash, written between single quotes, is
    read as the string literal of exactly that text, line feeds included,
    and evaluates to it. *)
Theorem string_literal_denotes_its_text (s : string) (st : State) :
  everyChar (fun ch => negb (Ascii.eqb ch "'") && negb (Ascii.eqb ch "\")) s = true ->
  exists e,
    parsedExpression (String "'" (s +:+ "'")) = Some e
    /\ executeNode e st = Done (VStr s) st.
Proof.
  intros Hs. exists (StringLiteral s). split; [|reflexivity].
  destruct (tokenize_string s Hs) as (l & col & Htokens).
  unfold parsedExpression, tokensOf. rewrite Htokens. reflexivity.
Qed.

(** The theorem at the literal ['a b'] . *)
Lemma string_literal_denotes_its_text_witness :
  exists e,
    parsedExpression "'a b'" = Some e
    /\ executeNode e (initialState []) = Done (VStr "a b") (initialState []).
Proof.
  apply (string_literal_denotes_its_text "a b" (initialState [])). reflexivity.
Defined.

(** ** The parser reads every list of tokens to an end *)

Section ParserTotal.

Import Tokens Parser.

Local Open Scope nat_scope.

Lemma bounded_mono {A} (n n' d d' : nat) (m : P A) :
  bounded n d m -> n' <= n -> d' <= d -> bounded n' d' m.
Proof.
  intros Hm Hn Hd ts Hts. specialize (Hm ts ltac:(lia)).
  destruct (m ts); try done. lia.
Qed.

Lemma bounded_ret {A} (n : nat) (a : A) : bounded n 0 (ret a).
Proof. intros ts _. simpl. lia. Qed.

Lemma bounded_error {A} (n d : nat) (kind : ParseErrorKind) :
  bounded n d (@error A kind).
Proof. by intros ts _. Qed.

Lemma bounded_hostDefined {A} (n d : nat) (w : string) :
  bounded n d (@hostDefined (list Token) ParseError A w).
Proof. by intros ts _. Qed.

Lemma bounded_bind {A B} (n d : nat) (m : P A) (k : A -> P B) :
  bounded n 0 m -> (forall a, bounded n d (k a)) -> bounded n d (bind m k).
Proof.
  intros Hm Hk ts Hts. unfold bind. specialize (Hm ts Hts).
  destruct (m ts) as [a ts'| | |]; try done.
  specialize (Hk a ts' ltac:(lia)). destruct (k a ts'); try done. lia.
Qed.

(** Once [m] has read a token, what follows runs on fewer tokens. *)
Lemma bounded_bind_strict {A B} (n d : nat) (m : P A) (k : A -> P B) :
  bounded n 1 m -> d <= 1 ->
  (forall a, 1 <= n -> bounded (n - 1) 0 (k a)) ->
  bounded n d (bind m k).
Proof.
  intros Hm Hd Hk ts Hts. unfold bind. specialize (Hm ts Hts).
  destruct (m ts) as [a ts'| | |]; try done.
  specialize (Hk a ltac:(lia) ts' ltac:(lia)). destruct (k a ts'); try done. lia.
Qed.

Lemma checkType_nonempty (t : TokenType) (ts : list Token) :
  checkType t ts = true -> t <> EOF -> S (List.length (tl ts)) = List.length ts.
Proof.
  unfold checkType, current. destruct ts as [|tok ts]; simpl; [|done].
  intros Ht%bool_decide_eq_true Hneq. by subst.
Qed.

Lemma bounded_check (n : nat) (t : TokenType) : bounded n 0 (check t).
Proof. intros ts _. simpl. lia. Qed.

Lemma bounded_advance (n : nat) : bounded n 0 advance.
Proof. intros ts _. simpl. destruct ts; simpl; lia. Qed.

Lemma bounded_expect (n d : nat) (t : TokenType) :
  t <> EOF -> d <= 1 -> bounded n d (expect t).
Proof.
  intros Ht Hd ts _. unfold expect. destruct (checkType t ts) eqn:Hcheck; [|done].
  simpl. pose proof (checkType_nonempty t ts Hcheck Ht). lia.
Qed.

Lemma bounded_matchAny (n : nat) (types : list TokenType) : bounded n 0 (matchAny types).
Proof.
  intros ts _. induction types as [|t types IH]; simpl; [lia|].
  destruct (checkType t ts); [|done]. destruct ts; simpl; lia.
Qed.

(** [if (check(t)) { advance(); ... } else ...]: the branch that advances
    has read the token it checked. *)
Lemma bounded_check_advance {A} (n : nat) (t : TokenType)
    (thenBranch : Token -> P A) (elseBranch : P A) :
  t <> EOF ->
  (forall tok, 1 <= n -> bounded (n - 1) 0 (thenBranch tok)) ->
  bounded n 0 elseBranch ->
  bounded n 0 (b <- check t ;; if b then x <- advance ;; thenBranch x else elseBranch).
Proof.
  intros Ht Hthen Helse ts Hts. unfold bind at 1, check.
  destruct (checkType t ts) eqn:Hcheck.
  - pose proof (checkType_nonempty t ts Hcheck Ht) as Hlen.
    unfold bind, advance.
    specialize (Hthen (current ts) ltac:(lia) (tl ts) ltac:(lia)).
    destruct (thenBranch (current ts) (tl ts)) as [a ts'| | |]; try done. lia.
  - by apply Helse.
Qed.

Lemma checkType_nil (t : TokenType) : t <> EOF -> checkType t [] = false.
Proof. intros Ht. unfold checkType. apply bool_decide_eq_false. simpl. congruence. Qed.

(** A branch chosen on the kind of the current token, which is not EOF,
    and that starts by reading it. *)
Lemma bounded_advance_at {A} (n d : nat) (k : Token -> P A) (ts : list Token) :
  type (current ts) <> EOF ->
  List.length ts <= n ->
  d <= 1 ->
  (forall tok, 1 <= n -> bounded (n - 1) 0 (k tok)) ->
  match (x <- advance ;; k x) ts with
  | OutOfFuel => False
  | Done _ ts' => List.length ts' + d <= List.length ts
  | _ => True
  end.
Proof.
  intros Hty Hts Hd Hk. destruct ts as [|tok ts]; [done|]. simpl in Hts.
  unfold bind, advance. simpl.
  specialize (Hk tok ltac:(lia) ts ltac:(lia)).
  destruct (k tok ts); try done. lia.
Qed.

Create HintDb bounded.

Hint Resolve bounded_ret bounded_error bounded_hostDefined bounded_check
  bounded_advance bounded_matchAny : bounded.
Hint Extern 1 (bounded _ _ (expect _)) =>
  apply bounded_expect; [discriminate|lia] : bounded.

(** Splits a goal [bounded n d m] along the structure of [m]. *)
Ltac bounded_step :=
  lazymatch goal with
  | |- bounded _ 0 (bind (check _) (fun b => if b then bind advance _ else _)) =>
      apply bounded_check_advance; [discriminate|intros ? ?|]
  | |- bounded _ _ (bind (if ?b then _ else _) _) => destruct b
  | |- bounded _ _ (bind _ _) => apply bounded_bind; [|intros ?]
  | |- bounded _ _ (if ?b then _ else _) => destruct b
  | |- bounded _ _ (match ?x with _ => _ end) => destruct x
  | |- bounded _ _ _ =>
      solve [eauto with bounded
            |eapply bounded_mono; [solve [eauto with bounded]|lia|lia]]
  end.

Ltac bounded_auto := repeat bounded_step.

Lemma binaryLoop_bounded (n : nat) (ops : list TokenType) (next : P ASTNode) :
  Forall (fun t => t <> EOF) ops ->
  bounded n 0 next ->
  forall fuel m left,
    m <= fuel -> m <= n -> bounded m 0 (binaryLoop fuel ops next left).
Proof.
  intros Hops Hnext.
  assert (Hguard : forall ts, existsb (fun t => checkType t ts) ops = true ->
                              S (List.length (tl ts)) = List.length ts).
  { intros ts Hex. apply existsb_exists in Hex as (t & Ht & Hcheck).
    apply (checkType_nonempty t); [done|].
    apply (proj1 (Forall_forall _ _) Hops). by apply list_elem_of_In. }
  induction fuel as [|fuel IH]; intros m left Hm Hn ts Hts; simpl;
    destruct (existsb _ ops) eqn:Hex; try (simpl; lia).
  - apply Hguard in Hex. lia.
  - apply Hguard in Hex. unfold bind, advance.
    pose proof (Hnext (tl ts) ltac:(lia)) as H1.
    destruct (next (tl ts)) as [right ts1| | |]; try done.
    pose proof (IH (m - 1) (BinaryExpr (value (current ts)) left right)
                  ltac:(lia) ltac:(lia) ts1 ltac:(lia)) as H2.
    destruct (binaryLoop fuel ops next _ ts1); try done. lia.
Qed.

Lemma commaLoop_bounded {A} (n : nat) (next : P A) :
  bounded n 0 next ->
  forall fuel m items,
    m <= fuel -> m <= n -> bounded m 0 (commaLoop fuel next items).
Proof.
  intros Hnext.
  induction fuel as [|fuel IH]; intros m items Hm Hn ts Hts; simpl;
    destruct (checkType COMMA ts) eqn:Hex; try (simpl; lia);
    apply checkType_nonempty in Hex; try discriminate; try lia.
  unfold bind.
  pose proof (Hnext (tl ts) ltac:(lia)) as H1.
  destruct (next (tl ts)) as [x ts1| | |]; try done.
  pose proof (IH (m - 1) (items ++ [x])%list ltac:(lia) ltac:(lia) ts1 ltac:(lia)) as H2.
  destruct (commaLoop fuel next _ ts1); try done. lia.
Qed.

Lemma commaSeparated_bounded {A} (n : nat) (close : TokenType) (next : P A)
    (fuel : nat) :
  bounded n 0 next -> n <= fuel -> bounded n 0 (commaSeparated fuel close next).
Proof.
  intros Hnext Hfuel ts Hts. unfold commaSeparated.
  destruct (checkType close ts); [simpl; lia|].
  assert (Hb : bounded n 0 (x <- next ;; commaLoop fuel next [x])).
  { apply bounded_bind; [done|intros x]. by apply (commaLoop_bounded n). }
  by apply Hb.
Qed.

Lemma postfixLoop_bounded (n : nat) (parseExpression : P ASTNode) :
  (1 <= n -> bounded (n - 1) 0 parseExpression) ->
  forall fuel m node,
    m <= fuel -> m <= n -> bounded m 0 (postfixLoop fuel parseExpression node).
Proof.
  intros Hnext.
  induction fuel as [|fuel IH]; intros m node Hm Hn ts Hts; simpl;
    destruct (checkType LBRACKET ts) eqn:Hex; try (simpl; lia);
    apply checkType_nonempty in Hex; try discriminate; try lia.
  unfold bind at 1 2, advance.
  pose proof (Hnext ltac:(lia) (tl ts) ltac:(lia)) as H1.
  destruct (parseExpression (tl ts)) as [index ts1| | |]; try done.
  assert (Hb : bounded (m - 1) 0 (expect RBRACKET ;;;
                                  postfixLoop fuel parseExpression (IndexAccess node index))).
  { apply bounded_bind; [auto with bounded|intros _]. apply IH; lia. }
  specialize (Hb ts1 ltac:(lia)).
  destruct ((expect RBRACKET ;;; postfixLoop fuel parseExpression _) ts1); try done. lia.
Qed.

Lemma dictEntry_bounded (n : nat) (parseExpression : P ASTNode) :
  bounded n 0 parseExpression -> bounded n 0 (dictEntry parseExpression).
Proof. intros H. unfold dictEntry. bounded_auto. Qed.

Hint Resolve dictEntry_bounded : bounded.

Ltac at_tokens ts Hts :=
  match goal with
  | |- match ?m ts with _ => _ end =>
      let Hb := fresh "Hb" in
      enough (Hb : bounded _ 0 m) by exact (Hb ts Hts)
  end.

Lemma expressions_bounded :
  forall n f,
    (1 + 16 * n <= f -> bounded n 0 (parsePrimary f))
    /\ (2 + 16 * n <= f -> bounded n 0 (parsePostfix f))
    /\ (3 + 16 * n <= f -> bounded n 0 (parseUnary f))
    /\ (4 + 16 * n <= f -> bounded n 0 (parsePower f))
    /\ (5 + 16 * n <= f -> bounded n 0 (parseMultiplication f))
    /\ (6 + 16 * n <= f -> bounded n 0 (parseAddition f))
    /\ (7 + 16 * n <= f -> bounded n 0 (parseComparison f))
    /\ (8 + 16 * n <= f -> bounded n 0 (parseEquality f))
    /\ (9 + 16 * n <= f -> bounded n 0 (parseAnd f))
    /\ (10 + 16 * n <= f -> bounded n 0 (parseOr f)).
Proof.
  induction n as [n IH] using lt_wf_ind.
  assert (IHor : forall f, 1 <= n -> 16 * n <= f + 6 -> bounded (n - 1) 0 (parseOr f)).
  { intros f Hn Hf. apply (IH (n - 1)); lia. }
  assert (IHunary : forall f, 1 <= n -> 16 * n <= f + 13 -> bounded (n - 1) 0 (parseUnary f)).
  { intros f Hn Hf. apply (IH (n - 1)); lia. }
  assert (IHpower : forall f, 1 <= n -> 16 * n <= f + 12 -> bounded (n - 1) 0 (parsePower f)).
  { intros f Hn Hf. apply (IH (n - 1)); lia. }
  assert (Hprimary : forall f, 1 + 16 * n <= f -> bounded n 0 (parsePrimary f)).
  { intros [|f] Hf; [lia|]. cbn [parsePrimary]. intros ts Hts.
    assert (Hlist : forall close, 1 <= n ->
              bounded (n - 1) 0 (commaSeparated f close (parseOr f))).
    { intros close Hn. apply commaSeparated_bounded; [apply IHor; lia|lia]. }
    assert (Hdict : 1 <= n ->
              bounded (n - 1) 0 (commaSeparated f RBRACE (dictEntry (parseOr f)))).
    { intros Hn. apply commaSeparated_bounded; [|lia].
      apply dictEntry_bounded, IHor; lia. }
    destruct (type (current ts)) eqn:Hty; try done;
      first
        [ refine (bounded_advance_at n 0 (fun _ => _) ts _ Hts _ _);
          [by rewrite Hty|lia|intros ? Hn];
          pose proof (IHor f Hn ltac:(lia)); solve [bounded_auto]
        | at_tokens ts Hts;
          first
            [ solve [bounded_auto]
            | apply bounded_bind_strict; [solve [auto with bounded]|lia|intros ? Hn];
              pose proof (IHor f Hn ltac:(lia));
              pose proof (Hlist RBRACKET Hn); pose proof (Hdict Hn);
              solve [bounded_auto]
            | apply bounded_bind; [solve [auto with bounded]|intros ?];
              apply bounded_check_advance;
              [discriminate
              |intros ? Hn; pose proof (Hlist RPAREN Hn); solve [bounded_auto]
              |solve [bounded_auto]] ] ]. }
  assert (Hpostfix : forall f, 2 + 16 * n <= f -> bounded n 0 (parsePostfix f)).
  { intros [|f] Hf; [lia|]. cbn [parsePostfix].
    apply bounded_bind; [apply Hprimary; lia|intros node].
    apply (postfixLoop_bounded n); [intros Hn; apply IHor; lia|lia|lia]. }
  assert (Hunary : forall f, 3 + 16 * n <= f -> bounded n 0 (parseUnary f)).
  { intros [|f] Hf; [lia|]. cbn [parseUnary].
    assert (Hp : bounded n 0 (parsePostfix f)) by (apply Hpostfix; lia).
    apply bounded_check_advance; [discriminate|intros op Hn|].
    - apply bounded_bind; [apply IHunary; lia|intros operand]. bounded_auto.
    - apply bounded_check_advance; [discriminate|intros op Hn|done].
      apply bounded_bind; [apply IHunary; lia|intros operand]. bounded_auto. }
  assert (Hpower : forall f, 4 + 16 * n <= f -> bounded n 0 (parsePower f)).
  { intros [|f] Hf; [lia|]. cbn [parsePower].
    apply bounded_bind; [apply Hunary; lia|intros left].
    apply bounded_check_advance; [discriminate|intros op Hn|apply bounded_ret].
    apply bounded_bind; [apply IHpower; lia|intros right]. bounded_auto. }
  assert (Hloop : forall f ops next left,
             n <= f -> Forall (fun t => t <> EOF) ops -> bounded n 0 next ->
             bounded n 0 (binaryLoop f ops next left)).
  { intros f ops next left Hf Hops Hnext. by apply (binaryLoop_bounded n). }
  assert (Hmul : forall f, 5 + 16 * n <= f -> bounded n 0 (parseMultiplication f)).
  { intros [|f] Hf; [lia|]. cbn [parseMultiplication].
    assert (Hp : bounded n 0 (parsePower f)) by (apply Hpower; lia).
    apply bounded_bind; [done|intros left].
    apply Hloop; [lia|repeat constructor; discriminate|done]. }
  assert (Hadd : forall f, 6 + 16 * n <= f -> bounded n 0 (parseAddition f)).
  { intros [|f] Hf; [lia|]. cbn [parseAddition].
    assert (Hp : bounded n 0 (parseMultiplication f)) by (apply Hmul; lia).
    apply bounded_bind; [done|intros left].
    apply Hloop; [lia|repeat constructor; discriminate|done]. }
  assert (Hcmp : forall f, 7 + 16 * n <= f -> bounded n 0 (parseComparison f)).
  { intros [|f] Hf; [lia|]. cbn [parseComparison].
    assert (Hp : bounded n 0 (parseAddition f)) by (apply Hadd; lia).
    apply bounded_bind; [done|intros left].
    apply Hloop; [lia|repeat constructor; discriminate|done]. }
  assert (Heq : forall f, 8 + 16 * n <= f -> bounded n 0 (parseEquality f)).
  { intros [|f] Hf; [lia|]. cbn [parseEquality].
    assert (Hp : bounded n 0 (parseComparison f)) by (apply Hcmp; lia).
    apply bounded_bind; [done|intros left].
    apply Hloop; [lia|repeat constructor; discriminate|done]. }
  assert (Hand : forall f, 9 + 16 * n <= f -> bounded n 0 (parseAnd f)).
  { intros [|f] Hf; [lia|]. cbn [parseAnd].
    assert (Hp : bounded n 0 (parseEquality f)) by (apply Heq; lia).
    apply bounded_bind; [done|intros left].
    apply Hloop; [lia|repeat constructor; discriminate|done]. }
  assert (Hor : forall f, 10 + 16 * n <= f -> bounded n 0 (parseOr f)).
  { intros [|f] Hf; [lia|]. cbn [parseOr].
    assert (Hp : bounded n 0 (parseAnd f)) by (apply Hand; lia).
    apply bounded_bind; [done|intros left].
    apply Hloop; [lia|repeat constructor; discriminate|done]. }
  intros f. repeat split; auto.
Qed.

Lemma parseExpression_bounded (n f : nat) :
  10 + 16 * n <= f -> bounded n 0 (parseExpression f).
Proof. apply expressions_bounded. Qed.

Ltac at_tokens_strict ts Hts :=
  match goal with
  | |- match ?m ts with _ => _ end =>
      let Hb := fresh "Hb" in
      enough (Hb : bounded _ _ m) by exact (Hb ts Hts)
  end.

Lemma parseEcho_bounded (n f : nat) :
  10 + 16 * n <= f -> bounded n 1 (parseEcho f).
Proof.
  intros Hf. pose proof (parseExpression_bounded n f Hf) as He.
  unfold parseEcho.
  apply bounded_bind_strict; [auto with bounded|lia|intros _ Hn].
  apply bounded_bind; [auto with bounded|intros _].
  apply bounded_bind; [|intros expressions; bounded_auto].
  apply commaSeparated_bounded; [|lia]. apply (bounded_mono n _ 0); [done|lia|lia].
Qed.

Lemma parseCreateVar_bounded (n f : nat) :
  10 + 16 * n <= f -> bounded n 1 (parseCreateVar f).
Proof.
  intros Hf. pose proof (parseExpression_bounded n f Hf) as He.
  unfold parseCreateVar.
  apply bounded_bind_strict; [auto with bounded|lia|intros _ Hn].
  intros ts Hts. destruct (varTypeOf (type (current ts))); [|done].
  at_tokens ts Hts. bounded_auto.
Qed.

Lemma parseMethodArgs_bounded (n f : nat) (method collectionType : string) :
  10 + 16 * n <= f -> bounded n 0 (parseMethodArgs f method collectionType).
Proof.
  intros Hf. pose proof (parseExpression_bounded n f Hf) as He.
  assert (Hloop : forall items, bounded n 0 (commaLoop f (parseExpression f) items)).
  { intros items. apply (commaLoop_bounded n); [done|lia|lia]. }
  unfold parseMethodArgs. bounded_auto.
Qed.

Lemma parseForAssign_bounded (n f : nat) :
  10 + 16 * n <= f -> bounded n 1 (parseForAssign f).
Proof.
  intros Hf. pose proof (parseExpression_bounded n f Hf) as He.
  unfold parseForAssign.
  apply bounded_bind_strict; [auto with bounded|lia|intros name Hn]. bounded_auto.
Qed.

Lemma parseIdentifierStatement_bounded (n f : nat) (ts : list Token) :
  10 + 16 * n <= f ->
  type (current ts) <> EOF ->
  List.length ts <= n ->
  match parseIdentifierStatement f ts with
  | OutOfFuel => False
  | Done _ ts' => List.length ts' + 1 <= List.length ts
  | _ => True
  end.
Proof.
  intros Hf Hty Hts. pose proof (parseExpression_bounded n f Hf) as He.
  pose proof (parseMethodArgs_bounded n f) as Hargs.
  assert (Hlist : bounded n 0 (commaSeparated f RPAREN (parseExpression f))).
  { apply commaSeparated_bounded; [done|lia]. }
  unfold parseIdentifierStatement.
  apply (bounded_advance_at n 1); [done|done|lia|intros name Hn].
  apply bounded_bind; [auto with bounded|intros isDot].
  destruct isDot; [|bounded_auto].
  apply bounded_bind; [auto with bounded|intros _].
  intros ts1 Hts1. destruct (methodOf (type (current ts1))); [|done].
  at_tokens ts1 Hts1.
  apply bounded_bind; [auto with bounded|intros _].
  apply bounded_bind; [auto with bounded|intros _].
  intros ts2 Hts2. destruct (collectionTypeOf (type (current ts2))); [|done].
  at_tokens ts2 Hts2.
  apply bounded_bind; [auto with bounded|intros _].
  apply bounded_bind; [auto with bounded|intros _].
  apply bounded_bind; [|intros args; bounded_auto].
  apply (bounded_mono n _ 0); [by apply Hargs|lia|lia].
Qed.

Lemma blockLoop_bounded (n : nat) (parseStatement : P ASTNode) :
  bounded n 1 parseStatement ->
  forall fuel m statements,
    m <= fuel -> m <= n -> bounded m 0 (blockLoop fuel parseStatement statements).
Proof.
  intros Hnext.
  induction fuel as [|fuel IH]; intros m statements Hm Hn ts Hts; simpl;
    destruct (negb (checkType RBRACE ts) && negb (checkType EOF ts)) eqn:Hguard;
    try (simpl; lia).
  - assert (ts = []) as -> by (destruct ts; [done|simpl in Hts; lia]).
    by rewrite andb_false_r in Hguard.
  - unfold bind.
    pose proof (Hnext ts ltac:(lia)) as H1.
    destruct (parseStatement ts) as [stmt ts1| | |]; try done.
    pose proof (IH (m - 1) (statements ++ [stmt])%list ltac:(lia) ltac:(lia) ts1
                  ltac:(lia)) as H2.
    destruct (blockLoop fuel parseStatement _ ts1); try done. lia.
Qed.

Lemma statements_bounded :
  forall n f,
    (12 + 16 * n <= f -> bounded n 1 (parseStatement f))
    /\ (1 + 16 * n <= f -> bounded n 0 (parseBlock f))
    /\ (11 + 16 * n <= f -> bounded n 1 (parseIf f))
    /\ (11 + 16 * n <= f -> bounded n 1 (parseWhile f))
    /\ (11 + 16 * n <= f -> bounded n 1 (parseFor f)).
Proof.
  induction n as [n IH] using lt_wf_ind.
  assert (IHblock : forall f, 1 <= n -> 16 * n <= f + 15 -> bounded (n - 1) 0 (parseBlock f)).
  { intros f Hn Hf. apply (IH (n - 1)); lia. }
  assert (IHif : forall f, 1 <= n -> 16 * n <= f + 5 -> bounded (n - 1) 1 (parseIf f)).
  { intros f Hn Hf. apply (IH (n - 1)); lia. }
  assert (IHstatement : forall f, 1 <= n -> 16 * n <= f + 4 ->
                                  bounded (n - 1) 1 (parseStatement f)).
  { intros f Hn Hf. apply (IH (n - 1)); lia. }
  assert (Hblock : forall f, 1 + 16 * n <= f -> bounded n 0 (parseBlock f)).
  { intros [|f] Hf; [lia|]. cbn [parseBlock].
    apply bounded_bind_strict; [auto with bounded|lia|intros _ Hn].
    apply bounded_bind; [|intros statements; bounded_auto].
    apply (blockLoop_bounded (n - 1)); [apply IHstatement; lia|lia|lia]. }
  assert (Hif : forall f, 11 + 16 * n <= f -> bounded n 1 (parseIf f)).
  { intros [|f] Hf; [lia|]. cbn [parseIf].
    apply bounded_bind_strict; [auto with bounded|lia|intros _ Hn].
    pose proof (parseExpression_bounded (n - 1) f ltac:(lia)) as He.
    pose proof (IHblock f Hn ltac:(lia)) as Hb.
    pose proof (IHif f Hn ltac:(lia)) as Hi.
    assert (Hi0 : bounded (n - 1) 0 (parseIf f))
      by (apply (bounded_mono (n - 1) _ 1); [done|lia|lia]).
    bounded_auto. }
  assert (Hwhile : forall f, 11 + 16 * n <= f -> bounded n 1 (parseWhile f)).
  { intros [|f] Hf; [lia|]. cbn [parseWhile].
    apply bounded_bind_strict; [auto with bounded|lia|intros _ Hn].
    pose proof (parseExpression_bounded (n - 1) f ltac:(lia)) as He.
    pose proof (IHblock f Hn ltac:(lia)) as Hb.
    bounded_auto. }
  assert (Hfor : forall f, 11 + 16 * n <= f -> bounded n 1 (parseFor f)).
  { intros [|f] Hf; [lia|]. cbn [parseFor].
    apply bounded_bind_strict; [auto with bounded|lia|intros _ Hn].
    pose proof (parseExpression_bounded (n - 1) f ltac:(lia)) as He.
    pose proof (IHblock f Hn ltac:(lia)) as Hb.
    assert (Hc : bounded (n - 1) 0 (parseCreateVar f)).
    { apply (bounded_mono (n - 1) _ 1); [apply parseCreateVar_bounded; lia|lia|lia]. }
    assert (Ha : bounded (n - 1) 0 (parseForAssign f)).
    { apply (bounded_mono (n - 1) _ 1); [apply parseForAssign_bounded; lia|lia|lia]. }
    bounded_auto. }
  assert (Hstatement : forall f, 12 + 16 * n <= f -> bounded n 1 (parseStatement f)).
  { intros [|f] Hf; [lia|]. cbn [parseStatement]. intros ts Hts.
    destruct (type (current ts)) eqn:Hty; try done.
    - apply (parseCreateVar_bounded n f ltac:(lia) ts Hts).
    - apply (parseEcho_bounded n f ltac:(lia) ts Hts).
    - apply (Hif f ltac:(lia) ts Hts).
    - apply (Hwhile f ltac:(lia) ts Hts).
    - apply (Hfor f ltac:(lia) ts Hts).
    - apply (parseIdentifierStatement_bounded n); [lia|by rewrite Hty|done]. }
  intros f. repeat split; auto.
Qed.

Lemma parseTopLevel_bounded (n f : nat) :
  1 + 16 * n <= f -> bounded n 1 (parseTopLevel f).
Proof.
  intros Hf. unfold parseTopLevel, parseMain.
  intros ts Hts. unfold bind at 1, check.
  destruct (checkType MAIN ts); [|done].
  at_tokens_strict ts Hts.
  apply bounded_bind_strict; [auto with bounded|lia|intros _ Hn].
  pose proof (proj1 (proj2 (statements_bounded (n - 1) f)) ltac:(lia)) as Hb.
  bounded_auto.
Qed.

Lemma topLevelLoop_bounded :
  forall fuel n statements,
    2 + 16 * n <= fuel -> bounded n 0 (topLevelLoop fuel statements).
Proof.
  induction fuel as [|fuel IH]; intros n statements Hfuel ts Hts; [lia|]. simpl.
  destruct (negb (checkType VOID_END ts) && negb (checkType EOF ts)) eqn:Hguard;
    [|simpl; lia].
  unfold bind.
  pose proof (parseTopLevel_bounded n fuel ltac:(lia) ts Hts) as H1.
  destruct (parseTopLevel fuel ts) as [node ts1| | |]; try done.
  pose proof (IH (n - 1) (statements ++ [node])%list ltac:(lia) ts1 ltac:(lia)) as H2.
  destruct (topLevelLoop fuel _ ts1); try done. lia.
Qed.

Lemma parseProgram_bounded (n f : nat) :
  2 + 16 * n <= f -> bounded n 0 (parseProgram f).
Proof.
  intros Hf. pose proof (topLevelLoop_bounded f n [] Hf) as Hloop.
  unfold parseProgram. bounded_auto.
Qed.

End ParserTotal.


(** ** Values that hold themselves *)

Lemma mapResult_Ok_inv {A B} (f : A -> result B) (l : list A) :
  forall ys, mapResult f l = Ok ys -> forall x, x ∈ l -> exists y, f x = Ok y.
Proof.
  induction l as [|a l IH]; intros ys Hmap x Hx; [by apply elem_of_nil in Hx|].
  simpl in Hmap. destruct (f a) as [y| |] eqn:Hfa; try discriminate.
  simpl in Hmap. destruct (mapResult f l) as [ys'| |] eqn:Hl; try discriminate.
  apply elem_of_cons in Hx as [->|Hx]; [eauto|by apply (IH ys')].
Qed.

Lemma cyclic_component (h : Heap) (v : VoidValue) :
  cyclic h v -> exists c, component h v c /\ cyclic h c.
Proof.
  unfold cyclic. intros Hv.
  assert (Hstep : exists c, component h v c /\ rtc (component h) c v).
  { inversion Hv as [? ? Hc|? c ? Hc Hrest]; subst.
    - exists v. by split.
    - exists c. split; [done|by apply tc_rtc]. }
  destruct Hstep as (c & Hc & Hback). exists c. split; [done|].
  eapply tc_rtc_l; [exact Hback|by apply tc_once].
Qed.

Lemma stringifyDepth_cyclic (h : Heap) :
  forall (d : nat) (v : VoidValue) (s : string),
    cyclic h v -> stringifyDepth d h v <> Ok s.
Proof.
  induction d as [|d IH]; intros v s Hv Hok;
    destruct (cyclic_component h v Hv) as (c & Hc & Hcyc);
    destruct v as [| |b|n|t|ref|ref]; try done.
  - simpl in Hok.
    destruct (mapResult (stringifyDepth d h) (elementsOf h ref)) as [items| |] eqn:Hmap;
      try discriminate.
    destruct (mapResult_Ok_inv _ _ items Hmap c Hc) as [y Hy]. by apply (IH c y).
  - simpl in Hok, Hc. destruct Hc as (i & k & Hk & Hc).
    match type of Hok with
    | context [mapResult ?f ?l] => destruct (mapResult f l) as [entries| |] eqn:Hmap
    end; try discriminate.
    destruct (mapResult_Ok_inv _ _ entries Hmap (i, k)) as [y Hy].
    { by apply (elem_of_lookup_imap_2 (fun i k => (i, k))). }
    simpl in Hy.
    destruct (stringifyDepth d h k) as [sk| |] eqn:Hsk; try discriminate.
    simpl in Hy.
    destruct (stringifyDepth d h (nth i (valuesOf h ref) VUndefined)) as [sv| |] eqn:Hsv;
      try discriminate.
    destruct Hc as [->| ->]; [by apply (IH k sk)|].
    by apply (IH (nth i (valuesOf h ref) VUndefined) sv).
Qed.

Lemma stringify_Ok_inv (h : Heap) (v : VoidValue) (s : string) :
  stringify h v = Ok s -> stringifyDepth (S (List.length h)) h v = Ok s.
Proof.
  unfold stringify.
  destruct (stringifyDepth (S (List.length h)) h v) as [t|e|w]; try done.
  by destruct (nesting _ h v <=? stackDepth)%nat.
Qed.

(** A list or dict that holds itself, directly or through others, is never
    printed: [stringify] gives no text for it, so [echo] and [toString] of
    such a value never complete. *)
Theorem cyclic_value_is_never_printed
    (e : ASTNode) (st st' : State) (v : VoidValue) :
  executeNode e st = Done v st' ->
  cyclic (heap st') v ->
  (forall s, stringify (heap st') v <> Ok s)
  /\ (forall r st'', executeNode (Echo [e]) st <> Done r st'')
  /\ (forall r st'', executeNode (FunctionCall "toString" [e]) st <> Done r st'').
Proof.
  intros He Hv.
  assert (Hs : forall s, stringify (heap st') v <> Ok s).
  { intros s Hok. by apply stringify_Ok_inv, stringifyDepth_cyclic in Hok. }
  split; [done|]. split; intros r st''; cbn [executeNode map].
  - unfold executeEcho, bind. cbn [sequence]. unfold bind. rewrite He.
    unfold ret at 1 2, getHeap, liftResult. cbn [mapResult].
    destruct (stringify (heap st') v) as [s| |] eqn:Hstr;
      [exfalso; exact (Hs s eq_refl)|simpl; discriminate|simpl; discriminate].
  - unfold executeFunctionCall, bind. cbn [sequence]. unfold bind. rewrite He.
    unfold ret at 1 2, getHeap, liftResult, callBuiltin.
    cbn [String.eqb Ascii.eqb Bool.eqb]. unfold expectArgs. cbn -[stringify].
    destruct (stringify (heap st') v) as [s| |] eqn:Hstr;
      [exfalso; exact (Hs s eq_refl)|simpl; discriminate|simpl; discriminate].
Qed.

Lemma cyclic_value_is_never_printed_witness :
  (forall s, stringify (heap selfListState) (VList 0) <> Ok s)
  /\ (forall r st'', executeNode (Echo [Identifier "L"]) selfListState <> Done r st'')
  /\ (forall r st'',
        executeNode (FunctionCall "toString" [Identifier "L"]) selfListState
        <> Done r st'').
Proof.
  apply (cyclic_value_is_never_printed (Identifier "L") selfListState selfListState
           (VList 0) eq_refl).
  apply tc_once. simpl. apply list_elem_of_further, list_elem_of_here.
Defined.

Section Overflow.

Variable h : Heap.

Lemma mapResult_Fail_inv {A B} (f : A -> result B) (l : list A) (e : Error) :
  mapResult f l = Fail e -> exists x, x ∈ l /\ f x = Fail e.
Proof.
  induction l as [|a l IH]; intros Hmap; [discriminate|].
  simpl in Hmap. destruct (f a) as [y|e'|s] eqn:Hfa; simpl in Hmap.
  - destruct (mapResult f l) as [ys|e'|s] eqn:Hl; try discriminate.
    destruct IH as (x & Hx & Hfx); [done|].
    exists x. split; [by apply list_elem_of_further|done].
  - exists a. split; [apply list_elem_of_here|congruence].
  - discriminate.
Qed.

Lemma holder_same_ref (x y : VoidValue) :
  holder h x -> holder h y -> refOf x = refOf y -> x = y.
Proof.
  destruct x, y; simpl; try done; intros Hx Hy ->; try done;
    destruct Hx as (? & Hx); destruct Hy as (? & Hy); try done;
    try (destruct Hx as (? & Hx)); try (destruct Hy as (? & Hy)); congruence.
Qed.

Lemma holder_in_heap (x : VoidValue) : holder h x -> (refOf x < List.length h)%nat.
Proof.
  destruct x; simpl; try done.
  - intros (? & Hx). by apply lookup_lt_Some in Hx.
  - intros (? & ? & Hx). by apply lookup_lt_Some in Hx.
Qed.

Lemma holders_fit (seen : list VoidValue) :
  Forall (holder h) seen -> NoDup (refOf <$> seen) ->
  (List.length seen <= List.length h)%nat.
Proof.
  intros Hall Hnd.
  assert (Hsub : refOf <$> seen ⊆+ seq 0 (List.length h)); cycle 1.
  { apply submseteq_length in Hsub. by rewrite length_fmap, length_seq in Hsub. }
  apply NoDup_submseteq; [done|].
  intros r Hr. apply list_elem_of_fmap in Hr as (x & -> & Hx).
  apply elem_of_seq. split; [lia|].
  rewrite Forall_forall in Hall. apply holder_in_heap, Hall, Hx.
Qed.

Lemma overflow_step (d : nat) (v : VoidValue) (e : Error) :
  stringifyDepth (S d) h v = Fail e ->
  holder h v
  /\ exists c, component h v c /\ stringifyDepth d h c = Fail e.
Proof.
  intros Hfail. destruct v as [| |b|n|t|ref|ref];
    try (exfalso; exact (jsString_never_fails _ _ Hfail));
    try discriminate Hfail.
  - simpl in Hfail.
    destruct (mapResult (stringifyDepth d h) (elementsOf h ref)) as [items|e'|s] eqn:Hmap;
      try discriminate.
    simpl in Hfail. injection Hfail as ->.
    apply mapResult_Fail_inv in Hmap as (c & Hc & Hfc).
    split; [|by exists c]. simpl. unfold elementsOf in Hc.
    destruct (h !! ref) as [[elements|keys values]|]; try (by apply elem_of_nil in Hc).
    by exists elements.
  - simpl in Hfail.
    match type of Hfail with
    | context [mapResult ?f ?l] => destruct (mapResult f l) as [entries|e'|s] eqn:Hmap
    end; try discriminate.
    simpl in Hfail. injection Hfail as ->.
    apply mapResult_Fail_inv in Hmap as ([i k] & Hik & Hf).
    apply elem_of_lookup_imap_1 in Hik as (i' & k' & Heq & Hk). simplify_eq.
    split.
    + simpl. unfold keysOf in Hk.
      destruct (h !! ref) as [[elements|keys values]|]; try done. by exists keys, values.
    + simpl in Hf. destruct (stringifyDepth d h k') as [sk|e'|s] eqn:Hsk.
      * simpl in Hf.
        destruct (stringifyDepth d h (nth i' (valuesOf h ref) VUndefined))
          as [sv|e'|s] eqn:Hsv; try discriminate.
        simpl in Hf. injection Hf as ->.
        exists (nth i' (valuesOf h ref) VUndefined). split; [|done].
        simpl. exists i', k'. by split; [|right].
      * simpl in Hf. injection Hf as ->. exists k'. split; [|done].
        simpl. exists i', k'. by split; [|left].
      * discriminate.
Qed.

Lemma stringifyDepth_fails_by_depth :
  forall (d : nat) (v : VoidValue) (e : Error),
    stringifyDepth d h v = Fail e -> e = RangeError.
Proof.
  induction d as [|d IH]; intros v e Hfail.
  - destruct v; try (exfalso; exact (jsString_never_fails _ _ Hfail));
      try discriminate Hfail; simpl in Hfail; congruence.
  - apply overflow_step in Hfail as (_ & c & _ & Hc). by apply (IH c).
Qed.

Lemma overflow_reaches_cycle (e : Error) :
  forall (d : nat) (v : VoidValue) (seen : list VoidValue),
    Forall (holder h) seen -> NoDup (refOf <$> seen) ->
    (forall x, x ∈ seen -> tc (component h) x v) ->
    (List.length h < List.length seen + d)%nat ->
    stringifyDepth d h v = Fail e ->
    exists w, rtc (component h) v w /\ cyclic h w.
Proof.
  induction d as [|d IH]; intros v seen Hall Hnd Hreach Hlen Hfail.
  - pose proof (holders_fit seen Hall Hnd). lia.
  - apply overflow_step in Hfail as (Hv & c & Hc & Hfc).
    destruct (decide (refOf v ∈ refOf <$> seen)) as [Hin|Hnew].
    + apply list_elem_of_fmap in Hin as (x & Href & Hx).
      assert (x = v) as ->.
      { apply holder_same_ref; [|done|done]. rewrite Forall_forall in Hall. by apply Hall. }
      exists v. split; [done|]. by apply Hreach.
    + destruct (IH c (v :: seen)) as (w & Hw & Hcyc); try done.
      * by constructor.
      * rewrite fmap_cons. by constructor.
      * intros x Hx. apply elem_of_cons in Hx as [->|Hx]; [by apply tc_once|].
        eapply tc_r; [by apply Hreach|done].
      * simpl. lia.
      * exists w. split; [|done]. by eapply rtc_l.
Qed.

End Overflow.

(** The recursion of [stringify] fails in one way only, by running out of
    stack.  On a stack that holds more nested calls than the heap has
    objects it runs out only on a value that is, or holds at some depth,
    a list or dict that holds itself; and only on such a value does
    [stringify] fail for certain. *)
Theorem overflow_beyond_the_heap_size_is_a_cycle
    (h : Heap) (v : VoidValue) (e : Error) (d : nat) :
  (List.length h < d)%nat /\ stringifyDepth d h v = Fail e
  \/ stringify h v = Fail e ->
  e = RangeError /\ exists w, rtc (component h) v w /\ cyclic h w.
Proof.
  assert (Hdepth : forall d', (List.length h < d')%nat ->
                     stringifyDepth d' h v = Fail e ->
                     e = RangeError /\ exists w, rtc (component h) v w /\ cyclic h w).
  { intros d' Hd Hfail. split; [by apply (stringifyDepth_fails_by_depth h d' v)|].
    apply (overflow_reaches_cycle h e d' v []); try done.
    - constructor.
    - intros x Hx. by apply elem_of_nil in Hx. }
  intros [[Hd Hfail]|Hfail]; [by apply (Hdepth d)|].
  unfold stringify in Hfail.
  destruct (stringifyDepth (S (List.length h)) h v) as [t|e1|w] eqn:H1; try done.
  - by destruct (nesting _ h v <=? stackDepth)%nat.
  - injection Hfail as ->. apply (Hdepth (S (List.length h))); [lia|done].
Qed.

(** The theorem at a list that is its own second element. *)
Lemma overflow_beyond_the_heap_size_is_a_cycle_witness :
  RangeError = RangeError
  /\ exists w, rtc (component (heap selfListState)) (VList 0) w
               /\ cyclic (heap selfListState) w.
Proof.
  apply (overflow_beyond_the_heap_size_is_a_cycle
           (heap selfListState) (VList 0) RangeError 0).
  right. vm_compute. reflexivity.
Defined.
